(** * Clustered points writer and cluster service: a shallow embedding

    The development follows [cluster/points_writer.go]: the shard-group list
    ([sgList]), the shard mapping, [PointsWriter.MapShards],
    [PointsWriter.writeToShard], [isRetryable], the [Open]/[Close] life cycle
    and [Service.processWriteShardRequest].

    Conventions.
    - Go [int], [int64], [time.Time] (nanoseconds since the epoch) and
      [time.Duration] are integers of [Z]; [uint64] identifiers are [N].
    - A Go [error] value is [option error]: [None] is [nil].
    - Calls to the store, the shard writer, the hinted-handoff queue and the
      logger are the nodes of a small program tree ([Prog]), so that a body
      can be run against any behaviour of these collaborators and the calls
      it makes can be read off the run.  The metadata client of [MapShards] is
      a record of functions over the state of the metadata service.
    - The goroutines of [writeToShard] are the bodies it starts; the order in
      which their results, the timeout and the shutdown reach the collecting
      loop is an input of the model. *)

From Stdlib Require Import ZArith NArith String Ascii List Bool Lia.
From Stdlib Require Import Sorting.Sorted Sorting.Permutation DecimalString.
From Equations Require Import Equations.
From stdpp Require Import gmap strings.

Import ListNotations.
Open Scope string_scope.
Open Scope list_scope.
Open Scope Z_scope.

(** ** Errors *)

(** The values an [error] interface can hold here.  The first three are the
    package-level variables of the file; [ErrShardNotFound] stands for
    [tsdb.ErrShardNotFound] and [ErrRetentionPolicyNotFound] for the value
    built by [influxcloud.ErrRetentionPolicyNotFound]; [Errorf] is a value
    built on the spot by [errors.New] or [fmt.Errorf], or handed back by a
    collaborator, and carries its text.  Comparison with [==] on the package
    variables is comparison of constructors: a fresh value with the same text
    is a different error. *)
Inductive error : Type :=
| ErrTimeout
| ErrPartialWrite
| ErrWriteFailed
| ErrShardNotFound
| ErrRetentionPolicyNotFound (name : string)
| Errorf (text : string).

(** Modelled from the spec: [err.Error()].  The texts of the three errors of
    this file are those of the source; [tsdb.ErrShardNotFound] and
    [influxcloud.ErrRetentionPolicyNotFound] are declared outside this package
    and the spec only names them: their texts are those of the packages they
    come from, and no statement below depends on them. *)
Definition Error (e : error) : string :=
  match e with
  | ErrTimeout => "timeout"
  | ErrPartialWrite => "partial write"
  | ErrWriteFailed => "write failed"
  | ErrShardNotFound => "shard not found"
  | ErrRetentionPolicyNotFound name => "retention policy not found: " +:+ name
  | Errorf text => text
  end.

(** [%d] of an unsigned identifier. *)
Definition itoa (n : N) : string := NilEmpty.string_of_uint (N.to_uint n).

(** ** [strings.Contains] *)

Module strings.

(** [strings.HasPrefix s prefix]. *)
Fixpoint HasPrefix (s prefix : string) {struct prefix} : bool :=
  match prefix, s with
  | EmptyString, _ => true
  | String c p', String d s' => Ascii.eqb c d && HasPrefix s' p'
  | String _ _, EmptyString => false
  end.

(** [strings.Contains s substr]: some suffix of [s] starts with [substr]. *)
Fixpoint Contains (s substr : string) : bool :=
  HasPrefix s substr ||
  match s with
  | EmptyString => false
  | String _ s' => Contains s' substr
  end.

End strings.

(** ** [isRetryable] *)

Definition isRetryable (err : option error) : bool :=
  match err with
  | None => true
  | Some e =>
      if strings.Contains (Error e) "field type conflict" then false else true
  end.
Arguments isRetryable : simpl never.

(** ** Data model *)

Record Point : Type := mkPoint {
  Name : string;
  Time : Z;
  HashID : N
}.

Record ShardOwner : Type := mkShardOwner { NodeID : N }.

Record ShardInfo : Type := mkShardInfo {
  ShardID : N;
  Owners : list ShardOwner
}.

Record ShardGroupInfo : Type := mkShardGroupInfo {
  GroupID : N;
  StartTime : Z;
  EndTime : Z;
  Shards : list ShardInfo
}.

(** Modelled from the spec: [models.ConsistencyLevel] is declared outside this
    package; the spec gives it as the enumeration any, one, quorum, all. *)
Inductive ConsistencyLevel : Type :=
| ConsistencyLevelAny
| ConsistencyLevelOne
| ConsistencyLevelQuorum
| ConsistencyLevelAll.

Definition ConsistencyLevel_eqb (a b : ConsistencyLevel) : bool :=
  match a, b with
  | ConsistencyLevelAny, ConsistencyLevelAny
  | ConsistencyLevelOne, ConsistencyLevelOne
  | ConsistencyLevelQuorum, ConsistencyLevelQuorum
  | ConsistencyLevelAll, ConsistencyLevelAll => true
  | _, _ => false
  end.

(** ** [sort.Search] *)

(** The loop of [sort.Search]: [i, j := 0, n; for i < j { h := (i+j)/2;
    if !f(h) { i = h + 1 } else { j = h } }; return i]. *)
Equations? Search_from (f : nat -> bool) (i j : nat) : nat by wf (j - i)%nat lt :=
  Search_from f i j with lt_dec i j => {
    | left _ with f ((i + j) / 2)%nat => {
        | false := Search_from f ((i + j) / 2 + 1)%nat j;
        | true := Search_from f i ((i + j) / 2)%nat };
    | right _ := i }.
Proof.
  all: pose proof (Nat.div_mod_eq (i + j) 2) as Hd;
    pose proof (Nat.mod_upper_bound (i + j) 2) as Hm; lia.
Qed.

Definition Search (n : nat) (f : nat -> bool) : nat := Search_from f 0 n.

(** ** The shard-group list *)

Abbreviation sgList := (list ShardGroupInfo).

(** [l.ShardGroupAt(t)].  [sort.Search] only probes indices below [len(l)], so
    the out-of-range branch of the probe is never taken. *)
Definition ShardGroupAt (l : sgList) (t : Z) : option ShardGroupInfo :=
  let idx :=
    Search (length l)
      (fun i => match l !! i with
                | Some g => t <? EndTime g
                | None => false
                end) in
  if (idx =? length l)%nat then None
  else match l !! idx with
       | Some g => if t <? StartTime g then None else Some g
       | None => None
       end.

Definition Covers (l : sgList) (t : Z) : bool :=
  if (length l =? 0)%nat then false
  else match ShardGroupAt l t with
       | Some _ => true
       | None => false
       end.

(** Modelled from the spec: the order of [meta.ShardGroupInfos] used by
    [sort.Sort], declared outside this package: first by end time, then by
    start time, both ascending. *)
Definition Less (a b : ShardGroupInfo) : bool :=
  if EndTime a =? EndTime b then StartTime a <? StartTime b
  else EndTime a <? EndTime b.

(** Putting [g] in front of a sorted list at its place: after the groups that
    are less than [g], before the groups that are not. *)
Fixpoint insert_sg (g : ShardGroupInfo) (l : sgList) : sgList :=
  match l with
  | [] => [g]
  | h :: r => if Less h g then h :: insert_sg g r else g :: h :: r
  end.

(** Modelled from the spec: [sort.Sort] on the order [Less], declared outside
    this package, as an insertion sort that moves a group to the left only
    past groups it is less than: groups with the same end and start keep the
    order they had, so the group that [Append] adds at the end comes after
    the groups of the list with the same end and start. *)
Fixpoint Sort (l : sgList) : sgList :=
  match l with
  | [] => []
  | h :: r => insert_sg h (Sort r)
  end.

(** [l.Append(sgi)]: [append] and sort. *)
Definition Append (l : sgList) (sgi : ShardGroupInfo) : sgList :=
  let next := l ++ [sgi] in
  Sort next.

(** The order the list is kept in, as a relation. *)
Definition sgLe (a b : ShardGroupInfo) : Prop :=
  EndTime a < EndTime b \/ (EndTime a = EndTime b /\ StartTime a <= StartTime b).

Definition sorted (l : sgList) : Prop := StronglySorted sgLe l.

(** A group contains [t] when [t] lies in its half-open interval. *)
Definition contains (g : ShardGroupInfo) (t : Z) : Prop :=
  StartTime g <= t < EndTime g.

(** ** The shard mapping *)

(** A [[]models.Point] value: its elements and its capacity.  The nil slice
    has no element and capacity 0. *)
Record slice : Type := mkSlice {
  items : list Point;
  capacity : nat
}.

Definition nil_slice : slice := mkSlice [] 0.

(** Reading a map of slices at a key: the nil slice when the key is absent. *)
Definition index_slice (m : gmap N slice) (k : N) : slice :=
  match m !! k with
  | Some s => s
  | None => nil_slice
  end.

Record ShardMapping : Type := mkShardMapping {
  n : Z;
  Points : gmap N slice;
  ShardsOf : gmap N ShardInfo
}.

Definition NewShardMapping (n : Z) : ShardMapping :=
  {| n := n; Points := ∅; ShardsOf := ∅ |}.

(** ** [PointsWriter.MapShards] *)

Record RetentionPolicyInfo : Type := mkRetentionPolicyInfo {
  RPName : string;
  Duration : Z
}.

Record WritePointsRequest : Type := mkWritePointsRequest {
  Database : string;
  RetentionPolicy : string;
  WPPoints : list Point
}.

(** The two methods of [MetaClient] that [MapShards] calls, over the state
    [MS] of the metadata service; each call returns its Go result pair and the
    next state. *)
Record MetaClient (MS : Type) : Type := mkMetaClient {
  MetaRetentionPolicy :
    string -> string -> MS -> (option RetentionPolicyInfo * option error) * MS;
  CreateShardGroup :
    string -> string -> Z -> MS -> (option ShardGroupInfo * option error) * MS
}.
Arguments MetaRetentionPolicy {MS}.
Arguments CreateShardGroup {MS}.

(** Modelled from the spec: [models.MinNanoTime], declared outside this
    package, the minimum representable nanosecond timestamp. *)
Definition MinNanoTime : Z := - 9223372036854775806.

(** The lower bound [min] of [MapShards], from the clock reading [now]. *)
Definition minTime (now : Z) (rp : RetentionPolicyInfo) : Z :=
  let min := MinNanoTime in
  if Duration rp >? 0 then now + - Duration rp else min.

Section Runtime.

(** The capacity the Go runtime gives a slice that [append] has to grow, from
    the old capacity and the length needed; the language only promises that
    the new array is large enough, so it is left open. *)
Variable growslice : nat -> nat -> nat.

(** [meta.ShardGroupInfo.ShardFor], declared outside this package: the shard
    of a group that a series hash falls in. *)
Variable ShardFor : ShardGroupInfo -> N -> ShardInfo.

(** [append(s, p)] *)
Definition append (s : slice) (p : Point) : slice :=
  if (length (items s) <? capacity s)%nat
  then {| items := items s ++ [p]; capacity := capacity s |}
  else {| items := items s ++ [p];
          capacity := growslice (capacity s) (S (length (items s))) |}.

(** [make([]models.Point, 0, n)] *)
Definition make_slice (n : Z) : slice := {| items := []; capacity := Z.to_nat n |}.

Definition MapPoint (s : ShardMapping) (shardInfo : ShardInfo) (p : Point) : ShardMapping :=
  let id := ShardID shardInfo in
  let pts :=
    if Z.of_nat (capacity (index_slice (Points s) id)) <? n s
    then <[id := make_slice (n s)]> (Points s)
    else Points s in
  let pts := <[id := append (index_slice pts id) p]> pts in
  {| n := n s; Points := pts; ShardsOf := <[id := shardInfo]> (ShardsOf s) |}.

(** ** The two loops of [MapShards] *)

Section MapShards.

Context {MS : Type}.
Variable mc : MetaClient MS.

(** First loop: extend the list by a new shard group for every point that is
    neither before [min] nor covered. *)
Fixpoint createGroups (database retentionPolicy : string) (min : Z)
    (points : list Point) (lst : sgList) (ms : MS) : (error + sgList) * MS :=
  match points with
  | [] => (inr lst, ms)
  | p :: rest =>
      if (Time p <? min) || Covers lst (Time p)
      then createGroups database retentionPolicy min rest lst ms
      else
        let '((sg, err), ms') := CreateShardGroup mc database retentionPolicy (Time p) ms in
        match err with
        | Some e => (inl e, ms')
        | None =>
            match sg with
            | None => (inl (Errorf "nil shard group"), ms')
            | Some g =>
                createGroups database retentionPolicy min rest (Append lst g) ms'
            end
        end
  end.

(** Second loop: put every point that has a shard group into its bucket. *)
Fixpoint mapPoints (lst : sgList) (points : list Point) (mapping : ShardMapping)
    : ShardMapping :=
  match points with
  | [] => mapping
  | p :: rest =>
      match ShardGroupAt lst (Time p) with
      | None => mapPoints lst rest mapping
      | Some sg =>
          let sh := ShardFor sg (HashID p) in
          mapPoints lst rest (MapPoint mapping sh p)
      end
  end.

(** [w.MapShards(wp)], with [now] the reading of [time.Now()]. *)
Definition MapShards (now : Z) (wp : WritePointsRequest) (ms : MS)
    : (error + ShardMapping) * MS :=
  let '((rp, err), ms1) := MetaRetentionPolicy mc (Database wp) (RetentionPolicy wp) ms in
  match err with
  | Some e => (inl e, ms1)
  | None =>
      match rp with
      | None => (inl (ErrRetentionPolicyNotFound (RetentionPolicy wp)), ms1)
      | Some rp =>
          let min := minTime now rp in
          match createGroups (Database wp) (RetentionPolicy wp) min (WPPoints wp) [] ms1 with
          | (inl e, ms2) => (inl e, ms2)
          | (inr lst, ms2) =>
              let mapping := NewShardMapping (Z.of_nat (length (WPPoints wp))) in
              (inr (mapPoints lst (WPPoints wp) mapping), ms2)
          end
      end
  end.

End MapShards.

End Runtime.

(** ** Calls to the collaborators *)

(** The calls the writer goroutines and the service make on the store, the
    shard writer, the hinted-handoff queue and the logger. *)
Inductive Call : Type :=
| TSDBStore_WriteToShard (shardID : N) (points : list Point)
| TSDBStore_CreateShard (database retentionPolicy : string) (shardID : N) (enabled : bool)
| ShardWriter_WriteShard (shardID ownerID : N) (points : list Point)
| HintedHandoff_WriteShard (shardID ownerID : N) (points : list Point)
| Logger_Info (msg : string)
| Logger_Printf (msg : string).

(** A body that calls collaborators: it returns, or makes a call and goes on
    with the [error] the call returns (the logger's is ignored). *)
Inductive Prog (A : Type) : Type :=
| Ret (a : A)
| Do (c : Call) (k : option error -> Prog A).
Arguments Ret {A}.
Arguments Do {A}.

Section Run.

Context {W : Type}.

(** How the collaborators answer a call in a state of the world. *)
Variable respond : Call -> W -> option error * W.

(** Run a body: its value, the final state and the calls made, in order, each
    with its answer. *)
Fixpoint run {A : Type} (p : Prog A) (w : W) : A * W * list (Call * option error) :=
  match p with
  | Ret a => (a, w, [])
  | Do c k =>
      let rw := respond c w in
      let res := run (k (fst rw)) (snd rw) in
      (fst (fst res), snd (fst res), (c, fst rw) :: snd res)
  end.

End Run.

Definition isHintedHandoff (c : Call) : bool :=
  match c with
  | HintedHandoff_WriteShard _ _ _ => true
  | _ => false
  end.

Definition isWriteToShard (c : Call) : bool :=
  match c with
  | TSDBStore_WriteToShard _ _ => true
  | _ => false
  end.

Definition isLog (c : Call) : bool :=
  match c with
  | Logger_Info _ | Logger_Printf _ => true
  | _ => false
  end.

(** The calls of a run that are not log lines. *)
Definition calls (tr : list (Call * option error)) : list Call :=
  List.filter (fun c => negb (isLog c)) (List.map fst tr).

(** ** [PointsWriter.writeToShard] *)

Record AsyncWriteResult : Type := mkAsyncWriteResult {
  Owner : ShardOwner;
  Err : option error
}.

Definition is_nil (e : option error) : bool :=
  match e with
  | None => true
  | Some _ => false
  end.

(** The number of acknowledgements [writeToShard] waits for. *)
Definition required (consistency : ConsistencyLevel) (owners : list ShardOwner) : Z :=
  let required := Z.of_nat (length owners) in
  match consistency with
  | ConsistencyLevelAny | ConsistencyLevelOne => 1
  | ConsistencyLevelQuorum => required ÷ 2 + 1
  | ConsistencyLevelAll => required
  end.

(** The first goroutine started for an owner; [None] when it ends without a
    send on the channel. *)
Definition localAttempt (nodeID shardID : N) (owner : ShardOwner) (points : list Point)
    : Prog (option AsyncWriteResult) :=
  if negb (nodeID =? NodeID owner)%N
  then Do (Logger_Info "Remote Write") (fun _ => Ret None)
  else
    Do (TSDBStore_WriteToShard shardID points) (fun err =>
      if negb (is_nil err)
      then Do (Logger_Info "failed to write point to shard locally:") (fun _ =>
             Ret (Some (mkAsyncWriteResult owner err)))
      else Ret (Some (mkAsyncWriteResult owner err))).

(** The second goroutine started for an owner. *)
Definition remoteAttempt (nodeID : N) (consistency : ConsistencyLevel)
    (shardID : N) (owner : ShardOwner) (points : list Point)
    : Prog (option AsyncWriteResult) :=
  if negb (nodeID =? NodeID owner)%N
  then
    Do (ShardWriter_WriteShard shardID (NodeID owner) points) (fun err =>
      if negb (is_nil err) && isRetryable err
      then
        Do (HintedHandoff_WriteShard shardID (NodeID owner) points) (fun hherr =>
          if negb (is_nil hherr)
          then Ret (Some (mkAsyncWriteResult owner hherr))
          else if is_nil hherr && ConsistencyLevel_eqb consistency ConsistencyLevelAny
          then Ret (Some (mkAsyncWriteResult owner None))
          else Ret (Some (mkAsyncWriteResult owner err)))
      else Ret (Some (mkAsyncWriteResult owner err)))
  else Ret None.

(** The case a [select] of the collecting loop takes. *)
Inductive SelectCase : Type :=
| CaseClosing
| CaseTimeout
| CaseResult (result : AsyncWriteResult).

(** The collecting loop, one [select] per owner; [sel] lists the cases taken,
    in order.  The timer of [time.After] always fires, so a [select] for which
    [sel] has no further entry takes the timeout case.  The value is the
    number of results received and the error returned. *)
Fixpoint collect (required : Z) (owners : list ShardOwner) (sel : list SelectCase)
    (wrote : Z) (writeError : option error) (received : nat) : nat * option error :=
  match owners with
  | [] =>
      if wrote >? 0 then (received, Some ErrPartialWrite)
      else match writeError with
           | Some e => (received, Some (Errorf ("write failed: " +:+ Error e)))
           | None => (received, Some ErrWriteFailed)
           end
  | _ :: rest =>
      match sel with
      | [] => (received, Some ErrTimeout)
      | CaseClosing :: _ => (received, Some ErrWriteFailed)
      | CaseTimeout :: _ => (received, Some ErrTimeout)
      | CaseResult result :: sel' =>
          match Err result with
          | Some e =>
              let writeError :=
                match writeError with
                | None => Some e
                | Some _ => writeError
                end in
              collect required rest sel' wrote writeError (S received)
          | None =>
              let wrote := wrote + 1 in
              if wrote >=? required then (S received, None)
              else collect required rest sel' wrote writeError (S received)
          end
      end
  end.

(** What a call of [writeToShard] does: the goroutines it starts, the number
    of results it receives and the error it returns. *)
Record WriteToShardRun : Type := mkWriteToShardRun {
  goroutines : list (Prog (option AsyncWriteResult));
  received : nat;
  returned : option error
}.

Definition writeToShard (nodeID : N) (shard : ShardInfo)
    (database retentionPolicy : string) (consistency : ConsistencyLevel)
    (points : list Point) (sel : list SelectCase) : WriteToShardRun :=
  let required := required consistency (Owners shard) in
  let spawned :=
    List.flat_map (fun owner =>
       [localAttempt nodeID (ShardID shard) owner points;
        remoteAttempt nodeID consistency (ShardID shard) owner points])
      (Owners shard) in
  let '(received, err) := collect required (Owners shard) sel 0 None 0 in
  {| goroutines := spawned; received := received; returned := err |}.

(** ** [Service.processWriteShardRequest] *)

Record WriteShardRequest : Type := mkWriteShardRequest {
  ReqShardID : N;
  ReqDatabase : string;
  ReqRetentionPolicy : string;
  ReqPoints : list Point
}.

(** [fmt.Errorf("write shard %d: %s", id, err)] *)
Definition errWriteShard (id : N) (e : error) : error :=
  Errorf ("write shard " +:+ itoa id +:+ ": " +:+ Error e).

(** [fmt.Errorf("create shard %d: %s", id, err)] *)
Definition errCreateShard (id : N) (e : error) : error :=
  Errorf ("create shard " +:+ itoa id +:+ ": " +:+ Error e).

Definition is_ErrShardNotFound (err : option error) : bool :=
  match err with
  | Some ErrShardNotFound => true
  | _ => false
  end.

(** The last lines of the function: [if err != nil { return write shard ... };
    return nil]. *)
Definition finishWrite (id : N) (err : option error) : option error :=
  match err with
  | Some e => Some (errWriteShard id e)
  | None => None
  end.

Section Service.

(** [rpc.WriteShardRequest.UnmarshalBinary], declared outside this package:
    the error it returns, or the request it decodes. *)
Variable UnmarshalBinary : list Byte.byte -> error + WriteShardRequest.

Definition processWriteShardRequest (buf : list Byte.byte) : Prog (option error) :=
  match UnmarshalBinary buf with
  | inl err => Ret (Some err)
  | inr req =>
      let points := ReqPoints req in
      Do (TSDBStore_WriteToShard (ReqShardID req) points) (fun err =>
        if is_ErrShardNotFound err
        then
          let db := ReqDatabase req in
          let rp := ReqRetentionPolicy req in
          if String.eqb db "" || String.eqb rp ""
          then
            Do (Logger_Printf
                  ("drop write request: shard=" +:+ itoa (ReqShardID req)
                   +:+ ". no database or rentention policy received"))
               (fun _ => Ret None)
          else
            Do (TSDBStore_CreateShard (ReqDatabase req) (ReqRetentionPolicy req)
                  (ReqShardID req) true) (fun err =>
              match err with
              | Some e => Ret (Some (errCreateShard (ReqShardID req) e))
              | None =>
                  Do (TSDBStore_WriteToShard (ReqShardID req) points) (fun err =>
                    match err with
                    | Some e => Ret (Some (errWriteShard (ReqShardID req) e))
                    | None => Ret (finishWrite (ReqShardID req) err)
                    end)
              end)
        else Ret (finishWrite (ReqShardID req) err))
  end.

End Service.

(** ** [Open] and [Close] *)

(** A channel made by [make(chan struct{})] is a reference into the table of
    channels of the run; the table records for each whether it is closed. *)
Definition chan : Type := nat.

Inductive Event : Type :=
| EvLock
| EvUnlock
| EvMake (c : chan)
| EvCloseChan (c : chan)
| EvListenerClose
| EvWait.

Record Runtime : Type := mkRuntime {
  chans : list bool;
  events : list Event
}.

(** A call returns, or panics. *)
Inductive outcome (A : Type) : Type :=
| Returned (a : A) (rt : Runtime)
| Panic (msg : string) (rt : Runtime).
Arguments Returned {A}.
Arguments Panic {A}.

Definition emit (e : Event) (rt : Runtime) : Runtime :=
  {| chans := chans rt; events := events rt ++ [e] |}.

(** [make(chan struct{})] *)
Definition make_chan (rt : Runtime) : chan * Runtime :=
  let c := length (chans rt) in
  (c, {| chans := chans rt ++ [false]; events := events rt ++ [EvMake c] |}).

(** [close(c)]: closing the nil channel or a closed channel panics. *)
Definition close_chan (c : option chan) (rt : Runtime) : string + Runtime :=
  match c with
  | None => inl "close of nil channel"
  | Some c =>
      match chans rt !! c with
      | Some false =>
          inr {| chans := <[c := true]> (chans rt);
                 events := events rt ++ [EvCloseChan c] |}
      | _ => inl "close of closed channel"
      end
  end.

Record Node : Type := mkNode { ID : N }.

(** The fields of the writer that its life cycle touches; the timeout, the
    logger and the collaborators are left out. *)
Record PointsWriter : Type := mkPointsWriter {
  closing : option chan;
  PWNode : option Node
}.

Definition NewPointsWriter (rt : Runtime) : PointsWriter * Runtime :=
  let '(c, rt) := make_chan rt in
  ({| closing := Some c; PWNode := None |}, rt).

(** [w.Open()]: the unlock is deferred. *)
Definition PointsWriter_Open (w : PointsWriter) (rt : Runtime)
    : outcome (PointsWriter * option error) :=
  let rt := emit EvLock rt in
  let '(c, rt) := make_chan rt in
  let w := {| closing := Some c; PWNode := PWNode w |} in
  Returned (w, None) (emit EvUnlock rt).

(** [w.Close()]: the deferred unlock also runs when [close] panics. *)
Definition PointsWriter_Close (w : PointsWriter) (rt : Runtime)
    : outcome (PointsWriter * option error) :=
  let rt := emit EvLock rt in
  match closing w with
  | Some c =>
      match close_chan (Some c) rt with
      | inr rt => Returned (w, None) (emit EvUnlock rt)
      | inl msg => Panic msg (emit EvUnlock rt)
      end
  | None => Returned (w, None) (emit EvUnlock rt)
  end.

Record Service : Type := mkService {
  sclosing : option chan;
  Listener : bool
}.

Definition NewService (rt : Runtime) : Service * Runtime :=
  let '(c, rt) := make_chan rt in
  ({| sclosing := Some c; Listener := false |}, rt).

(** [s.Close()]; [Listener] tells whether the listener is set. *)
Definition Service_Close (s : Service) (rt : Runtime) : outcome (Service * option error) :=
  let rt := if Listener s then emit EvListenerClose rt else rt in
  match close_chan (sclosing s) rt with
  | inr rt => Returned (s, None) (emit EvWait rt)
  | inl msg => Panic msg rt
  end.

(** The life-cycle calls of a writer. *)
Inductive Op : Type :=
| OpOpen
| OpClose.

(** A sequence of calls on a writer, stopping at the first panic. *)
Fixpoint runOps (ops : list Op) (w : PointsWriter) (rt : Runtime)
    : outcome PointsWriter :=
  match ops with
  | [] => Returned w rt
  | op :: rest =>
      match (match op with
             | OpOpen => PointsWriter_Open w rt
             | OpClose => PointsWriter_Close w rt
             end) with
      | Returned (w, _) rt => runOps rest w rt
      | Panic msg rt => Panic msg rt
      end
  end.

(** A sequence of [Close] calls on a service. *)
Fixpoint runCloses (k : nat) (s : Service) (rt : Runtime) : outcome Service :=
  match k with
  | O => Returned s rt
  | S k =>
      match Service_Close s rt with
      | Returned (s, _) rt => runCloses k s rt
      | Panic msg rt => Panic msg rt
      end
  end.

Definition empty_runtime : Runtime := {| chans := []; events := [] |}.

(** ** Vocabulary of the statements *)

(** The errors of the results that arrive while the loop of [writeToShard]
    may still receive: those among the first [k] cases of [sel] that come
    before a shutdown or a timeout. *)
Fixpoint arrived (k : nat) (sel : list SelectCase) : list (option error) :=
  match k, sel with
  | S k, CaseResult r :: sel' => Err r :: arrived k sel'
  | _, _ => []
  end.

(** The number of results with a nil error. *)
Definition successes (rs : list (option error)) : Z :=
  Z.of_nat (length (List.filter is_nil rs)).

(** The first error among the results. *)
Fixpoint firstError (rs : list (option error)) : option error :=
  match rs with
  | [] => None
  | Some e :: _ => Some e
  | None :: rs => firstError rs
  end.

(** [s] has [sub] as a substring. *)
Definition substring_of (sub s : string) : Prop :=
  exists pre post : string, s = pre +:+ sub +:+ post.

(** What the loop returns once every owner has answered and the required
    count was not reached. *)
Definition verdict (wrote : Z) (writeError : option error) : option error :=
  if wrote >? 0 then Some ErrPartialWrite
  else match writeError with
       | Some e => Some (Errorf ("write failed: " +:+ Error e))
       | None => Some ErrWriteFailed
       end.

Definition orElse (a b : option error) : option error :=
  match a with
  | Some _ => a
  | None => b
  end.


(** A writer, a shard and a schedule used as a running example: three owners,
    the first local; two answer nil and one answers an error. *)
Definition exampleShard : ShardInfo :=
  mkShardInfo 7 [mkShardOwner 1; mkShardOwner 2; mkShardOwner 3].

Definition examplePoints : list Point := [mkPoint "cpu" 1000 99].

Definition exampleSel : list SelectCase :=
  [CaseResult (mkAsyncWriteResult (mkShardOwner 1) None);
   CaseResult (mkAsyncWriteResult (mkShardOwner 2) (Some (Errorf "connection refused")));
   CaseResult (mkAsyncWriteResult (mkShardOwner 3) (Some (Errorf "i/o timeout")))].

(** A behaviour of the collaborators used as a running example: the world
    counts the calls; the shard writer answers a network error, the handoff
    queue and the store accept. *)
Definition exampleRespond (c : Call) (w : nat) : option error * nat :=
  match c with
  | ShardWriter_WriteShard _ _ _ => (Some (Errorf "connection refused"), S w)
  | _ => (None, S w)
  end.

(** A store that does not have the shard and cannot create it, and a request
    for shard 42 of database x and retention policy y. *)
Definition failingStore (c : Call) (w : nat) : option error * nat :=
  match c with
  | TSDBStore_WriteToShard _ _ => (Some ErrShardNotFound, S w)
  | TSDBStore_CreateShard _ _ _ _ => (Some (Errorf "disk full"), S w)
  | _ => (None, S w)
  end.

(** A store that does not have the shard at first, creates it on request and
    then accepts the write; its state tells whether the shard exists. *)
Definition lazyStore (c : Call) (created : bool) : option error * bool :=
  match c with
  | TSDBStore_WriteToShard _ _ =>
      if created then (None, created) else (Some ErrShardNotFound, created)
  | TSDBStore_CreateShard _ _ _ _ => (None, true)
  | _ => (None, created)
  end.

Definition exampleRequest : WriteShardRequest :=
  mkWriteShardRequest 42 "x" "y" examplePoints.

Definition exampleUnmarshal (buf : list Byte.byte) : error + WriteShardRequest :=
  inr exampleRequest.

(** No [Close] of the sequence follows a [Close] without an [Open] in between;
    [afterClose] tells whether the last call before the sequence was a
    [Close]. *)
Fixpoint alternating (afterClose : bool) (ops : list Op) : bool :=
  match ops with
  | [] => true
  | OpOpen :: rest => alternating false rest
  | OpClose :: rest => negb afterClose && alternating true rest
  end.

Definition countCloses (ops : list Op) : nat :=
  length (List.filter (fun op => match op with OpClose => true | OpOpen => false end) ops).

(** The channels closed by a run, in order. *)
Definition closesOf (evs : list Event) : list chan :=
  List.flat_map (fun e => match e with EvCloseChan c => [c] | _ => [] end) evs.

(** Every [close] of the run happens while the lock is held. *)
Fixpoint guarded (locked : bool) (evs : list Event) : bool :=
  match evs with
  | [] => true
  | EvLock :: rest => guarded true rest
  | EvUnlock :: rest => guarded false rest
  | EvCloseChan _ :: rest => locked && guarded locked rest
  | _ :: rest => guarded locked rest
  end.

Fixpoint lockedAfter (locked : bool) (evs : list Event) : bool :=
  match evs with
  | [] => locked
  | EvLock :: rest => lockedAfter true rest
  | EvUnlock :: rest => lockedAfter false rest
  | _ :: rest => lockedAfter locked rest
  end.

(** The state of a writer between two life-cycle calls: its channel exists and
    is closed exactly when the last call was a [Close]; the channels closed so
    far are closed in the table and were closed once, under the lock. *)
Definition lifecycle_inv (afterClose : bool) (w : PointsWriter) (rt : Runtime) : Prop :=
  (exists c, closing w = Some c /\ chans rt !! c = Some afterClose) /\
  (forall c, In c (closesOf (events rt)) -> chans rt !! c = Some true) /\
  List.NoDup (closesOf (events rt)) /\
  guarded false (events rt) = true /\
  lockedAfter false (events rt) = false.

(** Whether the last call before the end of a sequence is a [Close]. *)
Fixpoint afterOps (afterClose : bool) (ops : list Op) : bool :=
  match ops with
  | [] => afterClose
  | OpOpen :: rest => afterOps false rest
  | OpClose :: rest => afterOps true rest
  end.

(** The channel that the last [make] of a run made. *)
Fixpoint lastMade (cur : option chan) (evs : list Event) : option chan :=
  match evs with
  | [] => cur
  | EvMake c :: rest => lastMade (Some c) rest
  | _ :: rest => lastMade cur rest
  end.

(** Two groups are compatible when their intervals are the same or do not
    meet. *)
Definition compatible (a b : ShardGroupInfo) : Prop :=
  (StartTime a = StartTime b /\ EndTime a = EndTime b) \/
  EndTime a <= StartTime b \/
  EndTime b <= StartTime a.

(** The probe [sort.Search] is called with by [ShardGroupAt]. *)
Definition endsAfter (l : sgList) (t : Z) (i : nat) : bool :=
  match l !! i with
  | Some g => t <? EndTime g
  | None => false
  end.

(** The groups of the running example: the first lies inside the second. *)
Definition innerGroup : ShardGroupInfo := mkShardGroupInfo 1 5 10 [mkShardInfo 11 [mkShardOwner 1]].
Definition outerGroup : ShardGroupInfo := mkShardGroupInfo 2 0 20 [mkShardInfo 12 [mkShardOwner 1]].

(** The shard a point goes to, given the final list of shard groups. *)
Definition destination (ShardFor : ShardGroupInfo -> N -> ShardInfo)
    (groups : sgList) (p : Point) : option N :=
  match ShardGroupAt groups (Time p) with
  | Some sg => Some (ShardID (ShardFor sg (HashID p)))
  | None => None
  end.

Definition destinedTo (ShardFor : ShardGroupInfo -> N -> ShardInfo)
    (groups : sgList) (id : N) (p : Point) : bool :=
  match destination ShardFor groups p with
  | Some d => (d =? id)%N
  | None => false
  end.

(** The points of the bucket of a shard. *)
Definition bucketOf (m : ShardMapping) (id : N) : list Point :=
  items (index_slice (Points m) id).

(** Every bucket of a mapping under construction has the capacity of the
    whole batch and holds at most the [k] points mapped so far. *)
Definition mapping_inv (k : nat) (m : ShardMapping) : Prop :=
  forall (id : N) (s : slice),
    Points m !! id = Some s ->
    n m <= Z.of_nat (capacity s) /\ (length (items s) <= k)%nat.

(** A group that some call of [CreateShardGroup] returns. *)
Definition returnedBy {MS : Type} (mc : MetaClient MS) (g : ShardGroupInfo) : Prop :=
  exists db rp t ms e ms', CreateShardGroup mc db rp t ms = ((Some g, e), ms').

(** The metadata service returns, for a time, a group that contains it. *)
Definition groups_contain_time {MS : Type} (mc : MetaClient MS) : Prop :=
  forall db rp t ms g e ms',
    CreateShardGroup mc db rp t ms = ((Some g, e), ms') -> contains g t.

(** The groups the metadata service returns have equal or disjoint
    intervals. *)
Definition groups_compatible {MS : Type} (mc : MetaClient MS) : Prop :=
  forall a b, returnedBy mc a -> returnedBy mc b -> compatible a b.

(** [g] is the group that a call of [CreateShardGroup] for the time [t]
    returns, without an error. *)
Definition createdFor {MS : Type} (mc : MetaClient MS) (db rp : string) (t : Z)
    (g : ShardGroupInfo) : Prop :=
  exists ms ms', CreateShardGroup mc db rp t ms = ((Some g, None), ms').


(** A metadata service used as a running example: one retention policy of
    duration 50, and shard groups that are the windows of width 100 aligned on
    the multiples of 100, each with two shards. *)
Definition windowGroup (t : Z) : ShardGroupInfo :=
  {| GroupID := Z.to_N (t / 100);
     StartTime := 100 * (t / 100);
     EndTime := 100 * (t / 100) + 100;
     Shards := [mkShardInfo 1 [mkShardOwner 1]; mkShardInfo 2 [mkShardOwner 2]] |}.

Definition windowMeta : MetaClient unit :=
  {| MetaRetentionPolicy := fun _ name ms =>
       ((Some (mkRetentionPolicyInfo name 50), None), ms);
     CreateShardGroup := fun _ _ t ms => ((Some (windowGroup t), None), ms) |}.

(** A metadata service that returns a group from 5 to 10 for the times in it,
    the group from 0 to 20 around it for the other times from 0 to 20, and an
    error for the rest. *)
Definition nestedMeta : MetaClient unit :=
  {| MetaRetentionPolicy := fun _ name ms =>
       ((Some (mkRetentionPolicyInfo name 0), None), ms);
     CreateShardGroup := fun _ _ t ms =>
       if (5 <=? t) && (t <? 10) then ((Some innerGroup, None), ms)
       else if (0 <=? t) && (t <? 20) then ((Some outerGroup, None), ms)
       else ((None, Some (Errorf "no shard group")), ms) |}.

(** The shard of a group picked by the hash modulo the number of shards. *)
Definition exampleShardFor (sg : ShardGroupInfo) (hash : N) : ShardInfo :=
  nth (N.to_nat (hash mod N.of_nat (length (Shards sg)))) (Shards sg) (mkShardInfo 0 []).

Definition exampleGrowslice (old needed : nat) : nat := Nat.max needed (2 * old).

(** A batch read at time 1000 under the retention of 50: the lower bound is
    950.  The second point is 1 ns older than the bound. *)
Definition pointAtMin : Point := mkPoint "cpu" 950 0.
Definition pointBeforeMin : Point := mkPoint "cpu" 949 0.
Definition pointOld : Point := mkPoint "mem" 120 1.
Definition pointNew : Point := mkPoint "mem" 1050 1.

Definition exampleBatch : WritePointsRequest :=
  mkWritePointsRequest "db" "rp" [pointAtMin; pointBeforeMin; pointOld; pointNew].

(** The buckets of the given shards in a mapping, when there is one. *)
Definition bucketsAt (ids : list N) (r : error + ShardMapping) : option (list (list Point)) :=
  match r with
  | inr m => Some (List.map (bucketOf m) ids)
  | inl _ => None
  end.

(** The mapping [MapShards] returns for the example batch. *)
Definition exampleMapping : ShardMapping :=
  match fst (MapShards exampleGrowslice exampleShardFor windowMeta 1000 exampleBatch tt) with
  | inr m => m
  | inl _ => NewShardMapping 0
  end.

(** A batch for the metadata service with nested groups: the first point
    makes the inner group, the second the group around it. *)
Definition nestedBatch : WritePointsRequest :=
  mkWritePointsRequest "db" "rp" [mkPoint "cpu" 7 0; mkPoint "cpu" 3 0].

(** * Vocabulary of the further properties *)

(** Three windows of width 100, sorted. *)
Definition windowList : sgList := [windowGroup 50; windowGroup 150; windowGroup 250].

(** The keys of the two maps of a mapping agree, no bucket is empty and every
    shard is filed under its own identifier. *)
Definition mapping_keys_inv (m : ShardMapping) : Prop :=
  forall id : N,
    (Points m !! id = None <-> ShardsOf m !! id = None) /\
    (forall s, Points m !! id = Some s -> items s <> []) /\
    (forall sh, ShardsOf m !! id = Some sh -> ShardID sh = id).

(** Every bucket of a mapping under construction has exactly the capacity
    asked for at creation and holds at most the [k] points mapped so far. *)
Definition mapping_exact (k : nat) (m : ShardMapping) : Prop :=
  forall (id : N) (s : slice),
    Points m !! id = Some s ->
    capacity s = Z.to_nat (n m) /\ (length (items s) <= k)%nat.

(** The intervals of two groups do not meet. *)
Definition disjoint_groups (a b : ShardGroupInfo) : Prop :=
  EndTime a <= StartTime b \/ EndTime b <= StartTime a.

(** A metadata client that works as [mc] and also records, in order, the
    times that [CreateShardGroup] is called with. *)
Definition recording {MS : Type} (mc : MetaClient MS) : MetaClient (MS * list Z) :=
  {| MetaRetentionPolicy := fun db rp s =>
       (fst (MetaRetentionPolicy mc db rp (fst s)),
        (snd (MetaRetentionPolicy mc db rp (fst s)), snd s));
     CreateShardGroup := fun db rp t s =>
       (fst (CreateShardGroup mc db rp t (fst s)),
        (snd (CreateShardGroup mc db rp t (fst s)), snd s ++ [t])) |}.

(** A batch whose points are all older than the lower bound 950. *)
Definition staleBatch : WritePointsRequest :=
  mkWritePointsRequest "db" "rp" [pointOld; pointBeforeMin].

(** The error of a [select] that does not receive a result: the shutdown
    case, or the timeout case (also when nothing further happens). *)
Definition interruption (tail : list SelectCase) : option error :=
  match tail with
  | CaseClosing :: _ => Some ErrWriteFailed
  | _ => Some ErrTimeout
  end.

Definition startsWithResult (tail : list SelectCase) : bool :=
  match tail with
  | CaseResult _ :: _ => true
  | _ => false
  end.

(** Whether a goroutine sends a result, in a run against [respond]. *)
Definition sends {W : Type} (respond : Call -> W -> option error * W) (w : W)
    (g : Prog (option AsyncWriteResult)) : bool :=
  match fst (fst (run respond g w)) with
  | Some _ => true
  | None => false
  end.

(** A schedule for the example shard at the level all: the local result, then
    the timer. *)
Definition timeoutSel : list SelectCase :=
  [CaseResult (mkAsyncWriteResult (mkShardOwner 1) None); CaseTimeout;
   CaseResult (mkAsyncWriteResult (mkShardOwner 2) None)].

(** A schedule in which the second result completes a quorum of two. *)
Definition quorumSel : list SelectCase :=
  [CaseResult (mkAsyncWriteResult (mkShardOwner 1) None);
   CaseResult (mkAsyncWriteResult (mkShardOwner 3) None);
   CaseResult (mkAsyncWriteResult (mkShardOwner 2) (Some (Errorf "connection refused")))].

(** ** [PointsWriter.WritePoints] *)

Record DatabaseInfo : Type := mkDatabaseInfo {
  DefaultRetentionPolicy : string
}.

(** The case a [select] of the loop of [WritePoints] takes: the shutdown, or
    the result of the write to the bucket of a shard. *)
Inductive BatchCase : Type :=
| BatchClosing
| BatchResult (shardID : N).

(** What a call of [WritePoints] does: the shard writes it starts (the shard
    record read from the mapping and the points of the bucket), the shards
    whose results it receives, in order, and what it returns; [None] when it
    is still waiting in a [select] at the end of the schedule. *)
Record WritePointsRun : Type := mkWritePointsRun {
  started : list (option ShardInfo * list Point);
  got : list N;
  wpReturned : option (option error)
}.

(** The goroutines started by the first loop over the buckets. *)
Definition shardWrites (m : ShardMapping) : list (option ShardInfo * list Point) :=
  List.map (fun kv => (ShardsOf m !! fst kv, items (snd kv))) (map_to_list (Points m)).

(** The second loop: one [select] per bucket.  A result can only be received
    from a goroutine that was started and has not been received from yet;
    [results] gives, for the bucket of a shard, what its [writeToShard]
    returns. *)
Fixpoint collectBatch (results : N -> option (option error)) (k : nat)
    (arrivals : list BatchCase) (got : list N) : list N * option (option error) :=
  match k with
  | O => (got, Some None)
  | S k' =>
      match arrivals with
      | [] => (got, None)
      | BatchClosing :: _ => (got, Some (Some ErrWriteFailed))
      | BatchResult id :: rest =>
          if existsb (N.eqb id) got then (got, None)
          else
            match results id with
            | None => (got, None)
            | Some (Some e) => (got ++ [id], Some (Some e))
            | Some None => collectBatch results k' rest (got ++ [id])
            end
      end
  end.

Section WritePoints.

Variable growslice : nat -> nat -> nat.
Variable ShardFor : ShardGroupInfo -> N -> ShardInfo.

(** [influxcloud.ErrDatabaseNotFound], declared outside this package. *)
Variable ErrDatabaseNotFound : string -> error.

Context {MS : Type}.
Variable mc : MetaClient MS.

(** [MetaClient.Database]: the database, or nil. *)
Variable MetaDatabase : string -> MS -> option DatabaseInfo * MS.

(** What the goroutine of a bucket sends: the value of [writeToShard] on the
    shard record filed under the bucket's key, under the schedule [sels] of
    that shard.  There is none for a shard without a bucket; a bucket without
    a shard record (a nil pointer) does not occur in a mapping made by
    [MapShards]. *)
Definition shardWriteResult (nodeID : N) (database retentionPolicy : string)
    (consistencyLevel : ConsistencyLevel) (sels : N -> list SelectCase)
    (m : ShardMapping) (id : N) : option (option error) :=
  match Points m !! id, ShardsOf m !! id with
  | Some s, Some sh =>
      Some (returned (writeToShard nodeID sh database retentionPolicy consistencyLevel
                        (items s) (sels id)))
  | _, _ => None
  end.

(** The first lines of [WritePoints]: an empty policy name is replaced by the
    default policy of the database, and the database must then exist. *)
Definition resolvePolicy (database retentionPolicy : string) (ms : MS)
    : (error + string) * MS :=
  if String.eqb retentionPolicy ""
  then
    match MetaDatabase database ms with
    | (None, ms0) => (inl (ErrDatabaseNotFound database), ms0)
    | (Some db, ms0) => (inr (DefaultRetentionPolicy db), ms0)
    end
  else (inr retentionPolicy, ms).

(** [w.WritePoints(database, retentionPolicy, consistencyLevel, points)], with
    [now] the reading of the clock in [MapShards], [sels] the schedules of the
    shard writes and [arrivals] the cases its own loop takes. *)
Definition WritePoints (nodeID : N) (now : Z) (database retentionPolicy : string)
    (consistencyLevel : ConsistencyLevel) (points : list Point)
    (sels : N -> list SelectCase) (arrivals : list BatchCase) (ms : MS)
    : WritePointsRun * MS :=
  match resolvePolicy database retentionPolicy ms with
  | (inl e, ms0) =>
      ({| started := []; got := []; wpReturned := Some (Some e) |}, ms0)
  | (inr retentionPolicy, ms0) =>
      match MapShards growslice ShardFor mc now
              (mkWritePointsRequest database retentionPolicy points) ms0 with
      | (inl err, ms1) =>
          ({| started := []; got := []; wpReturned := Some (Some err) |}, ms1)
      | (inr shardMappings, ms1) =>
          let results :=
            shardWriteResult nodeID database retentionPolicy consistencyLevel sels
              shardMappings in
          let '(received, ret) :=
            collectBatch results (size (Points shardMappings)) arrivals [] in
          ({| started := shardWrites shardMappings; got := received; wpReturned := ret |},
           ms1)
      end
  end.

(** [coordinator.IntoWriteRequest], declared outside this package, has the
    fields of [WritePointsRequest] that [WritePointsInto] reads. *)
Definition WritePointsInto (nodeID : N) (now : Z) (p : WritePointsRequest)
    (sels : N -> list SelectCase) (arrivals : list BatchCase) (ms : MS)
    : WritePointsRun * MS :=
  WritePoints nodeID now (Database p) (RetentionPolicy p) ConsistencyLevelOne
    (WPPoints p) sels arrivals ms.

End WritePoints.

(** The database lookup of the running example: every database has the
    default policy rp, except the one named nodb, which does not exist. *)
Definition exampleDatabase (name : string) (ms : unit) : option DatabaseInfo * unit :=
  if String.eqb name "nodb" then (None, ms) else (Some (mkDatabaseInfo "rp"), ms).

Definition exampleErrDatabaseNotFound (name : string) : error :=
  Errorf ("database not found: " +:+ name).

(** Schedules for the shard writes of the example batch: each shard answers
    with a nil result of its single owner. *)
Definition exampleSels (id : N) : list SelectCase :=
  [CaseResult (mkAsyncWriteResult (mkShardOwner id) None)].

(** Schedules in which the write to shard 2 times out. *)
Definition failingSels (id : N) : list SelectCase :=
  if (id =? 2)%N then [CaseTimeout] else exampleSels id.

(** A new writer that was opened once, and the state of the run after it was
    then closed, opened and closed again. *)
Definition reopenedWriter : PointsWriter := mkPointsWriter (Some 1%nat) None.

Definition reopenedRuntime : Runtime :=
  mkRuntime [false; false] [EvMake 0%nat; EvLock; EvMake 1%nat; EvUnlock].

Definition finalWriter : PointsWriter := mkPointsWriter (Some 2%nat) None.

Definition finalRuntime : Runtime :=
  mkRuntime [false; true; true]
    [EvMake 0%nat; EvLock; EvMake 1%nat; EvUnlock;
     EvLock; EvCloseChan 1%nat; EvUnlock;
     EvLock; EvMake 2%nat; EvUnlock;
     EvLock; EvCloseChan 2%nat; EvUnlock].

(** ** [Service.handleConn], [Service.writeShardResponse], [Service.serve] *)

Record WriteShardResponse : Type := mkWriteShardResponse {
  Code : Z;
  Message : string
}.

(** What the connection gives to one turn of the loop of [handleConn]: the
    error of [tlv.ReadType], or the type byte it reads together with what
    [tlv.ReadLV] gives if the handler reads a payload in this turn. *)
Inductive Incoming : Type :=
| ReadTypeError (err : error)
| Frame (typ : Byte.byte) (lv : error + list Byte.byte).

(** What a handler does, in order: a call with its answer, a response built
    by [writeShardResponse] with the result of marshalling it (the frame is
    written when there is one), a connection handed to the handler of
    iterator requests or of field-dimension requests.  Log lines of the
    handler itself are left out. *)
Inductive HEvent : Type :=
| HStore (c : Call) (r : option error)
| HRespond (resp : WriteShardResponse) (frame : error + list Byte.byte)
| HCreateIterator
| HFieldDimensions.

(** The response [writeShardResponse] builds for an error. *)
Definition buildResponse (err : option error) : WriteShardResponse :=
  match err with
  | Some e => {| Code := 1; Message := Error e |}
  | None => {| Code := 0; Message := "" |}
  end.

Definition isRespond (e : HEvent) : bool :=
  match e with
  | HRespond _ _ => true
  | _ => false
  end.

Definition isStore (e : HEvent) : bool :=
  match e with
  | HStore _ _ => true
  | _ => false
  end.

Section Handler.

(** The message types of the package [tlv], declared outside this package. *)
Variable WriteShardRequestMessage : Byte.byte.
Variable ExecuteStatementRequestMessage : Byte.byte.
Variable CreateIteratorRequestMessage : Byte.byte.
Variable FieldDimensionsRequestMessage : Byte.byte.

Variable UnmarshalBinary : list Byte.byte -> error + WriteShardRequest.

(** [rpc.WriteShardResponse.MarshalBinary], declared outside this package. *)
Variable MarshalBinary : WriteShardResponse -> error + list Byte.byte.

Context {W : Type}.
Variable respond : Call -> W -> option error * W.

(** [s.writeShardResponse(conn, err)] *)
Definition writeShardResponse (err : option error) : list HEvent :=
  let resp := buildResponse err in
  [HRespond resp (MarshalBinary resp)].

(** [s.processExecuteStatementRequest(buf)] *)
Definition processExecuteStatementRequest (buf : list Byte.byte) : option error := None.

(** The loop of [s.handleConn(conn)] over what the connection gives; the end
    of the script stands for a read of the type that fails. *)
Fixpoint handleConn (script : list Incoming) (w : W) : list HEvent * W :=
  match script with
  | [] => ([], w)
  | ReadTypeError _ :: _ => ([], w)
  | Frame typ lv :: rest =>
      if Byte.eqb typ WriteShardRequestMessage then
        match lv with
        | inl _ => ([], w)
        | inr buf =>
            let out := run respond (processWriteShardRequest UnmarshalBinary buf) w in
            let err := fst (fst out) in
            let next := handleConn rest (snd (fst out)) in
            (List.map (fun cr => HStore (fst cr) (snd cr)) (snd out)
               ++ writeShardResponse err ++ fst next,
             snd next)
        end
      else if Byte.eqb typ ExecuteStatementRequestMessage then
        match lv with
        | inl _ => ([], w)
        | inr buf =>
            let err := processExecuteStatementRequest buf in
            let next := handleConn rest w in
            (writeShardResponse err ++ fst next, snd next)
        end
      else if Byte.eqb typ CreateIteratorRequestMessage then ([HCreateIterator], w)
      else if Byte.eqb typ FieldDimensionsRequestMessage then ([HFieldDimensions], w)
      else handleConn rest w
  end.

(** A turn after which the handler returns. *)
Definition stops (item : Incoming) : bool :=
  match item with
  | ReadTypeError _ => true
  | Frame typ lv =>
      if Byte.eqb typ WriteShardRequestMessage || Byte.eqb typ ExecuteStatementRequestMessage
      then match lv with inl _ => true | inr _ => false end
      else Byte.eqb typ CreateIteratorRequestMessage
           || Byte.eqb typ FieldDimensionsRequestMessage
  end.

(** A frame of a type the handler does not know. *)
Definition unknownType (typ : Byte.byte) : bool :=
  negb (Byte.eqb typ WriteShardRequestMessage
        || Byte.eqb typ ExecuteStatementRequestMessage
        || Byte.eqb typ CreateIteratorRequestMessage
        || Byte.eqb typ FieldDimensionsRequestMessage).

(** The requests of a script that the handler reads in full: the frames of a
    request type with a payload, before the first turn that stops it; and
    among them the write requests. *)
Fixpoint requestsRead (script : list Incoming) : nat :=
  match script with
  | [] => 0
  | item :: rest =>
      if stops item then 0%nat
      else match item with
           | Frame typ _ =>
               if unknownType typ then requestsRead rest else S (requestsRead rest)
           | ReadTypeError _ => 0%nat
           end
  end.

Fixpoint writeRequestsRead (script : list Incoming) : nat :=
  match script with
  | [] => 0
  | item :: rest =>
      if stops item then 0%nat
      else match item with
           | Frame typ _ =>
               if Byte.eqb typ WriteShardRequestMessage
               then S (writeRequestsRead rest) else writeRequestsRead rest
           | ReadTypeError _ => 0%nat
           end
  end.

End Handler.

(** A connection accepted by the listener. *)
Definition Conn : Type := nat.

(** One turn of the loop of [serve]: whether the shutdown is signalled when
    the loop checks, and what [Accept] gives if it is called. *)
Record AcceptTurn : Type := mkAcceptTurn {
  shutdown : bool;
  accepted : error + Conn
}.

(** [s.serve()]: the connections it starts a handler for, in order. *)
Fixpoint serve (script : list AcceptTurn) : list Conn :=
  match script with
  | [] => []
  | turn :: rest =>
      if shutdown turn then []
      else
        match accepted turn with
        | inl err =>
            if strings.Contains (Error err) "connection closed" then []
            else serve rest
        | inr conn => conn :: serve rest
        end
  end.

(** A turn after which [serve] returns. *)
Definition endsServe (turn : AcceptTurn) : bool :=
  shutdown turn ||
  match accepted turn with
  | inl err => strings.Contains (Error err) "connection closed"
  | inr _ => false
  end.

(** A turn in which [Accept] fails with an error that is only logged. *)
Definition skipped (turn : AcceptTurn) : bool :=
  negb (shutdown turn) &&
  match accepted turn with
  | inl err => negb (strings.Contains (Error err) "connection closed")
  | inr _ => false
  end.

(** What a connection of the running example gives: a write request, a frame
    of an unknown type, a second write request, an iterator request, and a
    write request that is never read.  The message types are numbered from
    1 to 4. *)
Definition exampleScript : list Incoming :=
  [Frame Byte.x01 (inr []); Frame Byte.x09 (inl (Errorf "unused"));
   Frame Byte.x01 (inr []); Frame Byte.x03 (inr []); Frame Byte.x01 (inr [])].

Definition exampleMarshal (resp : WriteShardResponse) : error + list Byte.byte :=
  inr [if Code resp =? 0 then Byte.x00 else Byte.x01].
(** * Properties *)

(** ** The required number of acknowledgements *)

(** C5: with N owners the loop waits for 1 acknowledgement at the levels any
    and one, for the floor of N/2 plus 1 at quorum and for N at all; one owner
    at quorum needs 1, three owners at quorum need 2. *)
Theorem required_by_level :
  (forall owners : list ShardOwner,
      required ConsistencyLevelAny owners = 1 /\
      required ConsistencyLevelOne owners = 1 /\
      required ConsistencyLevelQuorum owners = Z.of_nat (length owners) / 2 + 1 /\
      required ConsistencyLevelAll owners = Z.of_nat (length owners)) /\
  (forall o : ShardOwner, required ConsistencyLevelQuorum [o] = 1) /\
  (forall o1 o2 o3 : ShardOwner, required ConsistencyLevelQuorum [o1; o2; o3] = 2).
Proof.
  split; [| split; intros; reflexivity].
  intros owners. unfold required. repeat split.
  rewrite Z.quot_div_nonneg by lia. reflexivity.
Qed.

Lemma required_pos (c : ConsistencyLevel) (owners : list ShardOwner) :
  owners <> [] -> 1 <= required c owners.
Proof.
  intros Hne. destruct owners as [| o owners]; [congruence |].
  unfold required. destruct c; try lia.
  - rewrite Z.quot_div_nonneg by lia.
    assert (0 <= Z.of_nat (length (o :: owners)) / 2) by (apply Z.div_pos; lia). lia.
  - simpl length. lia.
Qed.

(** ** The collecting loop *)

Lemma successes_cons_nil (rs : list (option error)) :
  successes (None :: rs) = successes rs + 1.
Proof. unfold successes. simpl. lia. Qed.

Lemma successes_cons_err (e : error) (rs : list (option error)) :
  successes (Some e :: rs) = successes rs.
Proof. reflexivity. Qed.

Lemma successes_nonneg (rs : list (option error)) : 0 <= successes rs.
Proof. unfold successes. lia. Qed.

Lemma collect_spec (req : Z) (owners : list ShardOwner) :
  forall (sel : list SelectCase) (wrote : Z) (werr : option error) (rcv : nat),
    wrote < req ->
    let rs := arrived (length owners) sel in
    (snd (collect req owners sel wrote werr rcv) = None <-> req <= wrote + successes rs) /\
    (length rs = length owners ->
     wrote + successes rs < req ->
     snd (collect req owners sel wrote werr rcv)
       = verdict (wrote + successes rs) (orElse werr (firstError rs))).
Proof.
  induction owners as [| o owners IH]; intros sel wrote werr rcv Hlt; simpl.
  - split.
    + unfold successes; simpl. split; [| lia].
      destruct (wrote >? 0); [discriminate |]. destruct werr; discriminate.
    + intros _ _. unfold verdict, successes; simpl. rewrite Z.add_0_r.
      destruct (wrote >? 0); [reflexivity |]. destruct werr; reflexivity.
  - destruct sel as [| [| | r] sel']; simpl.
    + split; [| discriminate]. unfold successes; simpl. split; [discriminate | lia].
    + split; [| discriminate]. unfold successes; simpl. split; [discriminate | lia].
    + split; [| discriminate]. unfold successes; simpl. split; [discriminate | lia].
    + destruct (Err r) as [e |] eqn:He.
      * rewrite successes_cons_err.
        specialize (IH sel' wrote (match werr with None => Some e | Some _ => werr end)
                       (S rcv) Hlt).
        simpl in IH. destruct IH as [IH1 IH2]. split; [exact IH1 |].
        intros Hlen Hs. rewrite IH2 by (auto; lia).
        f_equal. destruct werr; reflexivity.
      * rewrite successes_cons_nil.
        destruct (wrote + 1 >=? req) eqn:Hge.
        -- simpl. pose proof (successes_nonneg (arrived (length owners) sel')).
           split; [split; [lia | reflexivity] | lia].
        -- assert (Hlt' : wrote + 1 < req) by lia.
           specialize (IH sel' (wrote + 1) werr (S rcv) Hlt').
           simpl in IH. destruct IH as [IH1 IH2].
           replace (wrote + (successes (arrived (length owners) sel') + 1))
             with (wrote + 1 + successes (arrived (length owners) sel')) by lia.
           split; [exact IH1 |].
           intros Hlen Hs. rewrite IH2 by (auto; lia). reflexivity.
Qed.

(** C1: on a shard with at least one owner, [writeToShard] returns nil exactly
    when the results with a nil error that arrive before a timeout or a
    shutdown reach the required count; when they do not and every owner has
    answered, it returns the partial-write error if some result was nil, the
    first error wrapped as "write failed: ..." if none was, and the plain
    write-failed error if there was neither a success nor an error. *)
Theorem writeToShard_outcome (nodeID : N) (shard : ShardInfo)
    (database retentionPolicy : string) (consistency : ConsistencyLevel)
    (points : list Point) (sel : list SelectCase) :
  Owners shard <> [] ->
  let rs := arrived (length (Owners shard)) sel in
  let ret := returned (writeToShard nodeID shard database retentionPolicy
                         consistency points sel) in
  (ret = None <-> required consistency (Owners shard) <= successes rs) /\
  (successes rs < required consistency (Owners shard) ->
   length rs = length (Owners shard) ->
   (0 < successes rs -> ret = Some ErrPartialWrite) /\
   (successes rs = 0 ->
    forall e, firstError rs = Some e ->
              ret = Some (Errorf ("write failed: " +:+ Error e))) /\
   (successes rs = 0 -> firstError rs = None -> ret = Some ErrWriteFailed)).
Proof.
  intros Hne rs ret.
  pose proof (required_pos consistency (Owners shard) Hne) as Hreq.
  assert (Hlt : 0 < required consistency (Owners shard)) by lia.
  pose proof (collect_spec (required consistency (Owners shard)) (Owners shard)
                sel 0 None 0 Hlt) as [Hiff Hall].
  assert (Hret : ret = snd (collect (required consistency (Owners shard))
                              (Owners shard) sel 0 None 0)).
  { subst ret. unfold writeToShard.
    destruct (collect _ _ _ _ _ _) as [k e]. reflexivity. }
  rewrite Hret. fold rs in Hiff, Hall. rewrite Z.add_0_l in Hiff, Hall.
  split; [exact Hiff |].
  intros Hs Hlen. rewrite (Hall Hlen Hs). unfold verdict, orElse.
  repeat split.
  - intros Hpos. destruct (successes rs >? 0) eqn:E; [reflexivity | lia].
  - intros H0 e He. rewrite H0, He. reflexivity.
  - intros H0 He. rewrite H0, He. reflexivity.
Qed.

(** The statement at the example shard: three owners at quorum, one nil
    result and two errors. *)
Lemma writeToShard_outcome_witness :
  Owners exampleShard <> [] /\
  returned (writeToShard 1 exampleShard "db" "rp" ConsistencyLevelQuorum
              examplePoints exampleSel) = Some ErrPartialWrite.
Proof.
  split; [discriminate |].
  apply (writeToShard_outcome 1 exampleShard "db" "rp" ConsistencyLevelQuorum
           examplePoints exampleSel); [discriminate | | | ]; vm_compute; reflexivity.
Defined.

(** C10: on a shard without owners [writeToShard] starts no goroutine,
    receives no result and returns the write-failed error at every level,
    also at the level all, where the required count is 0. *)
Theorem writeToShard_no_owners (nodeID shardID : N) (database retentionPolicy : string)
    (consistency : ConsistencyLevel) (points : list Point) (sel : list SelectCase) :
  let r := writeToShard nodeID (mkShardInfo shardID []) database retentionPolicy
             consistency points sel in
  goroutines r = [] /\
  received r = 0%nat /\
  returned r = Some ErrWriteFailed /\
  required ConsistencyLevelAll (Owners (mkShardInfo shardID [])) = 0.
Proof. repeat split. Qed.

(** ** The goroutines of an owner *)

Section Goroutines.

Context {W : Type}.
Variable respond : Call -> W -> option error * W.

Ltac step_run :=
  simpl in *;
  repeat (match goal with
          | |- context [respond ?c ?w] =>
              let r := fresh "r" in let w' := fresh "w" in let E := fresh "E" in
              destruct (respond c w) as [r w'] eqn:E
          | |- context [match ?x with Some _ => _ | None => _ end] =>
              is_var x; destruct x
          | |- context [is_nil ?x] => is_var x; destruct x
          | |- context [if isRetryable ?e then _ else _] =>
              let E := fresh "Eretry" in destruct (isRetryable e) eqn:E
          | |- context [ConsistencyLevel_eqb ?c _] => is_var c; destruct c
          end; simpl in *).

Lemma localAttempt_no_handoff (nodeID shardID : N) (owner : ShardOwner)
    (points : list Point) (w : W) :
  forall c r, In (c, r) (snd (run respond (localAttempt nodeID shardID owner points) w)) ->
              isHintedHandoff c = false.
Proof.
  unfold localAttempt. intros c r.
  destruct (nodeID =? NodeID owner)%N; step_run; intros Hin;
    repeat match goal with
           | H : _ \/ _ |- _ => destruct H
           | H : False |- _ => destruct H
           | H : (_, _) = (_, _) |- _ => inversion H; subst; clear H
           end; reflexivity.
Qed.

Lemma remoteAttempt_handoff (nodeID : N) (consistency : ConsistencyLevel)
    (shardID : N) (owner : ShardOwner) (points : list Point) (w : W) :
  let tr := snd (run respond (remoteAttempt nodeID consistency shardID owner points) w) in
  (forall c r, In (c, r) tr -> isHintedHandoff c = true ->
     exists err,
       In (ShardWriter_WriteShard shardID (NodeID owner) points, Some err) tr /\
       isRetryable (Some err) = true) /\
  (forall sid oid pts err,
     In (ShardWriter_WriteShard sid oid pts, Some err) tr ->
     isRetryable (Some err) = false ->
     forall c r, In (c, r) tr -> isHintedHandoff c = false).
Proof.
  unfold remoteAttempt.
  destruct (nodeID =? NodeID owner)%N; step_run;
    (split; [intros c0 r0 Hin Hh | intros sid oid pts err Hsw Hnr c0 r0 Hin]);
    simpl in *.
  all: repeat match goal with
              | H : _ \/ _ |- _ => destruct H
              | H : False |- _ => destruct H
              | H : (_, _) = (_, _) |- _ => inversion H; subst; clear H
              end;
       simpl in *; try discriminate; try congruence; try reflexivity.
  all: eexists; split; [left; reflexivity | assumption].
Qed.

End Goroutines.

(** C2: for an owner that is not the local node, when the shard writer fails
    with a retryable error and the hinted handoff accepts the write, the
    result sent for the owner has a nil error exactly at the level any, and
    carries the error of the shard writer at the other levels; when the
    handoff fails, the result carries the error of the handoff. *)
Theorem remoteAttempt_handoff_result {W : Type} (respond : Call -> W -> option error * W)
    (w w1 w2 : W) (nodeID : N) (consistency : ConsistencyLevel) (shardID : N)
    (owner : ShardOwner) (points : list Point) (err : error) (hh : option error) :
  nodeID <> NodeID owner ->
  respond (ShardWriter_WriteShard shardID (NodeID owner) points) w = (Some err, w1) ->
  isRetryable (Some err) = true ->
  respond (HintedHandoff_WriteShard shardID (NodeID owner) points) w1 = (hh, w2) ->
  exists r : AsyncWriteResult,
    fst (fst (run respond (remoteAttempt nodeID consistency shardID owner points) w))
      = Some r /\
    Owner r = owner /\
    (hh = None -> (Err r = None <-> consistency = ConsistencyLevelAny)) /\
    (hh = None -> consistency <> ConsistencyLevelAny -> Err r = Some err) /\
    (forall hherr, hh = Some hherr -> Err r = Some hherr).
Proof.
  intros Hne Hsw Hretry Hhh. unfold remoteAttempt.
  apply N.eqb_neq in Hne. rewrite Hne. simpl.
  rewrite Hsw. simpl. rewrite Hretry. simpl. rewrite Hhh. simpl.
  destruct hh as [hherr |]; simpl.
  - eexists. split; [reflexivity |]. simpl.
    repeat split; try discriminate. intros e He. exact He.
  - destruct consistency; simpl; eexists; (split; [reflexivity |]); simpl;
      repeat split; try discriminate; try congruence.
Qed.

(** The statement at the example collaborators, at the level any. *)
Lemma remoteAttempt_handoff_result_witness :
  exists r : AsyncWriteResult,
    fst (fst (run exampleRespond
                (remoteAttempt 1 ConsistencyLevelAny 7 (mkShardOwner 2) examplePoints)
                0%nat)) = Some r /\
    Owner r = mkShardOwner 2 /\
    (@None error = None -> (Err r = None <-> ConsistencyLevelAny = ConsistencyLevelAny)) /\
    (@None error = None -> ConsistencyLevelAny <> ConsistencyLevelAny ->
     Err r = Some (Errorf "connection refused")) /\
    (forall hherr, None = Some hherr -> Err r = Some hherr).
Proof.
  apply (remoteAttempt_handoff_result exampleRespond 0%nat 1%nat 2%nat 1
           ConsistencyLevelAny 7 (mkShardOwner 2) examplePoints
           (Errorf "connection refused") None);
    [discriminate | reflexivity | reflexivity | reflexivity].
Defined.

(** ** [strings.Contains] and [isRetryable] *)

Lemma HasPrefix_iff (s p : string) :
  strings.HasPrefix s p = true <-> exists post, s = p +:+ post.
Proof.
  revert s. induction p as [| c p IH]; intros s; simpl.
  - split; [intros _; exists s; reflexivity | reflexivity].
  - destruct s as [| d s]; simpl.
    + split; [discriminate | intros [post H]; discriminate].
    + rewrite andb_true_iff, Ascii.eqb_eq, IH. split.
      * intros [-> [post ->]]. exists post. reflexivity.
      * intros [post H]. injection H as -> ->. split; [reflexivity | eauto].
Qed.

Lemma Contains_iff (s sub : string) :
  strings.Contains s sub = true <-> substring_of sub s.
Proof.
  unfold substring_of. induction s as [| a s IH].
  - cbn [strings.Contains]. rewrite orb_false_r, HasPrefix_iff. split.
    + intros [post H]. exists "", post. exact H.
    + intros [pre [post H]]. destruct pre; [| discriminate].
      exists post. exact H.
  - cbn [strings.Contains]. rewrite orb_true_iff, HasPrefix_iff, IH. split.
    + intros [[post H] | [pre [post H]]].
      * exists "", post. exact H.
      * exists (String a pre), post. simpl. rewrite H. reflexivity.
    + intros [pre [post H]]. destruct pre as [| c pre].
      * left. exists post. exact H.
      * right. simpl in H. injection H as -> ->. eauto.
Qed.

Lemma isRetryable_false_iff (e : error) :
  isRetryable (Some e) = false <-> substring_of "field type conflict" (Error e).
Proof.
  unfold isRetryable. rewrite <- Contains_iff.
  destruct (strings.Contains (Error e) "field type conflict"); split; congruence.
Qed.

(** C6: [isRetryable] is true of nil, false of every error whose text has
    "field type conflict" as a substring and true of every other error; a
    goroutine of [writeToShard] calls the hinted handoff only after the shard
    writer answered an error that [isRetryable] accepts, so never after an
    error whose text has "field type conflict". *)
Theorem handoff_only_when_retryable :
  isRetryable None = true /\
  (forall e, substring_of "field type conflict" (Error e) -> isRetryable (Some e) = false) /\
  (forall e, ~ substring_of "field type conflict" (Error e) -> isRetryable (Some e) = true) /\
  (forall (W : Type) (respond : Call -> W -> option error * W) (w : W)
          (nodeID : N) (shard : ShardInfo) (database retentionPolicy : string)
          (consistency : ConsistencyLevel) (points : list Point)
          (sel : list SelectCase) (g : Prog (option AsyncWriteResult)),
      In g (goroutines (writeToShard nodeID shard database retentionPolicy
                          consistency points sel)) ->
      let tr := snd (run respond g w) in
      (forall c r, In (c, r) tr -> isHintedHandoff c = true ->
         exists sid oid pts err,
           In (ShardWriter_WriteShard sid oid pts, Some err) tr /\
           isRetryable (Some err) = true) /\
      (forall sid oid pts err,
         In (ShardWriter_WriteShard sid oid pts, Some err) tr ->
         substring_of "field type conflict" (Error err) ->
         forall c r, In (c, r) tr -> isHintedHandoff c = false)).
Proof.
  split; [reflexivity |]. split; [intros e; apply isRetryable_false_iff |].
  split.
  { intros e Hn. destruct (isRetryable (Some e)) eqn:E; [reflexivity |].
    apply isRetryable_false_iff in E. contradiction. }
  intros W respond w nodeID shard database retentionPolicy consistency points sel g Hg.
  assert (Hcase : exists owner,
             g = localAttempt nodeID (ShardID shard) owner points \/
             g = remoteAttempt nodeID consistency (ShardID shard) owner points).
  { unfold writeToShard in Hg. destruct (collect _ _ _ _ _ _) as [k e]. simpl in Hg.
    apply in_flat_map in Hg. destruct Hg as [owner [_ Hin]]. exists owner.
    simpl in Hin. destruct Hin as [<- | [<- | []]]; [left | right]; reflexivity. }
  destruct Hcase as [owner [-> | ->]]; cbv zeta.
  - split.
    + intros c r Hin Hh.
      pose proof (localAttempt_no_handoff respond _ _ _ _ _ c r Hin) as Hno.
      congruence.
    + intros sid oid pts err _ _ c r Hin.
      exact (localAttempt_no_handoff respond _ _ _ _ _ c r Hin).
  - pose proof (remoteAttempt_handoff respond nodeID consistency (ShardID shard)
                  owner points w) as [H1 H2].
    split.
    + intros c r Hin Hh. destruct (H1 c r Hin Hh) as [err [Ha Hb]].
      exists (ShardID shard), (NodeID owner), points, err. split; assumption.
    + intros sid oid pts err Hsw Hsub c r Hin.
      refine (H2 sid oid pts err Hsw _ c r Hin).
      apply isRetryable_false_iff. exact Hsub.
Qed.

(** ** The peer write *)

(** C8, as the code has it: when the first write answers that the shard is
    not found and the request names a database and a retention policy, the
    shard is created once; if the creation fails its error is returned as
    "create shard id: ..." and the write is not tried again; if it succeeds
    the write is tried again once and the answer of that try, wrapped as
    "write shard id: ..." when it is an error, is returned.  When the database
    or the retention policy is empty the store is not called again and nil is
    returned. *)
Theorem processWriteShardRequest_shard_not_found {W : Type}
    (respond : Call -> W -> option error * W)
    (UnmarshalBinary : list Byte.byte -> error + WriteShardRequest)
    (buf : list Byte.byte) (req : WriteShardRequest) (w : W) :
  UnmarshalBinary buf = inr req ->
  fst (respond (TSDBStore_WriteToShard (ReqShardID req) (ReqPoints req)) w)
    = Some ErrShardNotFound ->
  let id := ReqShardID req in
  let write := TSDBStore_WriteToShard id (ReqPoints req) in
  let create := TSDBStore_CreateShard (ReqDatabase req) (ReqRetentionPolicy req) id true in
  let w1 := snd (respond write w) in
  let created := fst (respond create w1) in
  let w2 := snd (respond create w1) in
  let retried := fst (respond write w2) in
  let out := run respond (processWriteShardRequest UnmarshalBinary buf) w in
  (ReqDatabase req = "" \/ ReqRetentionPolicy req = "" ->
   fst (fst out) = None /\ calls (snd out) = [write]) /\
  (ReqDatabase req <> "" -> ReqRetentionPolicy req <> "" ->
   (forall e, created = Some e ->
      fst (fst out) = Some (errCreateShard id e) /\ calls (snd out) = [write; create]) /\
   (created = None ->
      fst (fst out) = finishWrite id retried /\
      calls (snd out) = [write; create; write])).
Proof.
  intros Hun Hfirst. cbv zeta.
  unfold processWriteShardRequest. rewrite Hun.
  cbn [run fst snd]. rewrite Hfirst. cbn [is_ErrShardNotFound].
  split.
  - intros Hempty.
    assert (E : String.eqb (ReqDatabase req) "" || String.eqb (ReqRetentionPolicy req) ""
                = true).
    { apply orb_true_iff. destruct Hempty as [Hd | Hr];
        [left | right]; apply String.eqb_eq; assumption. }
    rewrite E. split; reflexivity.
  - intros Hdb Hrp.
    apply String.eqb_neq in Hdb, Hrp. rewrite Hdb, Hrp. cbn [orb run fst snd].
    split.
    + intros e He. rewrite He. split; reflexivity.
    + intros Hc. rewrite Hc. cbn [run fst snd].
      destruct (fst (respond (TSDBStore_WriteToShard _ _)
                       (snd (respond (TSDBStore_CreateShard _ _ _ _) _)))) as [e |];
        split; reflexivity.
Qed.

(** The statement at the store that creates the shard on request. *)
Lemma processWriteShardRequest_shard_not_found_witness :
  fst (fst (run lazyStore (processWriteShardRequest exampleUnmarshal []) false)) = None /\
  calls (snd (run lazyStore (processWriteShardRequest exampleUnmarshal []) false))
    = [TSDBStore_WriteToShard 42 examplePoints;
       TSDBStore_CreateShard "x" "y" 42 true;
       TSDBStore_WriteToShard 42 examplePoints].
Proof.
  apply (processWriteShardRequest_shard_not_found lazyStore exampleUnmarshal []
           exampleRequest false);
    [reflexivity | reflexivity | discriminate | discriminate | reflexivity].
Defined.

(** C8 fails as stated: with a store that cannot create the shard, the
    creation is not followed by a second write. *)
Lemma processWriteShardRequest_no_retry_after_failed_create :
  let out := run failingStore (processWriteShardRequest exampleUnmarshal []) 0%nat in
  fst (failingStore (TSDBStore_WriteToShard 42 examplePoints) 0%nat)
    = Some ErrShardNotFound /\
  ReqDatabase exampleRequest <> "" /\
  ReqRetentionPolicy exampleRequest <> "" /\
  calls (snd out)
    = [TSDBStore_WriteToShard 42 examplePoints; TSDBStore_CreateShard "x" "y" 42 true] /\
  length (List.filter isWriteToShard (calls (snd out))) = 1%nat /\
  fst (fst out) = Some (Errorf "create shard 42: disk full").
Proof. repeat split; discriminate. Qed.

(** ** [Open] and [Close] *)

Lemma closesOf_app (a b : list Event) : closesOf (a ++ b) = closesOf a ++ closesOf b.
Proof. unfold closesOf. apply flat_map_app. Qed.

Lemma guarded_app (a b : list Event) :
  forall locked,
    guarded locked (a ++ b) = guarded locked a && guarded (lockedAfter locked a) b.
Proof.
  induction a as [| e a IH]; intros locked; simpl; [reflexivity |].
  destruct e; rewrite ?IH; try reflexivity.
  destruct locked; reflexivity.
Qed.

Lemma lockedAfter_app (a b : list Event) :
  forall locked, lockedAfter locked (a ++ b) = lockedAfter (lockedAfter locked a) b.
Proof.
  induction a as [| e a IH]; intros locked; simpl; [reflexivity |].
  destruct e; apply IH.
Qed.

Lemma NewPointsWriter_inv :
  lifecycle_inv false (fst (NewPointsWriter empty_runtime))
    (snd (NewPointsWriter empty_runtime)).
Proof.
  unfold lifecycle_inv. simpl. repeat split.
  - exists 0%nat. split; reflexivity.
  - intros c [].
  - constructor.
Qed.

Lemma PointsWriter_Open_inv (b : bool) (w : PointsWriter) (rt : Runtime) :
  lifecycle_inv b w rt ->
  exists w' rt',
    PointsWriter_Open w rt = Returned (w', None) rt' /\
    lifecycle_inv false w' rt' /\
    closesOf (events rt') = closesOf (events rt).
Proof.
  intros (Hc & Hclosed & Hnd & Hg & Hl).
  unfold PointsWriter_Open, make_chan, emit. simpl.
  eexists _, _. split; [reflexivity |].
  assert (Hcl : closesOf (((events rt ++ [EvLock]) ++ [EvMake (length (chans rt))])
                            ++ [EvUnlock]) = closesOf (events rt)).
  { rewrite !closesOf_app. simpl. rewrite !app_nil_r. reflexivity. }
  split; [| exact Hcl].
  unfold lifecycle_inv. simpl. rewrite Hcl. repeat split.
  - exists (length (chans rt)). split; [reflexivity |].
    rewrite lookup_app_r by lia. rewrite Nat.sub_diag. reflexivity.
  - intros c Hin. apply lookup_app_l_Some. apply Hclosed. exact Hin.
  - exact Hnd.
  - rewrite !guarded_app, !lockedAfter_app, Hg, Hl. reflexivity.
  - rewrite !lockedAfter_app. reflexivity.
Qed.

Lemma PointsWriter_Close_inv (w : PointsWriter) (rt : Runtime) :
  lifecycle_inv false w rt ->
  exists rt',
    PointsWriter_Close w rt = Returned (w, None) rt' /\
    lifecycle_inv true w rt' /\
    length (closesOf (events rt')) = S (length (closesOf (events rt))).
Proof.
  intros ((c & Hc & Hopen) & Hclosed & Hnd & Hg & Hl).
  unfold PointsWriter_Close, close_chan, emit. rewrite Hc. simpl. rewrite Hopen.
  eexists. split; [reflexivity |].
  assert (Hcl : closesOf (((events rt ++ [EvLock]) ++ [EvCloseChan c]) ++ [EvUnlock])
                = closesOf (events rt) ++ [c]).
  { rewrite !closesOf_app. simpl. rewrite !app_nil_r. reflexivity. }
  assert (Hfresh : ~ In c (closesOf (events rt))).
  { intros Hin. apply Hclosed in Hin. congruence. }
  split.
  - unfold lifecycle_inv. simpl. rewrite Hcl. repeat split.
    + exists c. split; [exact Hc |].
      apply list_lookup_insert_eq. eapply lookup_lt_Some. exact Hopen.
    + intros c0 Hin. apply in_app_iff in Hin. destruct Hin as [Hin | [<- | []]].
      * rewrite list_lookup_insert_ne by (intros ->; contradiction).
        apply Hclosed. exact Hin.
      * apply list_lookup_insert_eq. eapply lookup_lt_Some. exact Hopen.
    + apply (Permutation_NoDup (l := c :: closesOf (events rt))).
      * apply Permutation_cons_append.
      * constructor; assumption.
    + rewrite !guarded_app, !lockedAfter_app, Hg, Hl. reflexivity.
    + rewrite !lockedAfter_app. reflexivity.
  - simpl. rewrite Hcl, length_app. simpl. lia.
Qed.

(** A [Close] that follows a [Close] panics. *)
Lemma PointsWriter_Close_again (w : PointsWriter) (rt : Runtime) :
  lifecycle_inv true w rt ->
  exists rt', PointsWriter_Close w rt = Panic "close of closed channel" rt'.
Proof.
  intros ((c & Hc & Hclosed) & _).
  unfold PointsWriter_Close, close_chan, emit. rewrite Hc. simpl. rewrite Hclosed.
  eexists. reflexivity.
Qed.

Lemma runOps_alternating (ops : list Op) :
  forall (b : bool) (w : PointsWriter) (rt : Runtime),
    alternating b ops = true ->
    lifecycle_inv b w rt ->
    exists w' rt',
      runOps ops w rt = Returned w' rt' /\
      List.NoDup (closesOf (events rt')) /\
      length (closesOf (events rt')) = (length (closesOf (events rt)) + countCloses ops)%nat /\
      guarded false (events rt') = true.
Proof.
  induction ops as [| op ops IH]; intros b w rt Halt Hinv.
  - exists w, rt. destruct Hinv as (_ & _ & Hnd & Hg & _).
    unfold countCloses. simpl. repeat split; auto.
  - destruct op; simpl in Halt.
    + destruct (PointsWriter_Open_inv b w rt Hinv) as (w1 & rt1 & Hrun & Hinv1 & Hcl).
      destruct (IH false w1 rt1 Halt Hinv1) as (w2 & rt2 & Hrun2 & Hnd & Hlen & Hg).
      exists w2, rt2. cbn [runOps]. rewrite Hrun. repeat split; auto.
      rewrite Hlen, Hcl. unfold countCloses. simpl. reflexivity.
    + apply andb_true_iff in Halt. destruct Halt as [Hb Halt].
      destruct b; [discriminate |].
      destruct (PointsWriter_Close_inv w rt Hinv) as (rt1 & Hrun & Hinv1 & Hcl).
      destruct (IH true w rt1 Halt Hinv1) as (w2 & rt2 & Hrun2 & Hnd & Hlen & Hg).
      exists w2, rt2. cbn [runOps]. rewrite Hrun. repeat split; auto.
      rewrite Hlen, Hcl. unfold countCloses. simpl. lia.
Qed.

Lemma lastMade_app (a b : list Event) :
  forall cur, lastMade cur (a ++ b) = lastMade (lastMade cur a) b.
Proof.
  induction a as [| e a IH]; intros cur; simpl; [reflexivity |].
  destruct e; apply IH.
Qed.

Lemma alternating_app (a b : list Op) :
  forall afterClose,
    alternating afterClose (a ++ b)
    = alternating afterClose a && alternating (afterOps afterClose a) b.
Proof.
  induction a as [| op a IH]; intros afterClose; simpl; [reflexivity |].
  destruct op; rewrite IH; [reflexivity |]. rewrite andb_assoc. reflexivity.
Qed.

Lemma runOps_app (a b : list Op) :
  forall (w : PointsWriter) (rt : Runtime),
    runOps (a ++ b) w rt
    = match runOps a w rt with
      | Returned w' rt' => runOps b w' rt'
      | Panic msg rt' => Panic msg rt'
      end.
Proof.
  induction a as [| op a IH]; intros w rt; [reflexivity |].
  cbn [app runOps].
  destruct (match op with
            | OpOpen => PointsWriter_Open w rt
            | OpClose => PointsWriter_Close w rt
            end) as [[w' e] rt' | msg rt']; [apply IH | reflexivity].
Qed.

(** What [Open] returns. *)
Lemma PointsWriter_Open_eq (w : PointsWriter) (rt : Runtime) :
  PointsWriter_Open w rt
  = Returned ({| closing := Some (length (chans rt)); PWNode := PWNode w |}, None)
      {| chans := chans rt ++ [false];
         events := events rt ++ [EvLock; EvMake (length (chans rt)); EvUnlock] |}.
Proof.
  unfold PointsWriter_Open, make_chan, emit. simpl. rewrite <- !app_assoc. reflexivity.
Qed.

(** A [Close] on a writer whose channel is open closes that channel, under
    the lock, and nothing else. *)
Lemma PointsWriter_Close_current (w : PointsWriter) (rt : Runtime) (c : chan) :
  closing w = Some c ->
  chans rt !! c = Some false ->
  PointsWriter_Close w rt
  = Returned (w, None)
      {| chans := <[c := true]> (chans rt);
         events := events rt ++ [EvLock; EvCloseChan c; EvUnlock] |}.
Proof.
  intros Hc Hopen. unfold PointsWriter_Close, close_chan, emit. rewrite Hc. simpl.
  rewrite Hopen. simpl. rewrite <- !app_assoc. reflexivity.
Qed.

(** Between the calls of a sequence in which no [Close] follows a [Close],
    the channel of the writer is the one made last, and it is closed exactly
    when the last call was a [Close]. *)
Lemma runOps_inv (ops : list Op) :
  forall (b : bool) (w : PointsWriter) (rt : Runtime),
    alternating b ops = true ->
    lifecycle_inv b w rt ->
    lastMade None (events rt) = closing w ->
    exists w' rt',
      runOps ops w rt = Returned w' rt' /\
      lifecycle_inv (afterOps b ops) w' rt' /\
      lastMade None (events rt') = closing w'.
Proof.
  induction ops as [| op ops IH]; intros b w rt Halt Hinv Hlast.
  - exists w, rt. split; [reflexivity | split; assumption].
  - destruct op; simpl in Halt.
    + destruct (PointsWriter_Open_inv b w rt Hinv) as (w1 & rt1 & Hrun & Hinv1 & _).
      assert (Hlast1 : lastMade None (events rt1) = closing w1).
      { rewrite PointsWriter_Open_eq in Hrun. injection Hrun as <- <-. simpl.
        rewrite lastMade_app. reflexivity. }
      destruct (IH false w1 rt1 Halt Hinv1 Hlast1) as (w2 & rt2 & Hrun2 & Hinv2 & Hlast2).
      exists w2, rt2. cbn [runOps afterOps]. rewrite Hrun.
      split; [exact Hrun2 | split; assumption].
    + apply andb_true_iff in Halt. destruct Halt as [Hb Halt].
      destruct b; [discriminate |].
      destruct (PointsWriter_Close_inv w rt Hinv) as (rt1 & Hrun & Hinv1 & _).
      assert (Hlast1 : lastMade None (events rt1) = closing w).
      { destruct Hinv as ((c & Hc & Hopen) & _).
        rewrite (PointsWriter_Close_current w rt c Hc Hopen) in Hrun.
        injection Hrun as <-. simpl. rewrite lastMade_app. exact Hlast. }
      destruct (IH true w rt1 Halt Hinv1 Hlast1) as (w2 & rt2 & Hrun2 & Hinv2 & Hlast2).
      exists w2, rt2. cbn [runOps afterOps]. rewrite Hrun.
      split; [exact Hrun2 | split; assumption].
Qed.

(** C9, as the code has it: in a sequence of [Open] and [Close] calls on a new
    writer in which no [Close] follows a [Close] without an [Open] in between,
    no call panics, every [Close] closes one channel, no channel is closed
    twice, and every [close] happens while the lock is held; and each [Close]
    of the sequence finds in the field [closing] the channel made last (by
    the latest [Open], or by [NewPointsWriter]), finds it open, and closes
    that channel and no other, between taking and releasing the lock.  The
    first [Close] of a new service closes the channel of its field
    [closing], without holding a lock. *)
Theorem PointsWriter_Close_once (ops : list Op) :
  alternating false ops = true ->
  (exists w rt,
     runOps ops (fst (NewPointsWriter empty_runtime)) (snd (NewPointsWriter empty_runtime))
       = Returned w rt /\
     List.NoDup (closesOf (events rt)) /\
     length (closesOf (events rt)) = countCloses ops /\
     guarded false (events rt) = true) /\
  (forall pre post, ops = pre ++ OpClose :: post ->
     exists w1 rt1 c,
       runOps pre (fst (NewPointsWriter empty_runtime)) (snd (NewPointsWriter empty_runtime))
         = Returned w1 rt1 /\
       closing w1 = Some c /\
       lastMade None (events rt1) = Some c /\
       chans rt1 !! c = Some false /\
       PointsWriter_Close w1 rt1
       = Returned (w1, None)
           {| chans := <[c := true]> (chans rt1);
              events := events rt1 ++ [EvLock; EvCloseChan c; EvUnlock] |}) /\
  (exists s rt,
     sclosing (fst (NewService empty_runtime)) = Some 0%nat /\
     Service_Close (fst (NewService empty_runtime)) (snd (NewService empty_runtime))
       = Returned (s, None) rt /\
     closesOf (events rt) = [0%nat] /\
     guarded false (events rt) = false).
Proof.
  intros Halt. split; [| split].
  - destruct (runOps_alternating ops false _ _ Halt NewPointsWriter_inv)
      as (w & rt & Hrun & Hnd & Hlen & Hg).
    exists w, rt. repeat split; auto.
  - intros pre post ->. rewrite alternating_app in Halt.
    apply andb_true_iff in Halt. destruct Halt as [Hpre Hrest].
    simpl in Hrest. apply andb_true_iff in Hrest. destruct Hrest as [Hopen _].
    apply negb_true_iff in Hopen.
    destruct (runOps_inv pre false _ _ Hpre NewPointsWriter_inv eq_refl)
      as (w1 & rt1 & Hrun & Hinv & Hlast).
    rewrite Hopen in Hinv. destruct Hinv as ((c & Hc & Hc_open) & _).
    exists w1, rt1, c. split; [exact Hrun |]. split; [exact Hc |].
    split; [rewrite Hlast; exact Hc |]. split; [exact Hc_open |].
    apply PointsWriter_Close_current; assumption.
  - eexists _, _. repeat split.
Qed.

(** The statement at the sequence Close, Open, Close. *)
Lemma PointsWriter_Close_once_witness :
  (exists w rt,
     runOps [OpClose; OpOpen; OpClose]
       (fst (NewPointsWriter empty_runtime)) (snd (NewPointsWriter empty_runtime))
       = Returned w rt /\
     List.NoDup (closesOf (events rt)) /\
     length (closesOf (events rt)) = countCloses [OpClose; OpOpen; OpClose] /\
     guarded false (events rt) = true) /\
  (forall pre post, [OpClose; OpOpen; OpClose] = pre ++ OpClose :: post ->
     exists w1 rt1 c,
       runOps pre (fst (NewPointsWriter empty_runtime)) (snd (NewPointsWriter empty_runtime))
         = Returned w1 rt1 /\
       closing w1 = Some c /\
       lastMade None (events rt1) = Some c /\
       chans rt1 !! c = Some false /\
       PointsWriter_Close w1 rt1
       = Returned (w1, None)
           {| chans := <[c := true]> (chans rt1);
              events := events rt1 ++ [EvLock; EvCloseChan c; EvUnlock] |}) /\
  (exists s rt,
     sclosing (fst (NewService empty_runtime)) = Some 0%nat /\
     Service_Close (fst (NewService empty_runtime)) (snd (NewService empty_runtime))
       = Returned (s, None) rt /\
     closesOf (events rt) = [0%nat] /\
     guarded false (events rt) = false).
Proof.
  apply (PointsWriter_Close_once [OpClose; OpOpen; OpClose]). reflexivity.
Defined.

(** C9 fails as stated: the second of two [Close] calls on a new writer closes
    the channel that the first has closed, and panics; so does the second
    [Close] of a new service, which takes no lock. *)
Lemma Close_twice_panics :
  runOps [OpClose; OpClose]
    (fst (NewPointsWriter empty_runtime)) (snd (NewPointsWriter empty_runtime))
    = Panic "close of closed channel"
        {| chans := [true];
           events := [EvMake 0%nat; EvLock; EvCloseChan 0%nat; EvUnlock; EvLock; EvUnlock] |} /\
  runCloses 2 (fst (NewService empty_runtime)) (snd (NewService empty_runtime))
    = Panic "close of closed channel"
        {| chans := [true]; events := [EvMake 0%nat; EvCloseChan 0%nat; EvWait] |}.
Proof. split; reflexivity. Qed.

(** ** [sort.Search] and the shard-group list *)

(** On a predicate that is monotone below [n], the loop of [sort.Search]
    returns the least index at which it holds, or the upper bound. *)
Lemma Search_from_spec (f : nat -> bool) (n : nat)
    (Hmono : forall x y : nat, (x <= y)%nat -> (y < n)%nat -> f x = true -> f y = true) :
  forall i j : nat,
    (i <= j <= n)%nat ->
    (forall x, (x < i)%nat -> f x = false) ->
    ((j < n)%nat -> f j = true) ->
    (i <= Search_from f i j <= j)%nat /\
    (forall x, (x < Search_from f i j)%nat -> f x = false) /\
    ((Search_from f i j < n)%nat -> f (Search_from f i j) = true).
Proof.
  intros i j. funelim (Search_from f i j); intros Hij Hlow Hhigh.
  all: try (assert (Hh : (i <= (i + j) / 2 < j)%nat)
              by (pose proof (Nat.div_mod_eq (i + j) 2);
                  pose proof (Nat.mod_upper_bound (i + j) 2); lia)).
  - assert (i = j) by lia. subst j. repeat split; try lia; assumption.
  - match goal with
    | IH : forall n : nat, _ |- _ =>
        destruct (IH _ Hmono) as (Ha & Hb & Hc);
        [lia | exact Hlow | intros _; assumption |]
    end.
    repeat split; try lia; assumption.
  - match goal with
    | IH : forall n : nat, _ |- _ =>
        destruct (IH _ Hmono) as (Ha & Hb & Hc); [lia | | exact Hhigh |]
    end.
    + intros x Hx. destruct (f x) eqn:Efx; [| reflexivity].
      match goal with
      | Hf : f _ = false |- _ => rewrite <- Hf
      end.
      symmetry. apply (Hmono x); [lia | lia | exact Efx].
    + repeat split; try lia; assumption.
Qed.

Lemma sgLe_EndTime (a b : ShardGroupInfo) : sgLe a b -> EndTime a <= EndTime b.
Proof. unfold sgLe. lia. Qed.

Lemma sgLe_trans (a b c : ShardGroupInfo) : sgLe a b -> sgLe b c -> sgLe a c.
Proof. unfold sgLe. lia. Qed.

Lemma Less_true (a b : ShardGroupInfo) : Less a b = true -> sgLe a b.
Proof.
  unfold Less, sgLe. destruct (EndTime a =? EndTime b) eqn:E; lia.
Qed.

Lemma Less_false (a b : ShardGroupInfo) : Less a b = false -> sgLe b a.
Proof.
  unfold Less, sgLe. destruct (EndTime a =? EndTime b) eqn:E; lia.
Qed.

Lemma sorted_lookup (l : sgList) :
  sorted l ->
  forall (i j : nat) (a b : ShardGroupInfo),
    (i < j)%nat -> l !! i = Some a -> l !! j = Some b -> sgLe a b.
Proof.
  induction 1 as [| h r Hs IH Hall]; intros i j a b Hij Ha Hb.
  - discriminate.
  - destruct j as [| j]; [lia |]. simpl in Hb.
    destruct i as [| i]; simpl in Ha.
    + injection Ha as <-. rewrite Forall_forall in Hall. apply Hall.
      eapply list_elem_of_lookup_2. exact Hb.
    + apply (IH i j); [lia | assumption | assumption].
Qed.

Lemma endsAfter_mono (l : sgList) (t : Z) :
  sorted l ->
  forall x y : nat,
    (x <= y)%nat -> (y < length l)%nat ->
    endsAfter l t x = true -> endsAfter l t y = true.
Proof.
  intros Hs x y Hxy Hy. unfold endsAfter.
  destruct (l !! x) as [a |] eqn:Ea; [| discriminate].
  destruct (lookup_lt_is_Some_2 l y Hy) as [b Eb]. rewrite Eb.
  intros Ht. destruct (Nat.eq_dec x y) as [-> | Hne].
  - congruence.
  - pose proof (sgLe_EndTime a b (sorted_lookup l Hs x y a b ltac:(lia) Ea Eb)). lia.
Qed.

Lemma find_lookup {A : Type} (p : A -> bool) (l : list A) :
  forall k : nat,
    (forall i a, (i < k)%nat -> l !! i = Some a -> p a = false) ->
    (forall a, l !! k = Some a -> p a = true) ->
    List.find p l = l !! k.
Proof.
  induction l as [| h r IH]; intros k Hlow Hk.
  - destruct k; reflexivity.
  - destruct k as [| k]; simpl.
    + rewrite (Hk h eq_refl). reflexivity.
    + rewrite (Hlow 0%nat h ltac:(lia) eq_refl). apply IH.
      * intros i a Hi Ha. apply (Hlow (S i) a); [lia | exact Ha].
      * intros a Ha. apply Hk. exact Ha.
Qed.

(** On a sorted list the binary search of [ShardGroupAt] finds the first group
    that ends after [t]; only the start of that group is then compared. *)
Lemma ShardGroupAt_sorted (l : sgList) (t : Z) :
  sorted l ->
  ShardGroupAt l t =
    match List.find (fun g => t <? EndTime g) l with
    | Some g => if t <? StartTime g then None else Some g
    | None => None
    end.
Proof.
  intros Hs. unfold ShardGroupAt, Search.
  change (fun i : nat => match l !! i with
                         | Some g => t <? EndTime g
                         | None => false
                         end) with (endsAfter l t).
  destruct (Search_from_spec (endsAfter l t) (length l) (endsAfter_mono l t Hs)
              0%nat (length l)) as (Hr & Hlow & Hhigh); [lia | intros x Hx; lia | lia |].
  set (k := Search_from (endsAfter l t) 0 (length l)) in *.
  assert (Hfind : List.find (fun g => t <? EndTime g) l = l !! k).
  { apply find_lookup.
    - intros i a Hi Ha. specialize (Hlow i Hi). unfold endsAfter in Hlow.
      rewrite Ha in Hlow. exact Hlow.
    - intros a Ha. assert (Hk : (k < length l)%nat) by (eapply lookup_lt_Some; exact Ha).
      specialize (Hhigh Hk). unfold endsAfter in Hhigh. rewrite Ha in Hhigh. exact Hhigh. }
  rewrite Hfind. destruct (k =? length l)%nat eqn:Ek.
  - apply Nat.eqb_eq in Ek. rewrite Ek. rewrite lookup_ge_None_2 by lia. reflexivity.
  - reflexivity.
Qed.

(** What [ShardGroupAt] returns is a group of the list that contains [t]. *)
Lemma ShardGroupAt_sound (l : sgList) (t : Z) (g : ShardGroupInfo) :
  sorted l -> ShardGroupAt l t = Some g -> In g l /\ contains g t.
Proof.
  intros Hs. rewrite (ShardGroupAt_sorted l t Hs).
  destruct (List.find _ l) as [f |] eqn:Ef; [| discriminate].
  apply find_some in Ef. destruct Ef as [Hin Hend].
  destruct (t <? StartTime f) eqn:Est; [discriminate |].
  intros H. injection H as <-. split; [exact Hin |]. unfold contains. lia.
Qed.

Lemma find_first_sorted (l : sgList) (t : Z) (g : ShardGroupInfo) :
  sorted l -> In g l -> t < EndTime g ->
  exists f, List.find (fun g => t <? EndTime g) l = Some f /\
            In f l /\ t < EndTime f /\ (f = g \/ sgLe f g).
Proof.
  induction 1 as [| h r Hs IH Hall]; intros Hin Ht; [destruct Hin |].
  simpl. destruct (t <? EndTime h) eqn:Eh.
  - exists h. split; [reflexivity |]. split; [left; reflexivity |]. split; [lia |].
    destruct Hin as [-> | Hin]; [left; reflexivity | right].
    rewrite Forall_forall in Hall. apply Hall. apply list_elem_of_In. exact Hin.
  - destruct Hin as [-> | Hin]; [lia |].
    destruct (IH Hin Ht) as (f & Hf & Hfin & Hft & Hle).
    exists f. split; [exact Hf |]. split; [right; exact Hfin |]. split; assumption.
Qed.

(** When the groups of a sorted list are not empty and pairwise compatible,
    [ShardGroupAt] finds a group for every time that some group contains. *)
Lemma ShardGroupAt_complete (l : sgList) (t : Z) :
  sorted l ->
  (forall a b, In a l -> In b l -> compatible a b) ->
  (forall a, In a l -> StartTime a < EndTime a) ->
  (exists g, In g l /\ contains g t) ->
  exists sg, ShardGroupAt l t = Some sg /\ In sg l /\ contains sg t.
Proof.
  intros Hs Hcompat Hne (g & Hin & Hc). unfold contains in Hc.
  destruct (find_first_sorted l t g Hs Hin ltac:(lia)) as (f & Hf & Hfin & Hft & Hle).
  rewrite (ShardGroupAt_sorted l t Hs), Hf.
  assert (Hstart : StartTime f <= t).
  { destruct Hle as [-> | Hle]; [lia |].
    apply sgLe_EndTime in Hle.
    pose proof (Hne f Hfin). pose proof (Hcompat f g Hfin Hin) as Hcg.
    unfold compatible in Hcg. lia. }
  destruct (t <? StartTime f) eqn:E; [lia |].
  exists f. split; [reflexivity |]. split; [exact Hfin |]. unfold contains. lia.
Qed.

(** C3 fails on the code: in the sorted list of a group from 5 to 10 followed
    by a group from 0 to 20, the second is the only group that contains the
    time 3, and so the one with the earliest end among those that do; the
    binary search stops at the first, whose start is after 3, and
    [ShardGroupAt] returns nil. *)
Theorem ShardGroupAt_misses_enclosing_group :
  sorted [innerGroup; outerGroup] /\
  contains outerGroup 3 /\
  (forall g, In g [innerGroup; outerGroup] -> contains g 3 -> g = outerGroup) /\
  ShardGroupAt [innerGroup; outerGroup] 3 = None.
Proof.
  split.
  { repeat constructor; unfold sgLe; simpl; lia. }
  split; [unfold contains; simpl; lia |].
  split; [| reflexivity].
  intros g [<- | [<- | []]] Hc; [| reflexivity].
  unfold contains in Hc. simpl in Hc. lia.
Qed.

(** C4 fails on the code: on the same sorted list, whose intervals overlap,
    a group contains the time 3 and [Covers] answers false. *)
Theorem Covers_misses_enclosing_group :
  sorted [innerGroup; outerGroup] /\
  (exists g, In g [innerGroup; outerGroup] /\ contains g 3) /\
  Covers [innerGroup; outerGroup] 3 = false.
Proof.
  split.
  { repeat constructor; unfold sgLe; simpl; lia. }
  split; [| reflexivity].
  exists outerGroup. split; [right; left; reflexivity |].
  unfold contains. simpl. lia.
Qed.

(** On sorted lists of non-empty, pairwise compatible groups [Covers] is
    exact. *)
Lemma Covers_compatible (l : sgList) (t : Z) :
  sorted l ->
  (forall a b, In a l -> In b l -> compatible a b) ->
  (forall a, In a l -> StartTime a < EndTime a) ->
  (Covers l t = true <-> exists g, In g l /\ contains g t).
Proof.
  intros Hs Hcompat Hne. unfold Covers. split.
  - destruct (length l =? 0)%nat; [discriminate |].
    destruct (ShardGroupAt l t) as [g |] eqn:E; [| discriminate].
    intros _. exists g. apply ShardGroupAt_sound; assumption.
  - intros Hex. destruct (ShardGroupAt_complete l t Hs Hcompat Hne Hex) as (sg & E & Hin & _).
    rewrite E. destruct l; [destruct Hin | reflexivity].
Qed.


(** ** [Append] keeps the list sorted *)

Lemma insert_sg_In (g x : ShardGroupInfo) (l : sgList) :
  In x (insert_sg g l) <-> x = g \/ In x l.
Proof.
  induction l as [| h r IH]; simpl.
  - split; intros [H | H]; auto.
  - destruct (Less h g); simpl; [rewrite IH |]; split; intros H;
      repeat (destruct H as [H | H]); auto.
Qed.

Lemma insert_sg_sorted (g : ShardGroupInfo) (l : sgList) :
  sorted l -> sorted (insert_sg g l).
Proof.
  unfold sorted. induction 1 as [| h r Hs IH Hall]; simpl.
  - constructor; constructor.
  - destruct (Less h g) eqn:E.
    + apply Less_true in E. constructor; [exact IH |].
      apply Forall_forall. intros x Hx. apply list_elem_of_In in Hx.
      apply insert_sg_In in Hx. destruct Hx as [-> | Hx]; [exact E |].
      rewrite Forall_forall in Hall. apply Hall. apply list_elem_of_In. exact Hx.
    + apply Less_false in E. constructor; [constructor; assumption |].
      constructor; [exact E |].
      eapply Forall_impl; [exact Hall |].
      intros x Hx. eapply sgLe_trans; eassumption.
Qed.

Lemma Sort_In (x : ShardGroupInfo) (l : sgList) : In x (Sort l) <-> In x l.
Proof.
  induction l as [| h r IH]; simpl; [reflexivity |].
  rewrite insert_sg_In, IH. split; intros [H | H]; auto.
Qed.

Lemma Sort_sorted (l : sgList) : sorted (Sort l).
Proof.
  induction l as [| h r IH]; simpl; [constructor | apply insert_sg_sorted; exact IH].
Qed.

Lemma Append_In (x g : ShardGroupInfo) (l : sgList) :
  In x (Append l g) <-> In x l \/ x = g.
Proof.
  unfold Append. rewrite Sort_In, in_app_iff. simpl. split; intros [H | H]; auto.
  - destruct H as [H | []]; auto.
Qed.

Lemma Append_sorted (g : ShardGroupInfo) (l : sgList) : sorted (Append l g).
Proof. apply Sort_sorted. Qed.

Lemma sgLe_not_Less (a b : ShardGroupInfo) : sgLe a b -> Less b a = false.
Proof.
  unfold Less, sgLe. destruct (EndTime b =? EndTime a) eqn:E; lia.
Qed.

Lemma insert_sg_first (g : ShardGroupInfo) (l : sgList) :
  Forall (sgLe g) l -> insert_sg g l = g :: l.
Proof.
  intros Hall. destruct l as [| h r]; [reflexivity |]. simpl.
  rewrite (sgLe_not_Less g h); [reflexivity |].
  rewrite Forall_forall in Hall. apply Hall. left.
Qed.

(** Where [Append] puts the new group in a sorted list: after the groups it
    is not less than, among them the groups with the same end and start, and
    before the groups it is less than; the groups of the list keep their
    order. *)
Lemma Append_place (l : sgList) (sgi : ShardGroupInfo) :
  sorted l ->
  Append l sgi
  = List.filter (fun h => negb (Less sgi h)) l ++ sgi :: List.filter (Less sgi) l.
Proof.
  unfold Append, sorted. induction 1 as [| h r Hs IH Hall]; [reflexivity |].
  cbn [app Sort]. rewrite IH. cbn [List.filter].
  assert (Hfirst : Forall (sgLe h)
                     (List.filter (fun x => negb (Less sgi x)) r
                        ++ sgi :: List.filter (Less sgi) r) ->
                   insert_sg h (List.filter (fun x => negb (Less sgi x)) r
                                  ++ sgi :: List.filter (Less sgi) r)
                   = h :: List.filter (fun x => negb (Less sgi x)) r
                        ++ sgi :: List.filter (Less sgi) r)
    by apply insert_sg_first.
  destruct (Less sgi h) eqn:E; cbn [negb].
  - assert (Hr : forall x, In x r -> Less sgi x = true).
    { intros x Hx. rewrite Forall_forall in Hall.
      pose proof (Hall x ltac:(apply list_elem_of_In; exact Hx)) as Hhx.
      unfold Less in *. unfold sgLe in Hhx.
      destruct (EndTime sgi =? EndTime h) eqn:Eh;
        destruct (EndTime sgi =? EndTime x) eqn:Ex; lia. }
    assert (Hnone : List.filter (fun x => negb (Less sgi x)) r = []).
    { clear -Hr. induction r as [| x r IH]; [reflexivity |]. simpl.
      rewrite (Hr x (or_introl eq_refl)). simpl. apply IH.
      intros y Hy. apply Hr. right. exact Hy. }
    assert (Hall' : List.filter (Less sgi) r = r).
    { clear -Hr. induction r as [| x r IH]; [reflexivity |]. simpl.
      rewrite (Hr x (or_introl eq_refl)). f_equal. apply IH.
      intros y Hy. apply Hr. right. exact Hy. }
    rewrite Hnone, Hall'. cbn [app insert_sg]. rewrite E.
    rewrite insert_sg_first by exact Hall. reflexivity.
  - apply Hfirst. apply Forall_app. split.
    + apply Forall_forall. intros x Hx. apply list_elem_of_In, filter_In in Hx.
      rewrite Forall_forall in Hall. apply Hall. apply list_elem_of_In. apply Hx.
    + constructor; [apply Less_false; exact E |].
      apply Forall_forall. intros x Hx. apply list_elem_of_In, filter_In in Hx.
      rewrite Forall_forall in Hall. apply Hall. apply list_elem_of_In. apply Hx.
Qed.

(** ** The shard mapping *)

Section Mapping.

Variable growslice : nat -> nat -> nat.
Variable ShardFor : ShardGroupInfo -> N -> ShardInfo.

Lemma bucketOf_NewShardMapping (k : Z) (id : N) : bucketOf (NewShardMapping k) id = [].
Proof. reflexivity. Qed.

Lemma mapping_inv_NewShardMapping (k : Z) : mapping_inv 0 (NewShardMapping k).
Proof. intros id s H. simpl in H. rewrite lookup_empty in H. discriminate. Qed.

(** [MapPoint] appends the point to the bucket of its shard and leaves the
    other buckets alone: the bucket is made once, with the capacity of the
    batch, and never grows. *)
Lemma MapPoint_bucket (m : ShardMapping) (sh : ShardInfo) (p : Point) (k : nat) :
  mapping_inv k m ->
  Z.of_nat k < n m ->
  n (MapPoint growslice m sh p) = n m /\
  mapping_inv (S k) (MapPoint growslice m sh p) /\
  forall id, bucketOf (MapPoint growslice m sh p) id
             = bucketOf m id ++ (if (ShardID sh =? id)%N then [p] else []).
Proof.
  intros Hinv Hk. unfold MapPoint.
  set (sid := ShardID sh).
  assert (Hcases :
            exists s0 pts,
              (if Z.of_nat (capacity (index_slice (Points m) sid)) <? n m
               then <[sid := make_slice (n m)]> (Points m)
               else Points m) = pts /\
              index_slice pts sid = s0 /\
              items s0 = bucketOf m sid /\
              n m <= Z.of_nat (capacity s0) /\
              (length (items s0) <= k)%nat /\
              (forall id, id <> sid -> pts !! id = Points m !! id)).
  { unfold bucketOf, index_slice.
    destruct (Points m !! sid) as [s |] eqn:Es.
    - destruct (Hinv sid s Es) as [Hcap Hlen].
      destruct (Z.of_nat (capacity s) <? n m) eqn:E; [lia |].
      exists s, (Points m). rewrite Es.
      split; [reflexivity |]. split; [reflexivity |]. split; [reflexivity |].
      split; [lia |]. split; [lia |]. reflexivity.
    - cbn [nil_slice capacity items].
      replace (Z.of_nat 0 <? n m) with true by (symmetry; apply Z.ltb_lt; lia).
      exists (make_slice (n m)), (<[sid := make_slice (n m)]> (Points m)).
      rewrite lookup_insert_eq. simpl.
      split; [reflexivity |]. split; [reflexivity |]. split; [reflexivity |].
      split; [lia |]. split; [lia |].
      intros id Hne. apply lookup_insert_ne. congruence. }
  destruct Hcases as (s0 & pts & -> & Hs0 & Hitems & Hcap & Hlen & Hother).
  rewrite Hs0.
  assert (Happ : append growslice s0 p = {| items := items s0 ++ [p]; capacity := capacity s0 |}).
  { unfold append. destruct (length (items s0) <? capacity s0)%nat eqn:E; [reflexivity |].
    apply Nat.ltb_ge in E. lia. }
  rewrite Happ. simpl. split; [reflexivity |]. split.
  - intros id s Hl. simpl in Hl.
    destruct (N.eq_dec sid id) as [<- | Hne].
    + rewrite lookup_insert_eq in Hl. injection Hl as <-. simpl.
      rewrite length_app. simpl. lia.
    + rewrite lookup_insert_ne in Hl by exact Hne.
      rewrite Hother in Hl by congruence.
      destruct (Hinv id s Hl). simpl. lia.
  - intros id. unfold bucketOf at 1. unfold index_slice. simpl.
    destruct (N.eqb_spec sid id) as [<- | Hne].
    + rewrite lookup_insert_eq. simpl. rewrite Hitems. reflexivity.
    + rewrite lookup_insert_ne by exact Hne.
      rewrite Hother by congruence. rewrite app_nil_r. reflexivity.
Qed.

(** The second loop of [MapShards] puts into each bucket the points destined
    to its shard, in the order of the batch. *)
Lemma mapPoints_buckets (groups : sgList) (points : list Point) :
  forall (m : ShardMapping) (k : nat),
    mapping_inv k m ->
    Z.of_nat (k + length points) <= n m ->
    forall id,
      bucketOf (mapPoints growslice ShardFor groups points m) id
      = bucketOf m id ++ List.filter (destinedTo ShardFor groups id) points.
Proof.
  induction points as [| p rest IH]; intros m k Hinv Hn id; simpl.
  - rewrite app_nil_r. reflexivity.
  - unfold destinedTo at 1. unfold destination.
    destruct (ShardGroupAt groups (Time p)) as [sg |] eqn:Esg.
    + simpl in Hn.
      destruct (MapPoint_bucket m (ShardFor sg (HashID p)) p k Hinv ltac:(lia))
        as (Hn' & Hinv' & Hb).
      rewrite (IH _ (S k) Hinv') by (rewrite Hn'; lia).
      rewrite Hb. rewrite <- app_assoc.
      destruct (ShardID (ShardFor sg (HashID p)) =? id)%N; reflexivity.
    + apply (IH m k Hinv). simpl in Hn. lia.
Qed.

End Mapping.

(** ** [MapShards] *)

Section MapShardsFacts.

Context {MS : Type}.
Variable mc : MetaClient MS.


End MapShardsFacts.


Lemma contains_nonempty (g : ShardGroupInfo) (t : Z) :
  contains g t -> StartTime g < EndTime g.
Proof. unfold contains. lia. Qed.



Lemma windowMeta_contain : groups_contain_time windowMeta.
Proof.
  intros db rp t ms g e ms' H. simpl in H. injection H as <- _ _.
  unfold contains, windowGroup. simpl.
  pose proof (Z_div_mod_eq_full t 100). pose proof (Z.mod_pos_bound t 100). lia.
Qed.

Lemma windowMeta_compatible : groups_compatible windowMeta.
Proof.
  intros a b (db1 & rp1 & t1 & ms1 & e1 & ms1' & Ha) (db2 & rp2 & t2 & ms2 & e2 & ms2' & Hb).
  simpl in Ha, Hb. injection Ha as <- _ _. injection Hb as <- _ _.
  unfold compatible, windowGroup. simpl. lia.
Qed.



(** The list on which [ShardGroupAt] misses a group arises in [MapShards]
    itself: when the metadata service answers the time 7 with the group from
    5 to 10 and the time 3 with the group from 0 to 20, the point at time 3
    is in no bucket, although it is not before the lower bound and a shard
    group was created for it. *)
Lemma MapShards_loses_point_in_enclosing_group :
  groups_contain_time nestedMeta /\
  minTime 1000 (mkRetentionPolicyInfo "rp" 0) <= 3 /\
  fst (createGroups nestedMeta "db" "rp" MinNanoTime (WPPoints nestedBatch) [] tt)
    = inr [innerGroup; outerGroup] /\
  bucketsAt [11%N; 12%N]
    (fst (MapShards exampleGrowslice exampleShardFor nestedMeta 1000 nestedBatch tt))
  = Some [[mkPoint "cpu" 7 0]; []].
Proof.
  split.
  { intros db rp t ms g e ms' H. simpl in H. unfold contains.
    destruct ((5 <=? t) && (t <? 10)) eqn:E1.
    - injection H as <- _ _. simpl. lia.
    - destruct ((0 <=? t) && (t <? 20)) eqn:E2; [| discriminate].
      injection H as <- _ _. simpl. lia. }
  split; [vm_compute; discriminate |]. split; reflexivity.
Qed.

(** * Further properties *)

(** ** The shard-group list, on any list and on sorted lists *)

(** The index [sort.Search] returns lies between the bounds and, when it is
    not the upper bound, the probe holds there; this needs no order. *)
Lemma Search_from_hit (f : nat -> bool) :
  forall i j : nat,
    (i <= j)%nat ->
    (i <= Search_from f i j <= j)%nat /\
    (Search_from f i j <> j -> f (Search_from f i j) = true).
Proof.
  intros i j. funelim (Search_from f i j); intros Hij.
  all: try (assert (Hh : (i <= (i + j) / 2 < j)%nat)
              by (pose proof (Nat.div_mod_eq (i + j) 2);
                  pose proof (Nat.mod_upper_bound (i + j) 2); lia)).
  - split; [lia |]. intros Hne. lia.
  - match goal with
    | IH : (_ <= _)%nat -> _ |- _ => destruct IH as (Ha & Hb); [lia |]
    end.
    split; [lia |]. intros _.
    destruct (Nat.eq_dec (Search_from f i ((i + j) / 2)%nat) ((i + j) / 2)%nat) as [E | E].
    + rewrite E. assumption.
    + apply Hb. exact E.
  - match goal with
    | IH : (_ <= _)%nat -> _ |- _ => destruct IH as (Ha & Hb); [lia |]
    end.
    split; [lia | exact Hb].
Qed.

(** X1: on every list, sorted or not, a group that [ShardGroupAt] returns is
    a group of the list whose interval contains the time asked for; with an
    empty list it returns nil. *)
Theorem ShardGroupAt_returns_containing_group :
  (forall (l : sgList) (t : Z) (g : ShardGroupInfo),
      ShardGroupAt l t = Some g -> In g l /\ contains g t) /\
  (forall t : Z, ShardGroupAt [] t = None /\ Covers [] t = false).
Proof.
  split; [| intros t; split; reflexivity].
  intros l t g. unfold ShardGroupAt, Search.
  destruct (Search_from_hit
              (fun i => match l !! i with
                        | Some g0 => t <? EndTime g0
                        | None => false
                        end) 0%nat (length l) ltac:(lia)) as (Hr & Hhit).
  set (k := Search_from _ 0 (length l)) in *.
  destruct (k =? length l)%nat eqn:Ek; [discriminate |].
  apply Nat.eqb_neq in Ek. specialize (Hhit Ek).
  destruct (l !! k) as [g0 |] eqn:Eg; [| discriminate].
  destruct (t <? StartTime g0) eqn:Es; [discriminate |].
  intros H. injection H as <-. split.
  - apply list_elem_of_In. eapply list_elem_of_lookup_2. exact Eg.
  - unfold contains. lia.
Qed.

Lemma find_first_all (l : sgList) (t : Z) (f : ShardGroupInfo) :
  sorted l ->
  List.find (fun g => t <? EndTime g) l = Some f ->
  forall g', In g' l -> t < EndTime g' -> f = g' \/ sgLe f g'.
Proof.
  intros Hs Hf g' Hin Ht.
  destruct (find_first_sorted l t g' Hs Hin Ht) as (f' & Hf' & _ & _ & Hle).
  rewrite Hf in Hf'. injection Hf' as <-. exact Hle.
Qed.

Lemma sgLe_refl (a : ShardGroupInfo) : sgLe a a.
Proof. unfold sgLe. lia. Qed.

(** X2: on a sorted list, a group that [ShardGroupAt] returns comes first, by
    end and then by start, among all the groups that end after the time; and
    it returns nil exactly when no group ends after the time or the group
    that comes first among those starts after it. *)
Theorem ShardGroupAt_prefers_earliest_end (l : sgList) (t : Z) :
  sorted l ->
  (forall g, ShardGroupAt l t = Some g ->
     forall g', In g' l -> t < EndTime g' -> sgLe g g') /\
  (ShardGroupAt l t = None <->
     (forall g', In g' l -> EndTime g' <= t) \/
     (exists f, In f l /\ t < EndTime f /\ t < StartTime f /\
                forall g', In g' l -> t < EndTime g' -> sgLe f g')).
Proof.
  intros Hs. rewrite (ShardGroupAt_sorted l t Hs).
  destruct (List.find (fun g => t <? EndTime g) l) as [f |] eqn:Ef.
  - pose proof (find_first_all l t f Hs Ef) as Hfirst.
    assert (Hle : forall g', In g' l -> t < EndTime g' -> sgLe f g').
    { intros g' Hin Ht. destruct (Hfirst g' Hin Ht) as [<- | H];
        [apply sgLe_refl | exact H]. }
    apply find_some in Ef. destruct Ef as [Hin Hend].
    destruct (t <? StartTime f) eqn:Est.
    + split; [discriminate |]. split; [intros _ | reflexivity].
      right. exists f. repeat split; auto; lia.
    + split; [intros g H; injection H as <-; exact Hle |].
      split; [discriminate |].
      intros [Hnone | (f' & Hin' & Hend' & Hst' & Hle')].
      * specialize (Hnone f Hin). lia.
      * pose proof (Hle f' Hin' Hend') as H1.
        pose proof (Hle' f Hin ltac:(lia)) as H2.
        unfold sgLe in H1, H2. lia.
  - split; [discriminate |]. split; [intros _ | reflexivity].
    left. intros g' Hin. pose proof (find_none _ _ Ef g' Hin) as H. simpl in H. lia.
Qed.

(** The statement at the nested groups, where the group that comes first
    starts after the time. *)
Lemma ShardGroupAt_prefers_earliest_end_witness :
  (forall g, ShardGroupAt [innerGroup; outerGroup] 3 = Some g ->
     forall g', In g' [innerGroup; outerGroup] -> 3 < EndTime g' -> sgLe g g') /\
  (ShardGroupAt [innerGroup; outerGroup] 3 = None <->
     (forall g', In g' [innerGroup; outerGroup] -> EndTime g' <= 3) \/
     (exists f, In f [innerGroup; outerGroup] /\ 3 < EndTime f /\ 3 < StartTime f /\
                forall g', In g' [innerGroup; outerGroup] -> 3 < EndTime g' -> sgLe f g')).
Proof.
  apply (ShardGroupAt_prefers_earliest_end [innerGroup; outerGroup] 3).
  repeat constructor; unfold sgLe; simpl; lia.
Defined.

(** X3: on a sorted list whose groups are not empty and have pairwise equal
    or disjoint intervals, [Covers] is true exactly when some group contains
    the time, and [ShardGroupAt] then returns a group that contains it and
    ends no later than any group that contains it. *)
Theorem Covers_exact_on_compatible_groups (l : sgList) (t : Z) :
  sorted l ->
  (forall a b, In a l -> In b l -> compatible a b) ->
  (forall a, In a l -> StartTime a < EndTime a) ->
  (Covers l t = true <-> exists g, In g l /\ contains g t) /\
  ((exists g, In g l /\ contains g t) ->
   exists sg, ShardGroupAt l t = Some sg /\ contains sg t /\
              forall g, In g l -> contains g t -> EndTime sg <= EndTime g).
Proof.
  intros Hs Hcompat Hne. split; [apply Covers_compatible; assumption |].
  intros Hex.
  destruct (ShardGroupAt_complete l t Hs Hcompat Hne Hex) as (sg & Hsg & Hin & Hc).
  exists sg. split; [exact Hsg |]. split; [exact Hc |].
  intros g Hg Hcg. unfold contains in Hcg.
  rewrite (ShardGroupAt_sorted l t Hs) in Hsg.
  destruct (List.find (fun g0 => t <? EndTime g0) l) as [f |] eqn:Ef; [| discriminate].
  destruct (t <? StartTime f); [discriminate |]. injection Hsg as <-.
  destruct (find_first_all l t f Hs Ef g Hg ltac:(lia)) as [<- | Hle]; [lia |].
  apply sgLe_EndTime. exact Hle.
Qed.

Lemma windowList_compatible :
  sorted windowList /\
  (forall a b, In a windowList -> In b windowList -> compatible a b) /\
  (forall a, In a windowList -> StartTime a < EndTime a).
Proof.
  split; [repeat constructor; unfold sgLe; simpl; lia |]. split.
  - intros a b Ha Hb. simpl in Ha, Hb. unfold compatible.
    destruct Ha as [<- | [<- | [<- | []]]]; destruct Hb as [<- | [<- | [<- | []]]];
      simpl; lia.
  - intros a Ha. simpl in Ha. destruct Ha as [<- | [<- | [<- | []]]]; simpl; lia.
Qed.

(** The statement at three windows of width 100 and the time 150. *)
Lemma Covers_exact_on_compatible_groups_witness :
  (Covers windowList 150 = true <-> exists g, In g windowList /\ contains g 150) /\
  ((exists g, In g windowList /\ contains g 150) ->
   exists sg, ShardGroupAt windowList 150 = Some sg /\ contains sg 150 /\
              forall g, In g windowList -> contains g 150 -> EndTime sg <= EndTime g).
Proof.
  apply (Covers_exact_on_compatible_groups windowList 150);
    [exact (proj1 windowList_compatible)
    | exact (proj1 (proj2 windowList_compatible))
    | exact (proj2 (proj2 windowList_compatible))].
Defined.

Lemma insert_sg_Permutation (g : ShardGroupInfo) (l : sgList) :
  Permutation (insert_sg g l) (g :: l).
Proof.
  induction l as [| h r IH]; simpl; [reflexivity |].
  destruct (Less h g); [| reflexivity].
  rewrite IH. apply perm_swap.
Qed.

Lemma Sort_Permutation (l : sgList) : Permutation (Sort l) l.
Proof.
  induction l as [| h r IH]; simpl; [reflexivity |].
  rewrite insert_sg_Permutation. constructor. exact IH.
Qed.

(** X4: [Append] returns a list that is sorted by end and then start,
    whatever the order of the list it is given, and that holds the groups of
    that list and the new group, each as often as before. *)
Theorem Append_sorted_permutation (l : sgList) (sgi : ShardGroupInfo) :
  sorted (Append l sgi) /\
  Permutation (Append l sgi) (sgi :: l) /\
  length (Append l sgi) = S (length l).
Proof.
  assert (Hp : Permutation (Append l sgi) (sgi :: l)).
  { unfold Append. rewrite Sort_Permutation. symmetry. apply Permutation_cons_append. }
  split; [apply Sort_sorted |]. split; [exact Hp |].
  rewrite (Permutation_length Hp). reflexivity.
Qed.

(** ** The shard mapping built by [MapShards] *)

Lemma exampleMapping_run :
  MapShards exampleGrowslice exampleShardFor windowMeta 1000 exampleBatch tt
  = (inr exampleMapping, tt).
Proof. vm_compute. reflexivity. Qed.

Lemma append_items (growslice : nat -> nat -> nat) (s : slice) (p : Point) :
  items (append growslice s p) = items s ++ [p].
Proof. unfold append. destruct (_ <? _)%nat; reflexivity. Qed.

Lemma MapPoint_keys (growslice : nat -> nat -> nat) (m : ShardMapping)
    (sh : ShardInfo) (p : Point) :
  mapping_keys_inv m -> mapping_keys_inv (MapPoint growslice m sh p).
Proof.
  intros Hinv id. unfold MapPoint. cbn [Points ShardsOf].
  set (pts := if _ <? _ then _ else _).
  destruct (N.eq_dec (ShardID sh) id) as [<- | Hne].
  - rewrite !lookup_insert_eq. split; [split; discriminate |]. split.
    + intros s Hs. injection Hs as <-. rewrite append_items.
      destruct (items (index_slice pts (ShardID sh))); discriminate.
    + intros sh' Hs. injection Hs as <-. reflexivity.
  - rewrite !lookup_insert_ne by exact Hne.
    assert (Hpts : pts !! id = Points m !! id).
    { subst pts. destruct (_ <? _); [apply lookup_insert_ne; exact Hne | reflexivity]. }
    rewrite Hpts. apply Hinv.
Qed.

Lemma mapPoints_keys (growslice : nat -> nat -> nat)
    (ShardFor : ShardGroupInfo -> N -> ShardInfo) (groups : sgList) (points : list Point) :
  forall m, mapping_keys_inv m ->
            mapping_keys_inv (mapPoints growslice ShardFor groups points m).
Proof.
  induction points as [| p rest IH]; intros m Hinv; simpl; [exact Hinv |].
  destruct (ShardGroupAt groups (Time p)); [| apply IH; exact Hinv].
  apply IH. apply MapPoint_keys. exact Hinv.
Qed.

Lemma MapShards_inr (growslice : nat -> nat -> nat)
    (ShardFor : ShardGroupInfo -> N -> ShardInfo) {MS : Type} (mc : MetaClient MS)
    (now : Z) (wp : WritePointsRequest) (ms ms' : MS) (m : ShardMapping) :
  MapShards growslice ShardFor mc now wp ms = (inr m, ms') ->
  exists rp ms1 groups,
    MetaRetentionPolicy mc (Database wp) (RetentionPolicy wp) ms = ((Some rp, None), ms1) /\
    createGroups mc (Database wp) (RetentionPolicy wp) (minTime now rp) (WPPoints wp) [] ms1
      = (inr groups, ms') /\
    m = mapPoints growslice ShardFor groups (WPPoints wp)
          (NewShardMapping (Z.of_nat (length (WPPoints wp)))).
Proof.
  intros Hrun. unfold MapShards in Hrun.
  destruct (MetaRetentionPolicy mc (Database wp) (RetentionPolicy wp) ms)
    as [[rp err] ms1] eqn:Erp.
  destruct err as [e |]; [discriminate |].
  destruct rp as [rp |]; [| discriminate].
  destruct (createGroups mc (Database wp) (RetentionPolicy wp) (minTime now rp)
              (WPPoints wp) [] ms1) as [[e | groups] ms2] eqn:Egroups; [discriminate |].
  injection Hrun as <- <-. exists rp, ms1, groups. repeat split. exact Egroups.
Qed.

(** X5: in a mapping that [MapShards] returns, a shard has a bucket exactly
    when it has a shard record, no bucket is empty, and the shard record
    filed under an identifier has that identifier. *)
Theorem MapShards_mapping_keys (growslice : nat -> nat -> nat)
    (ShardFor : ShardGroupInfo -> N -> ShardInfo) {MS : Type} (mc : MetaClient MS)
    (now : Z) (wp : WritePointsRequest) (ms ms' : MS) (m : ShardMapping) :
  MapShards growslice ShardFor mc now wp ms = (inr m, ms') ->
  forall id : N,
    (is_Some (Points m !! id) <-> is_Some (ShardsOf m !! id)) /\
    (is_Some (Points m !! id) <-> bucketOf m id <> []) /\
    (forall sh, ShardsOf m !! id = Some sh -> ShardID sh = id).
Proof.
  intros Hrun id.
  destruct (MapShards_inr _ _ _ _ _ _ _ _ Hrun) as (rp & ms1 & groups & _ & _ & ->).
  assert (Hinv : mapping_keys_inv
                   (mapPoints growslice ShardFor groups (WPPoints wp)
                      (NewShardMapping (Z.of_nat (length (WPPoints wp)))))).
  { apply mapPoints_keys. intros id0. simpl. rewrite !lookup_empty.
    split; [tauto |]. split; intros x Hx; discriminate. }
  destruct (Hinv id) as (Hkeys & Hne & Hid).
  set (m := mapPoints _ _ _ _ _) in *.
  split; [| split; [| exact Hid]].
  - rewrite <- !not_eq_None_Some. tauto.
  - unfold bucketOf, index_slice. destruct (Points m !! id) as [s |] eqn:Es.
    + split; [intros _; apply Hne; reflexivity | intros _; eexists; reflexivity].
    + split; [intros [x Hx]; discriminate | intros H; exfalso; apply H; reflexivity].
Qed.

(** The statement at the example batch. *)
Lemma MapShards_mapping_keys_witness :
  (is_Some (Points exampleMapping !! 1%N) <-> is_Some (ShardsOf exampleMapping !! 1%N)) /\
  (is_Some (Points exampleMapping !! 1%N) <-> bucketOf exampleMapping 1 <> []) /\
  (forall sh, ShardsOf exampleMapping !! 1%N = Some sh -> ShardID sh = 1%N).
Proof.
  exact (MapShards_mapping_keys exampleGrowslice exampleShardFor windowMeta 1000
           exampleBatch tt tt exampleMapping exampleMapping_run 1%N).
Defined.

Lemma mapping_exact_inv (k : nat) (m : ShardMapping) :
  mapping_exact k m -> mapping_inv k m.
Proof.
  intros H id s Hs. destruct (H id s Hs) as [Hc Hl]. split; [lia | exact Hl].
Qed.

(** With room left in the batch, [MapPoint] does not let [append] grow a
    bucket: the result does not depend on how the runtime would grow it, and
    the capacity stays the one of creation. *)
Lemma MapPoint_exact (g1 g2 : nat -> nat -> nat) (m : ShardMapping)
    (sh : ShardInfo) (p : Point) (k : nat) :
  mapping_exact k m ->
  Z.of_nat k < n m ->
  MapPoint g1 m sh p = MapPoint g2 m sh p /\
  mapping_exact (S k) (MapPoint g1 m sh p).
Proof.
  intros Hex Hk. unfold MapPoint.
  set (sid := ShardID sh).
  set (pts := if Z.of_nat (capacity (index_slice (Points m) sid)) <? n m
              then <[sid := make_slice (n m)]> (Points m) else Points m).
  assert (Hslot : capacity (index_slice pts sid) = Z.to_nat (n m) /\
                  (length (items (index_slice pts sid)) <= k)%nat /\
                  (forall id, id <> sid -> pts !! id = Points m !! id)).
  { subst pts. unfold index_slice.
    destruct (Points m !! sid) as [s |] eqn:Es.
    - destruct (Hex sid s Es) as [Hc Hl].
      destruct (Z.of_nat (capacity s) <? n m) eqn:E; [lia |].
      rewrite Es. split; [exact Hc |]. split; [exact Hl | reflexivity].
    - cbn [nil_slice capacity].
      replace (Z.of_nat 0 <? n m) with true by (symmetry; apply Z.ltb_lt; lia).
      rewrite lookup_insert_eq. simpl.
      split; [reflexivity |]. split; [lia |].
      intros id Hne. apply lookup_insert_ne. congruence. }
  destruct Hslot as (Hcap & Hlen & Hother).
  assert (Happ : forall g, append g (index_slice pts sid) p
                           = {| items := items (index_slice pts sid) ++ [p];
                                capacity := capacity (index_slice pts sid) |}).
  { intros g. unfold append.
    destruct (length (items (index_slice pts sid)) <? capacity (index_slice pts sid))%nat
      eqn:E; [reflexivity |].
    apply Nat.ltb_ge in E. lia. }
  rewrite !Happ. split; [reflexivity |].
  intros id s Hl. cbn [Points n] in *.
  destruct (N.eq_dec sid id) as [<- | Hne].
  - rewrite lookup_insert_eq in Hl. injection Hl as <-. cbn [capacity items].
    rewrite length_app. simpl. split; [exact Hcap | lia].
  - rewrite lookup_insert_ne in Hl by exact Hne.
    rewrite Hother in Hl by congruence.
    destruct (Hex id s Hl). split; [assumption | lia].
Qed.

Lemma mapPoints_exact (g1 g2 : nat -> nat -> nat)
    (ShardFor : ShardGroupInfo -> N -> ShardInfo) (groups : sgList) (points : list Point) :
  forall (m : ShardMapping) (k : nat),
    mapping_exact k m ->
    Z.of_nat (k + length points) <= n m ->
    mapPoints g1 ShardFor groups points m = mapPoints g2 ShardFor groups points m /\
    mapping_exact (k + length points) (mapPoints g1 ShardFor groups points m) /\
    n (mapPoints g1 ShardFor groups points m) = n m.
Proof.
  induction points as [| p rest IH]; intros m k Hex Hn; simpl.
  - rewrite Nat.add_0_r. split; [reflexivity |]. split; [exact Hex | reflexivity].
  - simpl in Hn. destruct (ShardGroupAt groups (Time p)) as [sg |].
    + destruct (MapPoint_exact g1 g2 m (ShardFor sg (HashID p)) p k Hex ltac:(lia))
        as [Heq Hex'].
      rewrite <- Heq.
      destruct (IH (MapPoint g1 m (ShardFor sg (HashID p)) p) (S k) Hex'
                  ltac:(simpl; lia)) as (H1 & H2 & H3).
      split; [exact H1 |]. split; [| rewrite H3; reflexivity].
      replace (k + S (length rest))%nat with (S k + length rest)%nat by lia. exact H2.
    + destruct (IH m k Hex ltac:(lia)) as (H1 & H2 & H3).
      split; [exact H1 |]. split; [| exact H3].
      intros id s Hs. destruct (H2 id s Hs). split; [assumption | lia].
Qed.

(** X6: [MapShards] never makes [append] grow a bucket: its result is the
    same whatever capacity the runtime would give a grown slice, and every
    bucket of the mapping it returns has the capacity of the whole batch. *)
Theorem MapShards_never_grows_a_bucket (g1 g2 : nat -> nat -> nat)
    (ShardFor : ShardGroupInfo -> N -> ShardInfo) {MS : Type} (mc : MetaClient MS)
    (now : Z) (wp : WritePointsRequest) (ms : MS) :
  MapShards g1 ShardFor mc now wp ms = MapShards g2 ShardFor mc now wp ms /\
  match fst (MapShards g1 ShardFor mc now wp ms) with
  | inr m =>
      forall id s, Points m !! id = Some s ->
                   capacity s = length (WPPoints wp) /\
                   (length (items s) <= capacity s)%nat
  | inl _ => True
  end.
Proof.
  unfold MapShards.
  destruct (MetaRetentionPolicy mc (Database wp) (RetentionPolicy wp) ms)
    as [[rp err] ms1].
  destruct err as [e |]; [split; [reflexivity | exact I] |].
  destruct rp as [rp |]; [| split; [reflexivity | exact I]].
  destruct (createGroups mc (Database wp) (RetentionPolicy wp) (minTime now rp)
              (WPPoints wp) [] ms1) as [[e | groups] ms2];
    [split; [reflexivity | exact I] |].
  assert (H0 : mapping_exact 0 (NewShardMapping (Z.of_nat (length (WPPoints wp))))).
  { intros id s Hs. simpl in Hs. rewrite lookup_empty in Hs. discriminate. }
  destruct (mapPoints_exact g1 g2 ShardFor groups (WPPoints wp) _ 0%nat H0
              ltac:(simpl; lia)) as (Heq & Hex & Hn).
  split; [rewrite Heq; reflexivity |].
  cbn [fst]. intros id s Hs. destruct (Hex id s Hs) as [Hc Hl].
  rewrite Hn in Hc. simpl in Hc, Hl. rewrite Nat2Z.id in Hc. lia.
Qed.

Lemma createGroups_all_before_min {MS : Type} (mc : MetaClient MS)
    (db rp : string) (min : Z) (points : list Point) (lst : sgList) (ms : MS) :
  (forall p, In p points -> Time p < min) ->
  createGroups mc db rp min points lst ms = (inr lst, ms).
Proof.
  induction points as [| p rest IH]; intros Hold; simpl; [reflexivity |].
  assert (E : (Time p <? min) = true) by (apply Z.ltb_lt, Hold; left; reflexivity).
  rewrite E. simpl. apply IH. intros q Hq. apply Hold. right. exact Hq.
Qed.

Lemma mapPoints_no_groups (growslice : nat -> nat -> nat)
    (ShardFor : ShardGroupInfo -> N -> ShardInfo) (points : list Point) (m : ShardMapping) :
  mapPoints growslice ShardFor [] points m = m.
Proof.
  induction points as [| p rest IH]; [reflexivity |].
  cbn [mapPoints].
  change (ShardGroupAt [] (Time p)) with (@None ShardGroupInfo). exact IH.
Qed.

(** X7: when the retention policy is found and every point of the batch is
    before the lower bound (in particular when the batch is empty),
    [MapShards] asks for no shard group, leaves the metadata service as the
    policy lookup left it, and returns a mapping without any bucket. *)
Theorem MapShards_all_points_before_min (growslice : nat -> nat -> nat)
    (ShardFor : ShardGroupInfo -> N -> ShardInfo) {MS : Type} (mc : MetaClient MS)
    (now : Z) (wp : WritePointsRequest) (ms ms1 : MS) (rp : RetentionPolicyInfo) :
  MetaRetentionPolicy mc (Database wp) (RetentionPolicy wp) ms = ((Some rp, None), ms1) ->
  (forall p, In p (WPPoints wp) -> Time p < minTime now rp) ->
  MapShards growslice ShardFor mc now wp ms
  = (inr (NewShardMapping (Z.of_nat (length (WPPoints wp)))), ms1).
Proof.
  intros Hrp Hold. unfold MapShards. rewrite Hrp.
  rewrite (createGroups_all_before_min mc _ _ _ _ [] ms1 Hold).
  rewrite mapPoints_no_groups. reflexivity.
Qed.

(** The statement at a batch of two points older than the bound 950. *)
Lemma MapShards_all_points_before_min_witness :
  MapShards exampleGrowslice exampleShardFor windowMeta 1000 staleBatch tt
  = (inr (NewShardMapping (Z.of_nat (length (WPPoints staleBatch)))), tt).
Proof.
  apply (MapShards_all_points_before_min exampleGrowslice exampleShardFor windowMeta
           1000 staleBatch tt tt (mkRetentionPolicyInfo "rp" 50)).
  - reflexivity.
  - intros p Hp. simpl in Hp. destruct Hp as [<- | [<- | []]]; vm_compute; reflexivity.
Defined.

(** Recording the calls does not change what the first loop does. *)
Lemma recording_createGroups {MS : Type} (mc : MetaClient MS) (db rp : string) (min : Z)
    (points : list Point) :
  forall (lst : sgList) (ms : MS) (log : list Z),
    fst (createGroups (recording mc) db rp min points lst (ms, log))
    = fst (createGroups mc db rp min points lst ms) /\
    fst (snd (createGroups (recording mc) db rp min points lst (ms, log)))
    = snd (createGroups mc db rp min points lst ms).
Proof.
  induction points as [| p rest IH]; intros lst ms log; simpl; [split; reflexivity |].
  destruct ((Time p <? min) || Covers lst (Time p)); [apply IH |].
  destruct (CreateShardGroup mc db rp (Time p) ms) as [[sg err] ms1]. simpl.
  destruct err as [e |]; [split; reflexivity |].
  destruct sg as [g |]; [apply IH | split; reflexivity].
Qed.

Section GroupsOnce.

Context {MS : Type}.
Variable mc : MetaClient MS.
Hypothesis Hcontain : groups_contain_time mc.
Hypothesis Hcompat : groups_compatible mc.

(** The first loop never holds a group twice, nor two groups that overlap:
    a time inside a group of the list is covered, so no group is asked for
    it; and every group of the list is the answer to one recorded call. *)
Lemma createGroups_recorded (db rp : string) (min : Z) (points : list Point) :
  forall (lst : sgList) (ms : MS) (log : list Z)
         (groups : sgList) (ms' : MS) (asked : list Z),
    sorted lst ->
    (forall g, In g lst -> returnedBy mc g /\ StartTime g < EndTime g) ->
    List.NoDup lst ->
    (forall a b, In a lst -> In b lst -> a = b \/ disjoint_groups a b) ->
    length log = length lst ->
    List.NoDup log ->
    (forall t, In t log -> exists h, In h lst /\ contains h t) ->
    (forall g, In g lst ->
       exists t, In t log /\ createdFor mc db rp t g /\ contains g t /\
                 forall t', In t' log -> contains g t' -> t' = t) ->
    createGroups (recording mc) db rp min points lst (ms, log)
      = (inr groups, (ms', asked)) ->
    List.NoDup groups /\
    (forall a b, In a groups -> In b groups -> a = b \/ disjoint_groups a b) /\
    (length groups <= length lst + length points)%nat /\
    length asked = length groups /\
    List.NoDup asked /\
    (forall t, In t asked ->
       In t log \/ exists p, In p points /\ Time p = t /\ min <= t) /\
    (forall g, In g groups ->
       exists t, In t asked /\ createdFor mc db rp t g /\ contains g t /\
                 forall t', In t' asked -> contains g t' -> t' = t).
Proof.
  induction points as [| p rest IH];
    intros lst ms log groups ms' asked Hs Hret Hnd Hdis Hlen Hndl Hlog Hone Hrun;
    simpl in Hrun.
  - injection Hrun as <- <- <-.
    split; [exact Hnd |]. split; [exact Hdis |]. split; [lia |].
    split; [exact Hlen |]. split; [exact Hndl |]. split; [| exact Hone].
    intros t Ht. left. exact Ht.
  - destruct ((Time p <? min) || Covers lst (Time p)) eqn:Eskip.
    + destruct (IH lst ms log groups ms' asked Hs Hret Hnd Hdis Hlen Hndl Hlog Hone Hrun)
        as (H1 & H2 & H3 & H4 & H5 & H6 & H7).
      split; [exact H1 |]. split; [exact H2 |]. split; [simpl; lia |].
      split; [exact H4 |]. split; [exact H5 |]. split; [| exact H7].
      intros t Ht. destruct (H6 t Ht) as [Hl | (q & Hq & Hqt & Hqm)]; [left; exact Hl |].
      right. exists q. split; [right; exact Hq | split; assumption].
    + apply orb_false_iff in Eskip. destruct Eskip as [Emin Ecov].
      destruct (CreateShardGroup mc db rp (Time p) ms) as [[sg err] ms1] eqn:Ecall.
      simpl in Hrun.
      destruct err as [e |]; [discriminate |].
      destruct sg as [g |]; [| discriminate].
      pose proof (Hcontain _ _ _ _ _ _ _ Ecall) as Hg.
      assert (Hgret : returnedBy mc g)
        by (exists db, rp, (Time p), ms, None, ms1; exact Ecall).
      assert (Hgfor : createdFor mc db rp (Time p) g) by (exists ms, ms1; exact Ecall).
      assert (Hnocover : forall h, In h lst -> ~ contains h (Time p)).
      { intros h Hh Hc.
        assert (Hex : exists g0, In g0 lst /\ contains g0 (Time p)) by eauto.
        apply (Covers_compatible lst (Time p) Hs) in Hex.
        - congruence.
        - intros a b Ha Hb. apply Hcompat; apply Hret; assumption.
        - intros a Ha. apply Hret. exact Ha. }
      assert (Hnew : forall h, In h lst -> h <> g /\ disjoint_groups h g).
      { intros h Hh. pose proof (Hnocover h Hh) as Hn.
        destruct (Hret h Hh) as [Hhret Hhne].
        pose proof (Hcompat h g Hhret Hgret) as Hc.
        unfold contains in Hn, Hg. unfold compatible in Hc. unfold disjoint_groups.
        split; [intros ->; apply Hn; exact Hg | lia]. }
      assert (Hfresh : ~ In (Time p) log).
      { intros Hin. destruct (Hlog _ Hin) as (h & Hh & Hc). exact (Hnocover h Hh Hc). }
      assert (Hapart : forall h t, In h lst -> contains h t -> ~ contains g t).
      { intros h t Hh Hc Hc'. destruct (Hnew h Hh) as [_ Hd].
        unfold disjoint_groups in Hd. unfold contains in Hc, Hc'. lia. }
      destruct (IH (Append lst g) ms1 (log ++ [Time p]) groups ms' asked
                  (Append_sorted g lst)) as (H1 & H2 & H3 & H4 & H5 & H6 & H7).
      * intros h Hh. apply Append_In in Hh. destruct Hh as [Hh | ->].
        -- apply Hret. exact Hh.
        -- split; [exact Hgret | unfold contains in Hg; lia].
      * apply (Permutation_NoDup (l := g :: lst)).
        -- symmetry. unfold Append. rewrite Sort_Permutation.
           symmetry. apply Permutation_cons_append.
        -- constructor; [| exact Hnd]. intros Hin. destruct (Hnew g Hin) as [Hne _].
           apply Hne. reflexivity.
      * intros a b Ha Hb. apply Append_In in Ha. apply Append_In in Hb.
        destruct Ha as [Ha | ->]; destruct Hb as [Hb | ->].
        -- apply Hdis; assumption.
        -- right. apply Hnew. exact Ha.
        -- right. destruct (Hnew b Hb) as [_ Hd]. unfold disjoint_groups in *. lia.
        -- left. reflexivity.
      * unfold Append. rewrite (Permutation_length (Sort_Permutation _)).
        rewrite !length_app. simpl. lia.
      * apply (Permutation_NoDup (l := Time p :: log)).
        -- apply Permutation_cons_append.
        -- constructor; assumption.
      * intros t Ht. apply in_app_iff in Ht. destruct Ht as [Ht | [<- | []]].
        -- destruct (Hlog t Ht) as (h & Hh & Hc).
           exists h. split; [apply Append_In; left; exact Hh | exact Hc].
        -- exists g. split; [apply Append_In; right; reflexivity | exact Hg].
      * intros h Hh. apply Append_In in Hh. destruct Hh as [Hh | ->].
        -- destruct (Hone h Hh) as (t & Ht & Hfor & Hc & Huniq).
           exists t. split; [apply in_app_iff; left; exact Ht |].
           split; [exact Hfor |]. split; [exact Hc |].
           intros t' Ht' Hc'. apply in_app_iff in Ht'. destruct Ht' as [Ht' | [<- | []]].
           ++ apply Huniq; assumption.
           ++ exfalso. exact (Hnocover h Hh Hc').
        -- exists (Time p). split; [apply in_app_iff; right; left; reflexivity |].
           split; [exact Hgfor |]. split; [exact Hg |].
           intros t' Ht' Hc'. apply in_app_iff in Ht'. destruct Ht' as [Ht' | [<- | []]].
           ++ exfalso. destruct (Hlog t' Ht') as (h & Hh & Hc).
              exact (Hapart h t' Hh Hc Hc').
           ++ reflexivity.
      * exact Hrun.
      * split; [exact H1 |]. split; [exact H2 |]. split.
        { unfold Append in H3. rewrite (Permutation_length (Sort_Permutation _)) in H3.
          rewrite length_app in H3. simpl in *. lia. }
        split; [exact H4 |]. split; [exact H5 |]. split; [| exact H7].
        intros t Ht. destruct (H6 t Ht) as [Hl | (q & Hq & Hqt & Hqm)].
        -- apply in_app_iff in Hl. destruct Hl as [Hl | [<- | []]]; [left; exact Hl |].
           right. exists p. split; [left; reflexivity |]. split; [reflexivity | lia].
        -- right. exists q. split; [right; exact Hq | split; assumption].
Qed.

End GroupsOnce.

(** X8: when the metadata service returns, for a time, a group that contains
    it, and its groups have equal or disjoint intervals, the first loop of
    [MapShards], run against the service with its calls recorded, builds the
    list it builds without the recording; the list holds no group twice and
    no two groups that overlap, and at most one group per point; and
    [CreateShardGroup] is called once per group of the list: there are as
    many calls as groups, no time is asked for twice, every call is for the
    time of a point of the batch that is not before the lower bound, and
    every group is the answer to a call for a time in it and contains the
    time of no other call. *)
Theorem MapShards_asks_for_each_group_once {MS : Type} (mc : MetaClient MS)
    (db rp : string) (min : Z) (points : list Point) (ms ms' : MS) (groups : sgList)
    (asked : list Z) :
  groups_contain_time mc ->
  groups_compatible mc ->
  createGroups (recording mc) db rp min points [] (ms, []) = (inr groups, (ms', asked)) ->
  createGroups mc db rp min points [] ms = (inr groups, ms') /\
  List.NoDup groups /\
  (forall a b, In a groups -> In b groups -> a = b \/ disjoint_groups a b) /\
  (length groups <= length points)%nat /\
  length asked = length groups /\
  List.NoDup asked /\
  (forall t, In t asked -> exists p, In p points /\ Time p = t /\ min <= t) /\
  (forall g, In g groups ->
     exists t, In t asked /\ createdFor mc db rp t g /\ contains g t /\
               forall t', In t' asked -> contains g t' -> t' = t).
Proof.
  intros Hcontain Hcompat Hrun. split.
  { destruct (recording_createGroups mc db rp min points [] ms []) as [Hfst Hsnd].
    rewrite Hrun in Hfst, Hsnd. simpl in Hfst, Hsnd.
    destruct (createGroups mc db rp min points [] ms) as [r s]. simpl in Hfst, Hsnd.
    congruence. }
  destruct (createGroups_recorded mc Hcontain Hcompat db rp min points [] ms []
              groups ms' asked) as (H1 & H2 & H3 & H4 & H5 & H6 & H7);
    [constructor | intros g [] | constructor | intros a b [] | reflexivity | constructor
     | intros t [] | intros g [] | exact Hrun |].
  split; [exact H1 |]. split; [exact H2 |]. split; [exact H3 |].
  split; [exact H4 |]. split; [exact H5 |]. split; [| exact H7].
  intros t Ht. destruct (H6 t Ht) as [[] | Hp]. exact Hp.
Qed.

(** The statement at the example batch: two windows and two calls for four
    points. *)
Lemma MapShards_asks_for_each_group_once_witness :
  createGroups windowMeta "db" "rp" 950 (WPPoints exampleBatch) [] tt
    = (inr [windowGroup 950; windowGroup 1050], tt) /\
  List.NoDup [windowGroup 950; windowGroup 1050] /\
  (forall a b, In a [windowGroup 950; windowGroup 1050] ->
               In b [windowGroup 950; windowGroup 1050] ->
               a = b \/ disjoint_groups a b) /\
  (length [windowGroup 950; windowGroup 1050] <= length (WPPoints exampleBatch))%nat /\
  length [950; 1050] = length [windowGroup 950; windowGroup 1050] /\
  List.NoDup [950; 1050] /\
  (forall t, In t [950; 1050] ->
     exists p, In p (WPPoints exampleBatch) /\ Time p = t /\ 950 <= t) /\
  (forall g, In g [windowGroup 950; windowGroup 1050] ->
     exists t, In t [950; 1050] /\ createdFor windowMeta "db" "rp" t g /\ contains g t /\
               forall t', In t' [950; 1050] -> contains g t' -> t' = t).
Proof.
  apply (MapShards_asks_for_each_group_once windowMeta "db" "rp" 950
           (WPPoints exampleBatch) tt tt [windowGroup 950; windowGroup 1050] [950; 1050]
           windowMeta_contain windowMeta_compatible).
  vm_compute. reflexivity.
Defined.

(** ** [writeToShard]: interruptions, early return, one result per owner *)

Lemma collect_interrupted (req : Z) (rs : list AsyncWriteResult) :
  forall (owners : list ShardOwner) (tail : list SelectCase)
         (wrote : Z) (werr : option error) (rcv : nat),
    (length rs < length owners)%nat ->
    wrote + successes (List.map Err rs) < req ->
    startsWithResult tail = false ->
    collect req owners (List.map CaseResult rs ++ tail) wrote werr rcv
    = ((rcv + length rs)%nat, interruption tail).
Proof.
  induction rs as [| r rs IH]; intros owners tail wrote werr rcv Hlen Hs Htail.
  - destruct owners as [| o owners]; [simpl in Hlen; lia |].
    simpl. rewrite Nat.add_0_r.
    destruct tail as [| [| | x] tail]; try reflexivity. discriminate.
  - destruct owners as [| o owners]; [simpl in Hlen; lia |].
    simpl in Hlen. cbn [List.map app collect].
    destruct (Err r) as [e |] eqn:He.
    + cbn [List.map] in Hs. rewrite He, successes_cons_err in Hs.
      rewrite IH by (auto; lia). f_equal. simpl. lia.
    + cbn [List.map] in Hs. rewrite He, successes_cons_nil in Hs.
      pose proof (successes_nonneg (List.map Err rs)).
      destruct (wrote + 1 >=? req) eqn:E; [lia |].
      rewrite IH by (auto; lia). f_equal. simpl. lia.
Qed.

(** X9: when the timer fires or the shutdown is signalled before every owner
    has answered and before the required count is reached, [writeToShard]
    stops receiving and returns the timeout error for the timer (also when no
    further result ever arrives) and the write-failed error for the shutdown,
    whatever results it has counted: successes already received do not turn
    the error into a partial write. *)
Theorem writeToShard_interrupted (nodeID : N) (shard : ShardInfo)
    (database retentionPolicy : string) (consistency : ConsistencyLevel)
    (points : list Point) (rs : list AsyncWriteResult) (tail : list SelectCase) :
  (length rs < length (Owners shard))%nat ->
  successes (List.map Err rs) < required consistency (Owners shard) ->
  startsWithResult tail = false ->
  let r := writeToShard nodeID shard database retentionPolicy consistency points
             (List.map CaseResult rs ++ tail) in
  returned r = interruption tail /\ received r = length rs.
Proof.
  intros Hlen Hs Htail. cbv zeta. unfold writeToShard.
  rewrite (collect_interrupted (required consistency (Owners shard)) rs (Owners shard)
             tail 0 None 0%nat Hlen ltac:(lia) Htail).
  split; reflexivity.
Qed.

(** The statement at the example shard at the level all: one success, then
    the timer. *)
Lemma writeToShard_interrupted_witness :
  returned (writeToShard 1 exampleShard "db" "rp" ConsistencyLevelAll examplePoints
              timeoutSel) = Some ErrTimeout /\
  received (writeToShard 1 exampleShard "db" "rp" ConsistencyLevelAll examplePoints
              timeoutSel) = 1%nat.
Proof.
  apply (writeToShard_interrupted 1 exampleShard "db" "rp" ConsistencyLevelAll
           examplePoints [mkAsyncWriteResult (mkShardOwner 1) None]
           [CaseTimeout; CaseResult (mkAsyncWriteResult (mkShardOwner 2) None)]);
    [simpl; lia | vm_compute; reflexivity | reflexivity].
Defined.

Lemma collect_received_bound (req : Z) (owners : list ShardOwner) :
  forall (sel : list SelectCase) (wrote : Z) (werr : option error) (rcv : nat),
    (rcv <= fst (collect req owners sel wrote werr rcv) <= rcv + length owners)%nat /\
    (fst (collect req owners sel wrote werr rcv) <= rcv + length sel)%nat.
Proof.
  induction owners as [| o owners IH]; intros sel wrote werr rcv; simpl.
  - destruct (wrote >? 0); [simpl; lia |]. destruct werr; simpl; lia.
  - destruct sel as [| [| | r] sel']; simpl; try lia.
    destruct (Err r).
    + specialize (IH sel' wrote (match werr with None => Some e | Some _ => werr end)
                     (S rcv)). lia.
    + destruct (wrote + 1 >=? req); simpl; [lia |].
      specialize (IH sel' (wrote + 1) werr (S rcv)). lia.
Qed.

Lemma collect_success (req : Z) (owners : list ShardOwner) :
  forall (sel : list SelectCase) (wrote : Z) (werr : option error) (rcv : nat),
    wrote < req ->
    snd (collect req owners sel wrote werr rcv) = None ->
    exists (rs : list AsyncWriteResult) (last : AsyncWriteResult) (rest : list SelectCase),
      sel = List.map CaseResult (rs ++ [last]) ++ rest /\
      Err last = None /\
      wrote + successes (List.map Err rs) = req - 1 /\
      fst (collect req owners sel wrote werr rcv) = (rcv + S (length rs))%nat.
Proof.
  induction owners as [| o owners IH]; intros sel wrote werr rcv Hlt; simpl.
  - destruct (wrote >? 0); [discriminate |]. destruct werr; discriminate.
  - destruct sel as [| [| | r] sel']; simpl; try discriminate.
    destruct (Err r) as [e |] eqn:He.
    + intros Hnone.
      destruct (IH sel' wrote _ (S rcv) Hlt Hnone) as (rs & last & rest & -> & Hl & Hs & Hr).
      exists (r :: rs), last, rest. simpl. rewrite He, successes_cons_err.
      repeat split; auto. rewrite Hr. lia.
    + destruct (wrote + 1 >=? req) eqn:E; simpl.
      * intros _. exists [], r, sel'. unfold successes. simpl.
        repeat split; auto; lia.
      * intros Hnone.
        destruct (IH sel' (wrote + 1) werr (S rcv) ltac:(lia) Hnone)
          as (rs & last & rest & -> & Hl & Hs & Hr).
        exists (r :: rs), last, rest. simpl. rewrite He, successes_cons_nil.
        repeat split; auto; [lia | rewrite Hr; lia].
Qed.

(** X10: [writeToShard] receives at most one result per owner; when it
    returns nil, the last result it received has a nil error and completes
    the required count, and the results that come after it are not
    received. *)
Theorem writeToShard_returns_at_required_count (nodeID : N) (shard : ShardInfo)
    (database retentionPolicy : string) (consistency : ConsistencyLevel)
    (points : list Point) (sel : list SelectCase) :
  let r := writeToShard nodeID shard database retentionPolicy consistency points sel in
  (received r <= length (Owners shard))%nat /\
  (received r <= length sel)%nat /\
  (returned r = None ->
   exists (rs : list AsyncWriteResult) (last : AsyncWriteResult) (rest : list SelectCase),
     sel = List.map CaseResult (rs ++ [last]) ++ rest /\
     Err last = None /\
     successes (List.map Err rs) = required consistency (Owners shard) - 1 /\
     received r = S (length rs)).
Proof.
  cbv zeta. unfold writeToShard.
  pose proof (collect_received_bound (required consistency (Owners shard))
                (Owners shard) sel 0 None 0%nat) as [Hb1 Hb2].
  destruct (collect _ _ _ _ _ _) as [k e] eqn:Ec. cbn [received returned fst snd] in *.
  split; [lia |]. split; [lia |].
  intros ->.
  destruct (Owners shard) as [| o owners] eqn:Eo; [simpl in Ec; discriminate |].
  pose proof (required_pos consistency (o :: owners) ltac:(discriminate)) as Hreq.
  destruct (collect_success (required consistency (o :: owners)) (o :: owners) sel 0 None
              0%nat ltac:(lia) ltac:(rewrite Ec; reflexivity))
    as (rs & last & rest & Hsel & Hl & Hs & Hr).
  exists rs, last, rest. rewrite Ec in Hr. simpl in Hr.
  repeat split; auto; lia.
Qed.

Lemma sends_localAttempt {W : Type} (respond : Call -> W -> option error * W) (w : W)
    (nodeID shardID : N) (owner : ShardOwner) (points : list Point) :
  sends respond w (localAttempt nodeID shardID owner points) = (nodeID =? NodeID owner)%N.
Proof.
  unfold sends, localAttempt. destruct (nodeID =? NodeID owner)%N; simpl; [| reflexivity].
  destruct (fst (respond _ w)); reflexivity.
Qed.

Lemma sends_remoteAttempt {W : Type} (respond : Call -> W -> option error * W) (w : W)
    (nodeID : N) (consistency : ConsistencyLevel) (shardID : N) (owner : ShardOwner)
    (points : list Point) :
  sends respond w (remoteAttempt nodeID consistency shardID owner points)
  = negb (nodeID =? NodeID owner)%N.
Proof.
  unfold sends, remoteAttempt. destruct (nodeID =? NodeID owner)%N; simpl; [reflexivity |].
  destruct (fst (respond _ w)) as [e |]; simpl; [| reflexivity].
  destruct (isRetryable (Some e)); simpl; [| reflexivity].
  destruct (fst (respond _ _)); simpl; [reflexivity |].
  destruct consistency; reflexivity.
Qed.

(** X11: [writeToShard] starts two goroutines per owner, and whatever the
    collaborators answer, exactly one of the two sends a result: the number
    of results sent is the number of owners, the capacity of the channel. *)
Theorem writeToShard_one_result_per_owner {W : Type}
    (respond : Call -> W -> option error * W) (w : W)
    (nodeID : N) (shard : ShardInfo) (database retentionPolicy : string)
    (consistency : ConsistencyLevel) (points : list Point) (sel : list SelectCase) :
  let gs := goroutines (writeToShard nodeID shard database retentionPolicy
                          consistency points sel) in
  length gs = (2 * length (Owners shard))%nat /\
  length (List.filter (sends respond w) gs) = length (Owners shard).
Proof.
  cbv zeta. unfold writeToShard.
  destruct (collect _ _ _ _ _ _) as [k e]. cbn [goroutines].
  induction (Owners shard) as [| o owners IH]; [split; reflexivity |].
  destruct IH as [IH1 IH2]. cbn [List.flat_map app length List.filter].
  rewrite sends_localAttempt, sends_remoteAttempt.
  split; [rewrite IH1; lia |].
  destruct (nodeID =? NodeID o)%N; simpl; rewrite IH2; reflexivity.
Qed.

(** The statement at a schedule in which the second result completes a quorum
    of two: the third result is not received. *)
Lemma writeToShard_returns_at_required_count_witness :
  exists (rs : list AsyncWriteResult) (last : AsyncWriteResult) (rest : list SelectCase),
    quorumSel = List.map CaseResult (rs ++ [last]) ++ rest /\
    Err last = None /\
    successes (List.map Err rs) = required ConsistencyLevelQuorum (Owners exampleShard) - 1 /\
    received (writeToShard 1 exampleShard "db" "rp" ConsistencyLevelQuorum examplePoints
                quorumSel) = S (length rs).
Proof.
  apply (proj2 (proj2 (writeToShard_returns_at_required_count 1 exampleShard "db" "rp"
                         ConsistencyLevelQuorum examplePoints quorumSel))).
  reflexivity.
Defined.

Lemma goroutine_cases (nodeID : N) (shard : ShardInfo) (database retentionPolicy : string)
    (consistency : ConsistencyLevel) (points : list Point) (sel : list SelectCase)
    (g : Prog (option AsyncWriteResult)) :
  In g (goroutines (writeToShard nodeID shard database retentionPolicy consistency
                      points sel)) ->
  exists owner,
    In owner (Owners shard) /\
    (g = localAttempt nodeID (ShardID shard) owner points \/
     g = remoteAttempt nodeID consistency (ShardID shard) owner points).
Proof.
  unfold writeToShard. destruct (collect _ _ _ _ _ _) as [k e]. cbn [goroutines].
  intros Hg. apply in_flat_map in Hg. destruct Hg as [owner [Ho Hin]].
  exists owner. split; [exact Ho |].
  simpl in Hin. destruct Hin as [<- | [<- | []]]; [left | right]; reflexivity.
Qed.

(** X12: whatever the collaborators answer, a goroutine of [writeToShard]
    makes no call, or writes the points to the local store when its owner is
    the local node, or, when its owner is another node, sends them to that
    node through the shard writer, followed at most by one hinted handoff for
    the same node; it never creates a shard. *)
Theorem writeToShard_goroutine_calls {W : Type}
    (respond : Call -> W -> option error * W) (w : W)
    (nodeID : N) (shard : ShardInfo) (database retentionPolicy : string)
    (consistency : ConsistencyLevel) (points : list Point) (sel : list SelectCase)
    (g : Prog (option AsyncWriteResult)) :
  In g (goroutines (writeToShard nodeID shard database retentionPolicy consistency
                      points sel)) ->
  exists owner,
    In owner (Owners shard) /\
    let cs := calls (snd (run respond g w)) in
    cs = [] \/
    (nodeID = NodeID owner /\ cs = [TSDBStore_WriteToShard (ShardID shard) points]) \/
    (nodeID <> NodeID owner /\
     (cs = [ShardWriter_WriteShard (ShardID shard) (NodeID owner) points] \/
      cs = [ShardWriter_WriteShard (ShardID shard) (NodeID owner) points;
            HintedHandoff_WriteShard (ShardID shard) (NodeID owner) points])).
Proof.
  intros Hg. destruct (goroutine_cases _ _ _ _ _ _ _ _ Hg) as (owner & Ho & Hcase).
  exists owner. split; [exact Ho |]. cbv zeta.
  destruct (N.eqb_spec nodeID (NodeID owner)) as [Heq | Hne];
    destruct Hcase as [-> | ->]; unfold localAttempt, remoteAttempt.
  - rewrite (proj2 (N.eqb_eq _ _) Heq). cbn [negb run fst snd].
    right. left. split; [exact Heq |].
    destruct (fst (respond _ w)); reflexivity.
  - rewrite (proj2 (N.eqb_eq _ _) Heq). left. reflexivity.
  - rewrite (proj2 (N.eqb_neq _ _) Hne). left. reflexivity.
  - rewrite (proj2 (N.eqb_neq _ _) Hne). cbn [negb run fst snd].
    right. right. split; [exact Hne |].
    destruct (fst (respond _ w)) as [e |]; cbn [is_nil negb andb]; [| left; reflexivity].
    destruct (isRetryable (Some e)); [| left; reflexivity].
    right. cbn [run fst snd].
    destruct (fst (respond _ _)); cbn [is_nil negb andb]; [reflexivity |].
    destruct consistency; reflexivity.
Qed.

(** The statement at the remote goroutine of the second owner of the example
    shard. *)
Lemma writeToShard_goroutine_calls_witness :
  exists owner,
    In owner (Owners exampleShard) /\
    let cs := calls (snd (run exampleRespond
                            (remoteAttempt 1 ConsistencyLevelOne 7 (mkShardOwner 2)
                               examplePoints) 0%nat)) in
    cs = [] \/
    (1%N = NodeID owner /\ cs = [TSDBStore_WriteToShard (ShardID exampleShard) examplePoints]) \/
    (1%N <> NodeID owner /\
     (cs = [ShardWriter_WriteShard (ShardID exampleShard) (NodeID owner) examplePoints] \/
      cs = [ShardWriter_WriteShard (ShardID exampleShard) (NodeID owner) examplePoints;
            HintedHandoff_WriteShard (ShardID exampleShard) (NodeID owner) examplePoints])).
Proof.
  apply (writeToShard_goroutine_calls exampleRespond 0%nat 1 exampleShard "db" "rp"
           ConsistencyLevelOne examplePoints []
           (remoteAttempt 1 ConsistencyLevelOne 7 (mkShardOwner 2) examplePoints)).
  vm_compute. right. right. right. left. reflexivity.
Defined.

(** ** [WritePoints] *)

Lemma collectBatch_nil (results : N -> option (option error)) (k : nat) :
  forall (arrivals : list BatchCase) (got0 : list N),
    snd (collectBatch results k arrivals got0) = Some None ->
    exists new rest,
      fst (collectBatch results k arrivals got0) = got0 ++ new /\
      arrivals = List.map BatchResult new ++ rest /\
      length new = k /\
      List.NoDup new /\
      (forall id, In id new -> results id = Some None /\ ~ In id got0).
Proof.
  induction k as [| k IH]; intros arrivals got0; simpl.
  - intros _. exists [], arrivals. rewrite app_nil_r.
    split; [reflexivity |]. split; [reflexivity |]. split; [reflexivity |].
    split; [constructor | intros id []].
  - destruct arrivals as [| [| id] rest]; simpl; try discriminate.
    destruct (existsb (N.eqb id) got0) eqn:Eseen; [discriminate |].
    destruct (results id) as [[e |] |] eqn:Eres; try discriminate.
    intros Hnil. destruct (IH rest (got0 ++ [id]) Hnil) as (new & rest' & Hg & -> & Hl & Hnd & Hall).
    exists (id :: new), rest'. rewrite Hg, <- app_assoc. simpl.
    assert (Hfresh : ~ In id got0).
    { intros Hin. assert (existsb (N.eqb id) got0 = true); [| congruence].
      apply existsb_exists. exists id. split; [exact Hin | apply N.eqb_refl]. }
    split; [reflexivity |]. split; [reflexivity |]. split; [simpl; lia |]. split.
    + constructor; [| exact Hnd]. intros Hin. destruct (Hall id Hin) as [_ Hn].
      apply Hn. apply in_or_app. right. left. reflexivity.
    + intros id0 [<- | Hin]; [split; [exact Eres | exact Hfresh] |].
      destruct (Hall id0 Hin) as [Hr Hn]. split; [exact Hr |].
      intros Hin0. apply Hn. apply in_or_app. left. exact Hin0.
Qed.

Lemma collectBatch_prefix (results : N -> option (option error)) (ids : list N) :
  forall (k : nat) (tail : list BatchCase) (got0 : list N),
    (length ids <= k)%nat ->
    List.NoDup ids ->
    (forall id, In id ids -> results id = Some None /\ ~ In id got0) ->
    collectBatch results k (List.map BatchResult ids ++ tail) got0
    = collectBatch results (k - length ids) tail (got0 ++ ids).
Proof.
  induction ids as [| id ids IH]; intros k tail got0 Hk Hnd Hall.
  - simpl. rewrite Nat.sub_0_r, app_nil_r. reflexivity.
  - destruct k as [| k]; [simpl in Hk; lia |]. simpl in Hk.
    apply List.NoDup_cons_iff in Hnd. destruct Hnd as [Hnotin Hnd].
    destruct (Hall id ltac:(left; reflexivity)) as [Hres Hfresh].
    cbn [List.map app collectBatch].
    assert (Eseen : existsb (N.eqb id) got0 = false).
    { destruct (existsb (N.eqb id) got0) eqn:E; [| reflexivity].
      apply existsb_exists in E. destruct E as (x & Hx & Ex).
      apply N.eqb_eq in Ex. subst x. contradiction. }
    rewrite Eseen, Hres.
    rewrite IH; [| lia | exact Hnd |].
    + rewrite <- app_assoc. reflexivity.
    + intros id' Hin. split; [apply Hall; right; exact Hin |].
      intros Hin'. apply in_app_or in Hin'. destruct Hin' as [Hin' | [<- | []]].
      * destruct (Hall id' ltac:(right; exact Hin)) as [_ Hn]. contradiction.
      * contradiction.
Qed.

Lemma bucket_ids_size (m : gmap N slice) (ids : list N) :
  List.NoDup ids ->
  (forall id, In id ids -> is_Some (m !! id)) ->
  (length ids <= size m)%nat /\
  (length ids = size m -> forall id, is_Some (m !! id) -> In id ids).
Proof.
  intros Hnd Hall.
  assert (Hnd' : NoDup ids) by (apply NoDup_ListNoDup; exact Hnd).
  assert (Hsub : list_to_set (C := gset N) ids ⊆ dom m).
  { intros id Hin. apply elem_of_list_to_set, list_elem_of_In in Hin.
    apply elem_of_dom. apply Hall. exact Hin. }
  pose proof (subseteq_size _ _ Hsub) as Hsz.
  rewrite size_list_to_set, size_dom in Hsz by exact Hnd'.
  split; [exact Hsz |].
  intros Heq id Hid.
  assert (Heqs : list_to_set (C := gset N) ids = dom m).
  { apply set_subseteq_size_eq; [exact Hsub |].
    rewrite size_list_to_set, size_dom by exact Hnd'. lia. }
  apply list_elem_of_In. apply (elem_of_list_to_set (C := gset N)).
  rewrite Heqs. apply elem_of_dom. exact Hid.
Qed.

Section WritePointsFacts.

Variable growslice : nat -> nat -> nat.
Variable ShardFor : ShardGroupInfo -> N -> ShardInfo.
Variable ErrDatabaseNotFound : string -> error.
Context {MS : Type}.
Variable mc : MetaClient MS.
Variable MetaDatabase : string -> MS -> option DatabaseInfo * MS.

(** Once the policy is resolved and the mapping made, [WritePoints] is its
    collecting loop over the buckets. *)
Lemma WritePoints_collect (nodeID : N) (now : Z) (database retentionPolicy : string)
    (c : ConsistencyLevel) (points : list Point) (sels : N -> list SelectCase)
    (arrivals : list BatchCase) (ms ms0 ms1 : MS) (rp : string) (m : ShardMapping) :
  resolvePolicy ErrDatabaseNotFound MetaDatabase database retentionPolicy ms = (inr rp, ms0) ->
  MapShards growslice ShardFor mc now (mkWritePointsRequest database rp points) ms0
    = (inr m, ms1) ->
  WritePoints growslice ShardFor ErrDatabaseNotFound mc MetaDatabase nodeID now database
    retentionPolicy c points sels arrivals ms
  = ({| started := shardWrites m;
        got := fst (collectBatch (shardWriteResult nodeID database rp c sels m)
                      (size (Points m)) arrivals []);
        wpReturned := snd (collectBatch (shardWriteResult nodeID database rp c sels m)
                             (size (Points m)) arrivals []) |}, ms1).
Proof.
  intros Hres Hmap. unfold WritePoints. rewrite Hres, Hmap.
  destruct (collectBatch _ _ _ _). reflexivity.
Qed.

Lemma WritePoints_cases (nodeID : N) (now : Z) (database retentionPolicy : string)
    (c : ConsistencyLevel) (points : list Point) (sels : N -> list SelectCase)
    (arrivals : list BatchCase) (ms : MS) :
  let out := WritePoints growslice ShardFor ErrDatabaseNotFound mc MetaDatabase nodeID now
               database retentionPolicy c points sels arrivals ms in
  (started (fst out) = [] /\ got (fst out) = [] /\
   exists e, wpReturned (fst out) = Some (Some e)) \/
  (exists rp ms0 m,
     resolvePolicy ErrDatabaseNotFound MetaDatabase database retentionPolicy ms
       = (inr rp, ms0) /\
     MapShards growslice ShardFor mc now (mkWritePointsRequest database rp points) ms0
       = (inr m, snd out)).
Proof.
  cbv zeta.
  destruct (resolvePolicy ErrDatabaseNotFound MetaDatabase database retentionPolicy ms)
    as [[e | rp] ms0] eqn:Hres.
  - left. unfold WritePoints. rewrite Hres. simpl. eauto.
  - destruct (MapShards growslice ShardFor mc now
                (mkWritePointsRequest database rp points) ms0) as [[e | m] ms1] eqn:Hmap.
    + left. unfold WritePoints. rewrite Hres, Hmap. simpl. eauto.
    + right. exists rp, ms0, m. split; [reflexivity |].
      rewrite (WritePoints_collect _ _ _ _ _ _ _ _ _ _ _ _ _ Hres Hmap). exact Hmap.
Qed.

End WritePointsFacts.

Lemma writeToShard_returned (nodeID : N) (shard : ShardInfo) (db rp : string)
    (c : ConsistencyLevel) (points : list Point) (sel : list SelectCase) :
  returned (writeToShard nodeID shard db rp c points sel)
  = snd (collect (required c (Owners shard)) (Owners shard) sel 0 None 0).
Proof. unfold writeToShard. destruct (collect _ _ _ _ _ _). reflexivity. Qed.

Lemma writeToShard_nil_acknowledged (nodeID : N) (shard : ShardInfo) (db rp : string)
    (c : ConsistencyLevel) (points : list Point) (sel : list SelectCase) :
  returned (writeToShard nodeID shard db rp c points sel) = None ->
  Owners shard <> [] /\
  required c (Owners shard) <= successes (arrived (length (Owners shard)) sel).
Proof.
  rewrite writeToShard_returned. intros Hnil.
  assert (Hne : Owners shard <> []).
  { intros E. rewrite E in Hnil. simpl in Hnil. discriminate. }
  split; [exact Hne |].
  pose proof (required_pos c (Owners shard) Hne) as Hreq.
  destruct (collect_spec (required c (Owners shard)) (Owners shard) sel 0 None 0
              ltac:(lia)) as [Hiff _].
  cbv zeta in Hiff. rewrite Z.add_0_l in Hiff. apply Hiff. exact Hnil.
Qed.

(** X13: when [WritePoints] returns nil, the policy was resolved and the
    mapping made, the result of every bucket was received, once each, and for
    every bucket the shard has owners and the write to it counted at least
    the required number of nil results before any timeout or shutdown. *)
Theorem WritePoints_nil_all_shards_acknowledged (growslice : nat -> nat -> nat)
    (ShardFor : ShardGroupInfo -> N -> ShardInfo) (ErrDatabaseNotFound : string -> error)
    {MS : Type} (mc : MetaClient MS)
    (MetaDatabase : string -> MS -> option DatabaseInfo * MS)
    (nodeID : N) (now : Z) (database retentionPolicy : string)
    (c : ConsistencyLevel) (points : list Point) (sels : N -> list SelectCase)
    (arrivals : list BatchCase) (ms : MS) :
  let out := WritePoints growslice ShardFor ErrDatabaseNotFound mc MetaDatabase nodeID now
               database retentionPolicy c points sels arrivals ms in
  wpReturned (fst out) = Some None ->
  exists rp ms0 m,
    resolvePolicy ErrDatabaseNotFound MetaDatabase database retentionPolicy ms
      = (inr rp, ms0) /\
    MapShards growslice ShardFor mc now (mkWritePointsRequest database rp points) ms0
      = (inr m, snd out) /\
    List.NoDup (got (fst out)) /\
    (forall id, In id (got (fst out)) <-> is_Some (Points m !! id)) /\
    (forall id s, Points m !! id = Some s ->
       exists sh, ShardsOf m !! id = Some sh /\
                  Owners sh <> [] /\
                  required c (Owners sh)
                  <= successes (arrived (length (Owners sh)) (sels id))).
Proof.
  cbv zeta. intros Hnil.
  destruct (WritePoints_cases growslice ShardFor ErrDatabaseNotFound mc MetaDatabase
              nodeID now database retentionPolicy c points sels arrivals ms)
    as [(_ & _ & e & He) | (rp & ms0 & m & Hres & Hmap)]; [congruence |].
  exists rp, ms0, m. split; [exact Hres |]. split; [exact Hmap |].
  remember (snd (WritePoints growslice ShardFor ErrDatabaseNotFound mc MetaDatabase nodeID
                   now database retentionPolicy c points sels arrivals ms)) as ms1.
  clear Heqms1.
  rewrite (WritePoints_collect _ _ _ _ _ _ _ _ _ _ _ _ _ _ _ _ _ _ Hres Hmap) in Hnil |- *.
  cbn [fst wpReturned got] in *.
  destruct (collectBatch_nil _ _ _ _ Hnil) as (new & rest & Hg & _ & Hlen & Hnd & Hall).
  rewrite Hg. cbn [app].
  assert (Hsome : forall id, In id new -> is_Some (Points m !! id)).
  { intros id Hin. destruct (Hall id Hin) as [Hr _]. unfold shardWriteResult in Hr.
    destruct (Points m !! id); [eexists; reflexivity | discriminate]. }
  destruct (bucket_ids_size (Points m) new Hnd Hsome) as [_ Hfull].
  specialize (Hfull Hlen).
  split; [exact Hnd |]. split; [split; [apply Hsome | apply Hfull] |].
  intros id s Hs.
  destruct (Hall id (Hfull id ltac:(eexists; exact Hs))) as [Hr _].
  unfold shardWriteResult in Hr. rewrite Hs in Hr.
  destruct (ShardsOf m !! id) as [sh |]; [| discriminate].
  exists sh. split; [reflexivity |].
  injection Hr as Hr. apply (writeToShard_nil_acknowledged _ _ _ _ _ _ _ Hr).
Qed.

(** The statement at the example batch, both buckets answering nil. *)
Lemma WritePoints_nil_all_shards_acknowledged_witness :
  exists rp ms0 m,
    resolvePolicy exampleErrDatabaseNotFound exampleDatabase "db" "" tt = (inr rp, ms0) /\
    MapShards exampleGrowslice exampleShardFor windowMeta 1000
      (mkWritePointsRequest "db" rp (WPPoints exampleBatch)) ms0
      = (inr m, snd (WritePoints exampleGrowslice exampleShardFor exampleErrDatabaseNotFound
                       windowMeta exampleDatabase 1 1000 "db" "" ConsistencyLevelOne
                       (WPPoints exampleBatch) exampleSels [BatchResult 2; BatchResult 1] tt)) /\
    List.NoDup (got (fst (WritePoints exampleGrowslice exampleShardFor
                            exampleErrDatabaseNotFound windowMeta exampleDatabase 1 1000
                            "db" "" ConsistencyLevelOne (WPPoints exampleBatch) exampleSels
                            [BatchResult 2; BatchResult 1] tt))) /\
    (forall id,
       In id (got (fst (WritePoints exampleGrowslice exampleShardFor
                          exampleErrDatabaseNotFound windowMeta exampleDatabase 1 1000
                          "db" "" ConsistencyLevelOne (WPPoints exampleBatch) exampleSels
                          [BatchResult 2; BatchResult 1] tt)))
       <-> is_Some (Points m !! id)) /\
    (forall id s, Points m !! id = Some s ->
       exists sh, ShardsOf m !! id = Some sh /\
                  Owners sh <> [] /\
                  required ConsistencyLevelOne (Owners sh)
                  <= successes (arrived (length (Owners sh)) (exampleSels id))).
Proof.
  apply (WritePoints_nil_all_shards_acknowledged exampleGrowslice exampleShardFor
           exampleErrDatabaseNotFound windowMeta exampleDatabase 1 1000 "db" ""
           ConsistencyLevelOne (WPPoints exampleBatch) exampleSels
           [BatchResult 2; BatchResult 1] tt).
  vm_compute. reflexivity.
Defined.

(** X14: once the policy is resolved and the mapping made, after nil results
    from distinct buckets [WritePoints] returns the first error it receives
    and receives nothing after it; it returns the write-failed error when
    the shutdown is signalled while a bucket is outstanding; it returns nil
    as soon as every bucket has answered nil, whatever follows; and it keeps
    waiting when nothing further arrives. *)
Theorem WritePoints_returns_first_failure (growslice : nat -> nat -> nat)
    (ShardFor : ShardGroupInfo -> N -> ShardInfo) (ErrDatabaseNotFound : string -> error)
    {MS : Type} (mc : MetaClient MS)
    (MetaDatabase : string -> MS -> option DatabaseInfo * MS)
    (nodeID : N) (now : Z) (database retentionPolicy : string)
    (c : ConsistencyLevel) (points : list Point) (sels : N -> list SelectCase)
    (ms ms0 ms1 : MS) (rp : string) (m : ShardMapping)
    (ids : list N) (tail : list BatchCase) :
  resolvePolicy ErrDatabaseNotFound MetaDatabase database retentionPolicy ms = (inr rp, ms0) ->
  MapShards growslice ShardFor mc now (mkWritePointsRequest database rp points) ms0
    = (inr m, ms1) ->
  List.NoDup ids ->
  (forall id, In id ids -> shardWriteResult nodeID database rp c sels m id = Some None) ->
  let run := fst (WritePoints growslice ShardFor ErrDatabaseNotFound mc MetaDatabase nodeID
                    now database retentionPolicy c points sels
                    (List.map BatchResult ids ++ tail) ms) in
  (forall id e rest,
     tail = BatchResult id :: rest -> ~ In id ids ->
     shardWriteResult nodeID database rp c sels m id = Some (Some e) ->
     wpReturned run = Some (Some e) /\ got run = ids ++ [id]) /\
  (forall rest,
     tail = BatchClosing :: rest -> (length ids < size (Points m))%nat ->
     wpReturned run = Some (Some ErrWriteFailed) /\ got run = ids) /\
  (length ids = size (Points m) -> wpReturned run = Some None /\ got run = ids) /\
  (tail = [] -> (length ids < size (Points m))%nat ->
   wpReturned run = None /\ got run = ids).
Proof.
  intros Hres Hmap Hnd Hall. cbv zeta.
  rewrite (WritePoints_collect _ _ _ _ _ _ _ _ _ _ _ _ _ _ _ _ _ _ Hres Hmap).
  cbn [fst wpReturned got].
  assert (Hsome : forall id, In id ids -> is_Some (Points m !! id)).
  { intros id Hin. specialize (Hall id Hin). unfold shardWriteResult in Hall.
    destruct (Points m !! id); [eexists; reflexivity | discriminate]. }
  destruct (bucket_ids_size (Points m) ids Hnd Hsome) as [Hle _].
  rewrite (collectBatch_prefix _ ids (size (Points m)) tail [] Hle Hnd)
    by (intros id Hin; split; [apply Hall; exact Hin | intros []]).
  cbn [app].
  split; [| split; [| split]].
  - intros id e rest -> Hfresh Hres_id.
    assert (Hlt : (length (ids ++ [id]) <= size (Points m))%nat).
    { apply bucket_ids_size.
      - apply (Permutation_NoDup (l := id :: ids));
          [apply Permutation_cons_append | constructor; assumption].
      - intros x Hx. apply in_app_or in Hx. destruct Hx as [Hx | [<- | []]];
          [apply Hsome; exact Hx |].
        unfold shardWriteResult in Hres_id.
        destruct (Points m !! id); [eexists; reflexivity | discriminate]. }
    rewrite length_app in Hlt. simpl in Hlt.
    destruct (size (Points m) - length ids)%nat as [| k] eqn:Ek; [lia |].
    cbn [collectBatch].
    assert (Eseen : existsb (N.eqb id) ids = false).
    { destruct (existsb (N.eqb id) ids) eqn:E; [| reflexivity].
      apply existsb_exists in E. destruct E as (x & Hx & Ex).
      apply N.eqb_eq in Ex. subst x. contradiction. }
    rewrite Eseen, Hres_id. split; reflexivity.
  - intros rest -> Hlt.
    destruct (size (Points m) - length ids)%nat as [| k] eqn:Ek; [lia |].
    split; reflexivity.
  - intros Heq. rewrite Heq, Nat.sub_diag. split; reflexivity.
  - intros -> Hlt.
    destruct (size (Points m) - length ids)%nat as [| k] eqn:Ek; [lia |].
    split; reflexivity.
Qed.

Lemma exampleBatch_resolved :
  resolvePolicy exampleErrDatabaseNotFound exampleDatabase "db" "" tt = (inr "rp", tt) /\
  MapShards exampleGrowslice exampleShardFor windowMeta 1000
    (mkWritePointsRequest "db" "rp" (WPPoints exampleBatch)) tt = (inr exampleMapping, tt).
Proof. split; vm_compute; reflexivity. Qed.

(** The statement at the example batch, when shard 1 answers nil and the
    write to shard 2 times out. *)
Lemma WritePoints_returns_first_failure_witness :
  let run := fst (WritePoints exampleGrowslice exampleShardFor exampleErrDatabaseNotFound
                    windowMeta exampleDatabase 1 1000 "db" "" ConsistencyLevelOne
                    (WPPoints exampleBatch) failingSels
                    (List.map BatchResult [1%N] ++ [BatchResult 2]) tt) in
  (forall id e rest,
     [BatchResult 2] = BatchResult id :: rest -> ~ In id [1%N] ->
     shardWriteResult 1 "db" "rp" ConsistencyLevelOne failingSels exampleMapping id
       = Some (Some e) ->
     wpReturned run = Some (Some e) /\ got run = [1%N] ++ [id]) /\
  (forall rest,
     [BatchResult 2] = BatchClosing :: rest ->
     (length [1%N] < size (Points exampleMapping))%nat ->
     wpReturned run = Some (Some ErrWriteFailed) /\ got run = [1%N]) /\
  (length [1%N] = size (Points exampleMapping) ->
   wpReturned run = Some None /\ got run = [1%N]) /\
  ([BatchResult 2] = [] -> (length [1%N] < size (Points exampleMapping))%nat ->
   wpReturned run = None /\ got run = [1%N]).
Proof.
  apply (WritePoints_returns_first_failure exampleGrowslice exampleShardFor
           exampleErrDatabaseNotFound windowMeta exampleDatabase 1 1000 "db" ""
           ConsistencyLevelOne (WPPoints exampleBatch) failingSels tt tt tt "rp"
           exampleMapping [1%N] [BatchResult 2]
           (proj1 exampleBatch_resolved) (proj2 exampleBatch_resolved)).
  - repeat constructor. intros [].
  - intros id [<- | []]. vm_compute. reflexivity.
Defined.

(** X15: when the policy is resolved and found and every point of the batch
    is before the lower bound (in particular when the batch is empty),
    [WritePoints] starts no shard write, takes no [select] and returns nil,
    whatever is signalled: a batch that is dropped whole is reported as
    written. *)
Theorem WritePoints_nothing_to_write (growslice : nat -> nat -> nat)
    (ShardFor : ShardGroupInfo -> N -> ShardInfo) (ErrDatabaseNotFound : string -> error)
    {MS : Type} (mc : MetaClient MS)
    (MetaDatabase : string -> MS -> option DatabaseInfo * MS)
    (nodeID : N) (now : Z) (database retentionPolicy : string)
    (c : ConsistencyLevel) (points : list Point) (sels : N -> list SelectCase)
    (arrivals : list BatchCase) (ms ms0 ms1 : MS) (rp : string)
    (rpi : RetentionPolicyInfo) :
  resolvePolicy ErrDatabaseNotFound MetaDatabase database retentionPolicy ms = (inr rp, ms0) ->
  MetaRetentionPolicy mc database rp ms0 = ((Some rpi, None), ms1) ->
  (forall p, In p points -> Time p < minTime now rpi) ->
  WritePoints growslice ShardFor ErrDatabaseNotFound mc MetaDatabase nodeID now database
    retentionPolicy c points sels arrivals ms
  = ({| started := []; got := []; wpReturned := Some None |}, ms1).
Proof.
  intros Hres Hrp Hold.
  assert (Hmap : MapShards growslice ShardFor mc now
                   (mkWritePointsRequest database rp points) ms0
                 = (inr (NewShardMapping (Z.of_nat (length points))), ms1)).
  { unfold MapShards. cbn [Database RetentionPolicy WPPoints]. rewrite Hrp.
    rewrite (createGroups_all_before_min mc _ _ _ _ [] ms1 Hold).
    rewrite mapPoints_no_groups. reflexivity. }
  rewrite (WritePoints_collect _ _ _ _ _ _ _ _ _ _ _ _ _ _ _ _ _ _ Hres Hmap).
  reflexivity.
Qed.

(** The statement at a batch of two points older than the bound 950, with
    the shutdown signalled. *)
Lemma WritePoints_nothing_to_write_witness :
  WritePoints exampleGrowslice exampleShardFor exampleErrDatabaseNotFound windowMeta
    exampleDatabase 1 1000 "db" "" ConsistencyLevelAll (WPPoints staleBatch) exampleSels
    [BatchClosing] tt
  = ({| started := []; got := []; wpReturned := Some None |}, tt).
Proof.
  apply (WritePoints_nothing_to_write exampleGrowslice exampleShardFor
           exampleErrDatabaseNotFound windowMeta exampleDatabase 1 1000 "db" ""
           ConsistencyLevelAll (WPPoints staleBatch) exampleSels [BatchClosing]
           tt tt tt "rp" (mkRetentionPolicyInfo "rp" 50)).
  - reflexivity.
  - reflexivity.
  - intros p Hp. simpl in Hp. destruct Hp as [<- | [<- | []]]; vm_compute; reflexivity.
Defined.

(** X16: every shard write that [WritePoints] starts has a shard record, whose
    identifier is the key of the bucket, and a bucket that is not empty and
    holds only points of the batch; it starts one write per bucket, and none
    when the policy cannot be resolved or [MapShards] fails. *)
Theorem WritePoints_started_writes (growslice : nat -> nat -> nat)
    (ShardFor : ShardGroupInfo -> N -> ShardInfo) (ErrDatabaseNotFound : string -> error)
    {MS : Type} (mc : MetaClient MS)
    (MetaDatabase : string -> MS -> option DatabaseInfo * MS)
    (nodeID : N) (now : Z) (database retentionPolicy : string)
    (c : ConsistencyLevel) (points : list Point) (sels : N -> list SelectCase)
    (arrivals : list BatchCase) (ms : MS) :
  let out := WritePoints growslice ShardFor ErrDatabaseNotFound mc MetaDatabase nodeID now
               database retentionPolicy c points sels arrivals ms in
  (forall sw, In sw (started (fst out)) ->
     exists sh, fst sw = Some sh /\
                snd sw <> [] /\
                (forall p, In p (snd sw) -> In p points)) /\
  (forall rp ms0 m,
     resolvePolicy ErrDatabaseNotFound MetaDatabase database retentionPolicy ms
       = (inr rp, ms0) ->
     MapShards growslice ShardFor mc now (mkWritePointsRequest database rp points) ms0
       = (inr m, snd out) ->
     length (started (fst out)) = size (Points m) /\
     forall sw, In sw (started (fst out)) ->
       exists id, fst sw = ShardsOf m !! id /\ snd sw = bucketOf m id /\
                  forall sh, fst sw = Some sh -> ShardID sh = id) /\
  ((exists e, fst (resolvePolicy ErrDatabaseNotFound MetaDatabase database
                     retentionPolicy ms) = inl e) ->
   started (fst out) = []).
Proof.
  cbv zeta.
  assert (Hshape : forall rp ms0 m ms1,
             resolvePolicy ErrDatabaseNotFound MetaDatabase database retentionPolicy ms
               = (inr rp, ms0) ->
             MapShards growslice ShardFor mc now
               (mkWritePointsRequest database rp points) ms0 = (inr m, ms1) ->
             forall sw, In sw (shardWrites m) ->
               exists id s, Points m !! id = Some s /\
                            fst sw = ShardsOf m !! id /\ snd sw = items s).
  { intros rp ms0 m ms1 _ _ sw Hsw. unfold shardWrites in Hsw.
    apply in_map_iff in Hsw. destruct Hsw as ([id s] & <- & Hin).
    apply list_elem_of_In, elem_of_map_to_list in Hin.
    exists id, s. repeat split; auto. }
  split; [| split].
  - intros sw Hsw.
    destruct (WritePoints_cases growslice ShardFor ErrDatabaseNotFound mc MetaDatabase
                nodeID now database retentionPolicy c points sels arrivals ms)
      as [(Hs & _) | (rp & ms0 & m & Hres & Hmap)].
    + rewrite Hs in Hsw. destruct Hsw.
    + remember (snd (WritePoints growslice ShardFor ErrDatabaseNotFound mc MetaDatabase
                       nodeID now database retentionPolicy c points sels arrivals ms))
        as ms1. clear Heqms1.
      rewrite (WritePoints_collect _ _ _ _ _ _ _ _ _ _ _ _ _ _ _ _ _ _ Hres Hmap) in Hsw.
      cbn [fst started] in Hsw.
      destruct (Hshape rp ms0 m ms1 Hres Hmap sw Hsw) as (id & s & Hs & Hf & Hp).
      destruct (MapShards_inr _ _ _ _ _ _ _ _ Hmap) as (rpi & ms' & groups & _ & _ & Hm).
      cbn [WPPoints] in Hm.
      assert (Hkeys : mapping_keys_inv m).
      { rewrite Hm. apply mapPoints_keys. intros id0. simpl. rewrite !lookup_empty.
        split; [tauto |]. split; intros x Hx; discriminate. }
      destruct (Hkeys id) as (Hk & Hne & _).
      destruct (ShardsOf m !! id) as [sh |] eqn:Esh.
      * exists sh. split; [exact Hf |]. split; [rewrite Hp; apply Hne; exact Hs |].
        intros p Hin. rewrite Hp in Hin.
        assert (Hb : bucketOf m id = items s)
          by (unfold bucketOf, index_slice; rewrite Hs; reflexivity).
        rewrite <- Hb, Hm in Hin.
        rewrite (mapPoints_buckets growslice ShardFor groups points _ 0%nat
                   (mapping_inv_NewShardMapping _)) in Hin by (simpl; lia).
        simpl in Hin. apply filter_In in Hin. apply Hin.
      * exfalso. destruct Hk as [_ Hk]. rewrite (Hk eq_refl) in Hs. discriminate.
  - intros rp ms0 m Hres Hmap.
    remember (snd (WritePoints growslice ShardFor ErrDatabaseNotFound mc MetaDatabase
                     nodeID now database retentionPolicy c points sels arrivals ms))
      as ms1. clear Heqms1.
    rewrite (WritePoints_collect _ _ _ _ _ _ _ _ _ _ _ _ _ _ _ _ _ _ Hres Hmap).
    cbn [fst started]. split.
    + unfold shardWrites. rewrite length_map. apply length_map_to_list.
    + intros sw Hsw.
      destruct (Hshape rp ms0 m ms1 Hres Hmap sw Hsw) as (id & s & Hs & Hf & Hp).
      exists id. split; [exact Hf |]. split.
      * unfold bucketOf, index_slice. rewrite Hs. exact Hp.
      * intros sh Hsh. rewrite Hf in Hsh.
        destruct (MapShards_inr _ _ _ _ _ _ _ _ Hmap) as (rpi & ms' & groups & _ & _ & Hm).
        assert (Hkeys : mapping_keys_inv m).
        { rewrite Hm. apply mapPoints_keys. intros id0. simpl. rewrite !lookup_empty.
          split; [tauto |]. split; intros x Hx; discriminate. }
        apply (Hkeys id). exact Hsh.
  - intros [e He]. unfold WritePoints.
    destruct (resolvePolicy ErrDatabaseNotFound MetaDatabase database retentionPolicy ms)
      as [[e' | rp] ms0]; [reflexivity | discriminate].
Qed.

(** X17: with an empty policy name, [WritePoints] fails with the
    database-not-found error, without looking up a policy or starting a write,
    when the database does not exist; and when it exists with a default
    policy that has a name, the call goes on exactly as a call that names
    that policy, from the state the lookup leaves. *)
Theorem WritePoints_default_policy (growslice : nat -> nat -> nat)
    (ShardFor : ShardGroupInfo -> N -> ShardInfo) (ErrDatabaseNotFound : string -> error)
    {MS : Type} (mc : MetaClient MS)
    (MetaDatabase : string -> MS -> option DatabaseInfo * MS)
    (nodeID : N) (now : Z) (database : string)
    (c : ConsistencyLevel) (points : list Point) (sels : N -> list SelectCase)
    (arrivals : list BatchCase) (ms : MS) :
  (forall ms0,
     MetaDatabase database ms = (None, ms0) ->
     WritePoints growslice ShardFor ErrDatabaseNotFound mc MetaDatabase nodeID now database
       "" c points sels arrivals ms
     = ({| started := []; got := [];
           wpReturned := Some (Some (ErrDatabaseNotFound database)) |}, ms0)) /\
  (forall db ms0,
     MetaDatabase database ms = (Some db, ms0) ->
     DefaultRetentionPolicy db <> "" ->
     WritePoints growslice ShardFor ErrDatabaseNotFound mc MetaDatabase nodeID now database
       "" c points sels arrivals ms
     = WritePoints growslice ShardFor ErrDatabaseNotFound mc MetaDatabase nodeID now
         database (DefaultRetentionPolicy db) c points sels arrivals ms0).
Proof.
  split.
  - intros ms0 Hdb. unfold WritePoints, resolvePolicy. cbn [String.eqb].
    rewrite Hdb. reflexivity.
  - intros db ms0 Hdb Hne. unfold WritePoints, resolvePolicy at 1. cbn [String.eqb].
    rewrite Hdb. unfold resolvePolicy.
    apply String.eqb_neq in Hne. rewrite Hne. reflexivity.
Qed.

(** ** The peer write, on every path *)

(** X18: whatever the store answers, [processWriteShardRequest] calls it with
    the first write, then at most the creation of the shard, then at most one
    more write, with the identifier, names and points of the request.  A
    payload that cannot be decoded is answered with the decoding error and no
    call; a first write that succeeds is answered nil; a first write that
    fails with an error other than shard-not-found is answered with that
    error wrapped as "write shard id: ...", and the shard is not created. *)
Theorem processWriteShardRequest_store_calls {W : Type}
    (respond : Call -> W -> option error * W)
    (UnmarshalBinary : list Byte.byte -> error + WriteShardRequest)
    (buf : list Byte.byte) (w : W) :
  let out := run respond (processWriteShardRequest UnmarshalBinary buf) w in
  (forall err, UnmarshalBinary buf = inl err ->
     fst (fst out) = Some err /\ snd out = []) /\
  (forall req, UnmarshalBinary buf = inr req ->
     let write := TSDBStore_WriteToShard (ReqShardID req) (ReqPoints req) in
     let create := TSDBStore_CreateShard (ReqDatabase req) (ReqRetentionPolicy req)
                     (ReqShardID req) true in
     (calls (snd out) = [write] \/
      calls (snd out) = [write; create] \/
      calls (snd out) = [write; create; write]) /\
     (fst (respond write w) = None ->
      fst (fst out) = None /\ calls (snd out) = [write]) /\
     (forall e, fst (respond write w) = Some e -> e <> ErrShardNotFound ->
        fst (fst out) = Some (errWriteShard (ReqShardID req) e) /\
        calls (snd out) = [write])).
Proof.
  cbv zeta. unfold processWriteShardRequest. split.
  - intros err ->. split; reflexivity.
  - intros req ->. cbn [run fst snd].
    destruct (fst (respond (TSDBStore_WriteToShard (ReqShardID req) (ReqPoints req)) w))
      as [e |] eqn:Efirst.
    + destruct (is_ErrShardNotFound (Some e)) eqn:Esnf.
      * split; [| split; [discriminate |]].
        -- destruct (String.eqb (ReqDatabase req) "" || String.eqb (ReqRetentionPolicy req) "");
             [left; reflexivity |].
           cbn [run fst snd].
           destruct (fst (respond (TSDBStore_CreateShard _ _ _ _) _));
             [right; left; reflexivity |].
           right. right. cbn [run fst snd].
           destruct (fst (respond (TSDBStore_WriteToShard _ _)
                            (snd (respond (TSDBStore_CreateShard _ _ _ _) _))));
             reflexivity.
        -- intros e' He' Hne. injection He' as <-.
           destruct e; try discriminate Esnf. congruence.
      * split; [left; reflexivity |]. split; [discriminate |].
        intros e' He' _. injection He' as <-. split; reflexivity.
    + cbn [is_ErrShardNotFound]. split; [left; reflexivity |].
      split; [intros _; split; reflexivity | discriminate].
Qed.

(** ** Channels that [Open] replaces *)

Lemma runOps_keeps_channel_open (ops : list Op) :
  forall (w : PointsWriter) (rt : Runtime) (c : chan) (w' : PointsWriter) (rt' : Runtime),
    chans rt !! c = Some false ->
    closing w <> Some c ->
    runOps ops w rt = Returned w' rt' ->
    chans rt' !! c = Some false.
Proof.
  induction ops as [| op ops IH]; intros w rt c w' rt' Hopen Hcur Hrun.
  - simpl in Hrun. injection Hrun as <- <-. exact Hopen.
  - cbn [runOps] in Hrun. destruct op.
    + unfold PointsWriter_Open, make_chan, emit in Hrun. cbn in Hrun.
      assert (Hc : (c < length (chans rt))%nat) by (eapply lookup_lt_Some; exact Hopen).
      refine (IH _ _ c w' rt' _ _ Hrun); cbn.
      * apply lookup_app_l_Some. exact Hopen.
      * intros E. injection E as E. lia.
    + unfold PointsWriter_Close, close_chan, emit in Hrun. cbn in Hrun.
      destruct (closing w) as [c' |] eqn:Ec.
      * destruct (chans rt !! c') as [[|] |] eqn:Ec'; try discriminate.
        refine (IH _ _ c w' rt' _ _ Hrun); cbn.
        -- rewrite list_lookup_insert_ne by congruence. exact Hopen.
        -- rewrite Ec. exact Hcur.
      * refine (IH _ _ c w' rt' _ _ Hrun); cbn; [exact Hopen | rewrite Ec; exact Hcur].
Qed.

(** X19: [Open] replaces the closing channel of a writer without closing
    it: a channel that is open when [Open] replaces it stays open through
    every later sequence of [Open] and [Close] calls, so nothing that waits
    on it is ever told of a shutdown. *)
Theorem PointsWriter_Open_abandons_channel (w w1 w' : PointsWriter)
    (rt rt1 rt' : Runtime) (c : chan) (ops : list Op) :
  closing w = Some c ->
  chans rt !! c = Some false ->
  PointsWriter_Open w rt = Returned (w1, None) rt1 ->
  runOps ops w1 rt1 = Returned w' rt' ->
  closing w1 <> Some c /\ chans rt' !! c = Some false.
Proof.
  intros Hc Hopen Ho Hrun.
  unfold PointsWriter_Open, make_chan, emit in Ho. cbn in Ho.
  injection Ho as <- <-.
  assert (Hlt : (c < length (chans rt))%nat) by (eapply lookup_lt_Some; exact Hopen).
  assert (Hne : Some (length (chans rt)) <> Some c) by (intros E; injection E as E; lia).
  split; [exact Hne |].
  refine (runOps_keeps_channel_open ops
            {| closing := Some (length (chans rt)); PWNode := PWNode w |} _ c w' rt'
            _ Hne Hrun).
  cbn. apply lookup_app_l_Some. exact Hopen.
Qed.

(** The statement at a new writer that is opened, then closed, opened and
    closed again: the channel it was made with is still open. *)
Lemma PointsWriter_Open_abandons_channel_witness :
  closing reopenedWriter <> Some 0%nat /\ chans finalRuntime !! 0%nat = Some false.
Proof.
  apply (PointsWriter_Open_abandons_channel
           (fst (NewPointsWriter empty_runtime)) reopenedWriter finalWriter
           (snd (NewPointsWriter empty_runtime)) reopenedRuntime finalRuntime
           0%nat [OpClose; OpOpen; OpClose]); reflexivity.
Defined.

(** ** The connection handler *)

Section HandlerFacts.

Variable WSR ESR CIR FDR : Byte.byte.
Variable UnmarshalBinary : list Byte.byte -> error + WriteShardRequest.
Variable MarshalBinary : WriteShardResponse -> error + list Byte.byte.
Context {W : Type}.
Variable respond : Call -> W -> option error * W.

Lemma handleConn_stop_head (stop : Incoming) (rest : list Incoming) (w : W) :
  stops WSR ESR CIR FDR stop = true ->
  handleConn WSR ESR CIR FDR UnmarshalBinary MarshalBinary respond (stop :: rest) w = handleConn WSR ESR CIR FDR UnmarshalBinary MarshalBinary respond [stop] w.
Proof.
  destruct stop as [err | typ lv]; [reflexivity |]. cbn [stops handleConn].
  destruct (Byte.eqb typ WSR); cbn [orb].
  - destruct lv; [reflexivity | discriminate].
  - destruct (Byte.eqb typ ESR); cbn [orb].
    + destruct lv; [reflexivity | discriminate].
    + destruct (Byte.eqb typ CIR); [reflexivity |].
      destruct (Byte.eqb typ FDR); [reflexivity | discriminate].
Qed.

Lemma handleConn_congr (item : Incoming) (a b : list Incoming) :
  (forall w, handleConn WSR ESR CIR FDR UnmarshalBinary MarshalBinary respond a w = handleConn WSR ESR CIR FDR UnmarshalBinary MarshalBinary respond b w) ->
  forall w, handleConn WSR ESR CIR FDR UnmarshalBinary MarshalBinary respond (item :: a) w = handleConn WSR ESR CIR FDR UnmarshalBinary MarshalBinary respond (item :: b) w.
Proof.
  intros Hab w. destruct item as [err | typ lv]; [reflexivity |]. cbn [handleConn].
  destruct (Byte.eqb typ WSR).
  - destruct lv; [reflexivity |]. rewrite Hab. reflexivity.
  - destruct (Byte.eqb typ ESR).
    + destruct lv; [reflexivity |]. rewrite Hab. reflexivity.
    + destruct (Byte.eqb typ CIR); [reflexivity |].
      destruct (Byte.eqb typ FDR); [reflexivity | apply Hab].
Qed.

Lemma handleConn_app_congr (pre a b : list Incoming) :
  (forall w, handleConn WSR ESR CIR FDR UnmarshalBinary MarshalBinary respond a w = handleConn WSR ESR CIR FDR UnmarshalBinary MarshalBinary respond b w) ->
  forall w, handleConn WSR ESR CIR FDR UnmarshalBinary MarshalBinary respond (pre ++ a) w = handleConn WSR ESR CIR FDR UnmarshalBinary MarshalBinary respond (pre ++ b) w.
Proof.
  intros Hab. induction pre as [| item pre IH]; [exact Hab |].
  cbn [app]. apply handleConn_congr. exact IH.
Qed.

End HandlerFacts.

(** X20: after a turn that stops it (a read of the type that fails, a request
    whose payload cannot be read, an iterator request, a field-dimension
    request) [handleConn] reads nothing more: what the connection gives after
    that turn has no effect on the store or on the responses. *)
Theorem handleConn_stops_reading (WSR ESR CIR FDR : Byte.byte)
    (UnmarshalBinary : list Byte.byte -> error + WriteShardRequest)
    (MarshalBinary : WriteShardResponse -> error + list Byte.byte)
    {W : Type} (respond : Call -> W -> option error * W)
    (pre : list Incoming) (stop : Incoming) (rest : list Incoming) (w : W) :
  stops WSR ESR CIR FDR stop = true ->
  handleConn WSR ESR CIR FDR UnmarshalBinary MarshalBinary respond (pre ++ stop :: rest) w
  = handleConn WSR ESR CIR FDR UnmarshalBinary MarshalBinary respond (pre ++ [stop]) w.
Proof.
  intros Hstop. apply handleConn_app_congr. intros w0.
  apply handleConn_stop_head. exact Hstop.
Qed.


(** The statement at the example connection: the request after the iterator
    request is not read. *)
Lemma handleConn_stops_reading_witness :
  handleConn Byte.x01 Byte.x02 Byte.x03 Byte.x04 exampleUnmarshal exampleMarshal lazyStore
    (firstn 3 exampleScript ++ Frame Byte.x03 (inr []) :: [Frame Byte.x01 (inr [])]) false
  = handleConn Byte.x01 Byte.x02 Byte.x03 Byte.x04 exampleUnmarshal exampleMarshal lazyStore
      (firstn 3 exampleScript ++ [Frame Byte.x03 (inr [])]) false.
Proof.
  apply (handleConn_stops_reading Byte.x01 Byte.x02 Byte.x03 Byte.x04 exampleUnmarshal
           exampleMarshal lazyStore (firstn 3 exampleScript) (Frame Byte.x03 (inr []))
           [Frame Byte.x01 (inr [])] false).
  reflexivity.
Defined.


Lemma processWriteShardRequest_at_most_three {W : Type}
    (respond : Call -> W -> option error * W)
    (UnmarshalBinary : list Byte.byte -> error + WriteShardRequest)
    (buf : list Byte.byte) (w : W) :
  (length (snd (run respond (processWriteShardRequest UnmarshalBinary buf) w)) <= 3)%nat.
Proof.
  unfold processWriteShardRequest.
  destruct (UnmarshalBinary buf) as [err | req]; [simpl; lia |].
  cbn [run fst snd length].
  destruct (is_ErrShardNotFound _); [| simpl; lia].
  destruct (String.eqb (ReqDatabase req) "" || String.eqb (ReqRetentionPolicy req) "");
    [simpl; lia |].
  cbn [run fst snd length].
  destruct (fst (respond (TSDBStore_CreateShard _ _ _ _) _)); [simpl; lia |].
  cbn [run fst snd length].
  destruct (fst (respond (TSDBStore_WriteToShard _ _)
                   (snd (respond (TSDBStore_CreateShard _ _ _ _) _)))); simpl; lia.
Qed.

Lemma filter_isRespond_store (tr : list (Call * option error)) :
  List.filter isRespond (List.map (fun cr => HStore (fst cr) (snd cr)) tr) = [].
Proof. induction tr as [| x tr IH]; [reflexivity | exact IH]. Qed.

Lemma filter_isStore_store (tr : list (Call * option error)) :
  length (List.filter isStore (List.map (fun cr => HStore (fst cr) (snd cr)) tr)) = length tr.
Proof. induction tr as [| x tr IH]; [reflexivity | simpl; rewrite IH; reflexivity]. Qed.

(** X22: whatever the store answers, [handleConn] builds exactly one response
    for every request it reads in full, write request or statement request,
    also when handling the request fails; and it makes at most three calls
    (store or log) per write request and none for any other frame. *)
Theorem handleConn_answers_each_request (WSR ESR CIR FDR : Byte.byte)
    (UnmarshalBinary : list Byte.byte -> error + WriteShardRequest)
    (MarshalBinary : WriteShardResponse -> error + list Byte.byte)
    {W : Type} (respond : Call -> W -> option error * W)
    (script : list Incoming) (w : W) :
  let evs := fst (handleConn WSR ESR CIR FDR UnmarshalBinary MarshalBinary respond script w) in
  length (List.filter isRespond evs) = requestsRead WSR ESR CIR FDR script /\
  (length (List.filter isStore evs) <= 3 * writeRequestsRead WSR ESR CIR FDR script)%nat.
Proof.
  cbv zeta. revert w. induction script as [| item rest IH]; intros w; [split; reflexivity |].
  destruct item as [err | typ lv]; [split; reflexivity |].
  cbn [handleConn requestsRead writeRequestsRead stops]. unfold unknownType.
  destruct (Byte.eqb typ WSR) eqn:E1; cbn [orb negb].
  - destruct lv as [e | buf]; [split; reflexivity |]. cbn [fst snd].
    destruct (IH (snd (fst (run respond (processWriteShardRequest UnmarshalBinary buf) w))))
      as [IH1 IH2].
    rewrite !List.filter_app, !length_app, filter_isRespond_store, filter_isStore_store.
    cbn [writeShardResponse List.filter isRespond isStore length].
    pose proof (processWriteShardRequest_at_most_three respond UnmarshalBinary buf w).
    split; [rewrite IH1; reflexivity | lia].
  - destruct (Byte.eqb typ ESR) eqn:E2; cbn [orb negb].
    + destruct lv as [e | buf]; [split; reflexivity |]. cbn [fst snd].
      destruct (IH w) as [IH1 IH2].
      cbn [writeShardResponse app List.filter isRespond isStore length].
      split; [rewrite IH1; reflexivity | exact IH2].
    + destruct (Byte.eqb typ CIR) eqn:E3; cbn [orb negb]; [split; simpl; lia |].
      destruct (Byte.eqb typ FDR) eqn:E4; cbn [orb negb]; [split; simpl; lia |].
      apply IH.
Qed.

(** ** The accept loop *)

Lemma serve_end_head (turn : AcceptTurn) (rest : list AcceptTurn) :
  endsServe turn = true -> serve (turn :: rest) = [].
Proof.
  unfold endsServe. cbn [serve]. destruct (shutdown turn); [reflexivity |].
  destruct (accepted turn) as [err | conn]; [| discriminate].
  cbn [orb]. intros ->. reflexivity.
Qed.

(** X23: [serve] starts a handler for a connection only if [Accept] gave it
    in a turn in which no shutdown was signalled; an [Accept] error whose
    text does not contain "connection closed" starts nothing and does not
    end the loop; and once the shutdown is signalled or [Accept] fails with
    "connection closed", no later connection is accepted. *)
Theorem serve_accepts_until_closed :
  (forall script conn, In conn (serve script) ->
     exists turn, In turn script /\ shutdown turn = false /\ accepted turn = inr conn) /\
  (forall pre turn rest, skipped turn = true ->
     serve (pre ++ turn :: rest) = serve (pre ++ rest)) /\
  (forall pre turn rest, endsServe turn = true ->
     serve (pre ++ turn :: rest) = serve pre).
Proof.
  assert (Hcongr : forall pre a b, serve a = serve b -> serve (pre ++ a) = serve (pre ++ b)).
  { intros pre a b Hab. induction pre as [| t pre IH]; [exact Hab |].
    cbn [app serve]. destruct (shutdown t); [reflexivity |].
    destruct (accepted t) as [err | conn]; [| rewrite IH; reflexivity].
    destruct (strings.Contains _ _); [reflexivity | exact IH]. }
  split; [| split].
  - induction script as [| t script IH]; intros conn Hin; [destruct Hin |].
    cbn [serve] in Hin. destruct (shutdown t) eqn:Es; [destruct Hin |].
    destruct (accepted t) as [err | c] eqn:Ea.
    + destruct (strings.Contains _ _); [destruct Hin |].
      destruct (IH conn Hin) as (turn & Ht & H1 & H2).
      exists turn. split; [right; exact Ht | split; assumption].
    + destruct Hin as [<- | Hin].
      * exists t. split; [left; reflexivity | split; assumption].
      * destruct (IH conn Hin) as (turn & Ht & H1 & H2).
        exists turn. split; [right; exact Ht | split; assumption].
  - intros pre turn rest Hskip. apply Hcongr. unfold skipped in Hskip.
    apply andb_true_iff in Hskip. destruct Hskip as [Hs Ha].
    apply negb_true_iff in Hs. cbn [serve]. rewrite Hs.
    destruct (accepted turn) as [err | conn]; [| discriminate].
    apply negb_true_iff in Ha. rewrite Ha. reflexivity.
  - intros pre turn rest Hend.
    rewrite (Hcongr pre (turn :: rest) []); [rewrite app_nil_r; reflexivity |].
    apply serve_end_head. exact Hend.
Qed.
